(** * Eddie and RetLint: a shallow embedding

    This development embeds two pieces of the repository:

    - [Retlint]: the return-type analysis of [pkg/cmd/retlint]
      ([RetLint.Execute], [analyze], [decide], [extract], [isAllowed],
      [markDirty], [resolve], [stat]);
    - [Rt]: the enforcement runtime of [pkg/cmd/eddie/rt]
      ([Enforcer.expand], [expandAll], [enforce], the worker loop of
      [enforceAll] and the exit status of [Main]).

    Go pointers are modelled by addresses into an explicit store, Go maps
    by [gmap], map-as-set by [gset], slices by lists (with their backing
    array where the code shares one), panics and errors by explicit
    outcomes. *)

From Stdlib Require Import Ascii String.
From stdpp Require Import base option list gmap strings sorting.

Open Scope string_scope.
Open Scope list_scope.
Open Scope nat_scope.
Open Scope stdpp_scope.

(** The double-quote character, as printed by the [%q] verb. *)
Definition dquote : string := String (ascii_of_nat 34) EmptyString.

(** [fmt.Sprintf("%q", s)] for the strings met here (identifiers, type
    names): the text between double quotes. *)
Definition quote (s : string) : string := dquote +:+ s +:+ dquote.

(* ================================================================== *)
(** * RetLint *)
(* ================================================================== *)

Module Retlint.

(** ** Program model: go/types and go/ssa as the analysis inspects them *)

(** Addresses of SSA values, of SSA functions and of [funcStat] records. *)
Definition Val := nat.
Definition Fn := nat.
Definition StatPtr := nat.

(** [types.Type]: the analysis distinguishes pointers, named types and
    tuples; every other kind of type falls in its [default] branches. *)
#[warnings="-register-all"]
Inductive Ty :=
| Named (name : string)
| Pointer (elem : Ty)
| Tuple (vars : list Ty)
| OtherType (repr : string).

Fixpoint Ty_String (t : Ty) : string :=
  match t with
  | Named n => n
  | Pointer e => "*" +:+ Ty_String e
  | Tuple vs => "(" +:+ (fix go (l : list Ty) : string :=
                           match l with
                           | [] => ""
                           | [x] => Ty_String x
                           | x :: r => Ty_String x +:+ ", " +:+ go r
                           end) vs +:+ ")"
  | OtherType r => r
  end.

(** [token.Token] for the operators of [ssa.UnOp]. *)
Inductive Token := MUL | SUB | NOT | XOR | ARROW.

#[global] Instance Token_eq_dec : EqDecision Token.
Proof. solve_decision. Defined.

(** [ssa.Value]: the shapes [decide] switches on; [Other] stands for every
    remaining implementation of the interface (Alloc, Parameter, BinOp,
    Lookup, Next, FieldAddr, ...). *)
Inductive Value :=
| Call (StaticCallee : option Fn) (ty : Ty)
| Const (IsNil : bool) (ty : Ty)
| Extract (Tuple_ : Val) (Index : nat) (ty : Ty)
| MakeInterface (X : Val) (ty : Ty)
| Phi (Edges : list Val) (ty : Ty)
| TypeAssert (X : Val) (AssertedType : Ty) (CommaOk : bool)
| UnOp (Op : Token) (X : Val) (CommaOk : bool) (ty : Ty)
| Other (descr : string) (ty : Ty).

(** [Value.Type()]. A comma-ok type assertion has the tuple type
    [(AssertedType, bool)]. *)
Definition Value_Type (v : Value) : Ty :=
  match v with
  | Call _ ty | Const _ ty | Extract _ _ ty | MakeInterface _ ty
  | Phi _ ty | UnOp _ _ _ ty | Other _ ty => ty
  | TypeAssert _ a commaOk =>
      if commaOk then Tuple [a; OtherType "bool"] else a
  end.

Inductive Instr :=
| Return (Results : list Val)
| OtherInstr.

Record Function := {
  Name : string;
  RelString : string;
  Pkg : option string;
  (** [Signature.Results()]: [None] is the nil tuple *)
  SigResults : option (list Ty);
  Blocks : list (list Instr)
}.

(** [ssa.Member] of a package, with the method sets the bootstrap loop of
    [Execute] walks; [MethodValue] may return nil. *)
Inductive Member :=
| MFunction (fn : Fn)
| MType (valueMethods : list (option Fn)) (pointerMethods : list (option Fn))
| MOther.

Record Package := {
  Path : string;
  (** [pkg.Type(name)] followed by [.Type()] *)
  Types : gmap string Ty;
  Members : list Member
}.

Record Program := {
  values : list Value;
  functions : list Function;
  (** [types.Universe]: object name to [Object.Type()] *)
  Universe : gmap string Ty;
  (** [pgm.AllPackages()] *)
  AllPackages : list Package;
  (** the packages returned by [ssautil.AllPackages] for the inputs *)
  inputPackages : list Package;
  (** the error of [packages.Load], if any *)
  loadError : option string
}.

(** ** Analysis state *)

Inductive state := stateUnknown | stateAnalyzing | stateClean | stateDirty.

#[global] Instance state_eq_dec : EqDecision state.
Proof. solve_decision. Defined.

Record DirtyReason := {
  Reason : string;
  Value_ : Val
}.

(** Modelled from the spec: the declaration of [funcStat] is not part of
    the sources at hand; its fields are those the code reads and writes
    ([dirties], [fn], [returns], [state], [targetIndexes], [why]) and
    the spec lists in its data model. A nil [why] is the empty list: the
    code only ever stores slices of length at least one. *)
Record funcStat := {
  dirties : gmap StatPtr Val;
  fn : option Fn;
  returns : list (list Val);
  fstate : state;
  targetIndexes : list nat;
  why : list DirtyReason
}.

Definition set_dirties (d : gmap StatPtr Val) (s : funcStat) : funcStat :=
  {| dirties := d; fn := fn s; returns := returns s; fstate := fstate s;
     targetIndexes := targetIndexes s; why := why s |}.
Definition set_returns (r : list (list Val)) (s : funcStat) : funcStat :=
  {| dirties := dirties s; fn := fn s; returns := r; fstate := fstate s;
     targetIndexes := targetIndexes s; why := why s |}.
Definition set_fstate (x : state) (s : funcStat) : funcStat :=
  {| dirties := dirties s; fn := fn s; returns := returns s; fstate := x;
     targetIndexes := targetIndexes s; why := why s |}.
Definition set_targetIndexes (t : list nat) (s : funcStat) : funcStat :=
  {| dirties := dirties s; fn := fn s; returns := returns s; fstate := fstate s;
     targetIndexes := t; why := why s |}.
Definition set_why (w : list DirtyReason) (s : funcStat) : funcStat :=
  {| dirties := dirties s; fn := fn s; returns := returns s; fstate := fstate s;
     targetIndexes := targetIndexes s; why := w |}.

(** Modelled from the spec: the package-level [clean] record that
    [extract] stores for irrelevant functions is declared outside the
    sources at hand; it is a [funcStat] in state Clean ("irrelevant
    functions are permanently marked Clean"). It lives at address 0. *)
Definition clean : funcStat :=
  {| dirties := ∅; fn := None; returns := []; fstate := stateClean;
     targetIndexes := []; why := [] |}.
Definition cleanPtr : StatPtr := 0.

(** One write to a [funcStat]: its address, the record before and after.
    The journal is ghost state: the code does not keep it, the model
    appends to it at every field assignment. *)
Record write := {
  w_ptr : StatPtr;
  w_old : funcStat;
  w_new : funcStat
}.

(** The [RetLint] struct, together with the store of [funcStat] records
    its pointers refer to and the ghost journal. *)
Record RetLint := {
  AllowedNames : list string;
  Dir : string;
  Packages : list string;
  TargetName : string;
  allowed : gset string;
  stats : gmap Fn StatPtr;
  target : option string;
  work : list StatPtr;
  store : list funcStat;
  journal : list write
}.

Definition set_allowed (a : gset string) (l : RetLint) : RetLint :=
  {| AllowedNames := AllowedNames l; Dir := Dir l; Packages := Packages l;
     TargetName := TargetName l; allowed := a; stats := stats l;
     target := target l; work := work l; store := store l;
     journal := journal l |}.
Definition set_stats (m : gmap Fn StatPtr) (l : RetLint) : RetLint :=
  {| AllowedNames := AllowedNames l; Dir := Dir l; Packages := Packages l;
     TargetName := TargetName l; allowed := allowed l; stats := m;
     target := target l; work := work l; store := store l;
     journal := journal l |}.
Definition set_target (t : option string) (l : RetLint) : RetLint :=
  {| AllowedNames := AllowedNames l; Dir := Dir l; Packages := Packages l;
     TargetName := TargetName l; allowed := allowed l; stats := stats l;
     target := t; work := work l; store := store l;
     journal := journal l |}.
Definition set_work (w : list StatPtr) (l : RetLint) : RetLint :=
  {| AllowedNames := AllowedNames l; Dir := Dir l; Packages := Packages l;
     TargetName := TargetName l; allowed := allowed l; stats := stats l;
     target := target l; work := w; store := store l;
     journal := journal l |}.
Definition set_store (h : list funcStat) (j : list write) (l : RetLint) : RetLint :=
  {| AllowedNames := AllowedNames l; Dir := Dir l; Packages := Packages l;
     TargetName := TargetName l; allowed := allowed l; stats := stats l;
     target := target l; work := work l; store := h;
     journal := j |}.

(** ** Outcomes: normal return, panic, or fuel exhausted *)

(** The value carried by a panic: a plain string, or a value that
    implements [error] (runtime errors do). *)
Inductive PanicValue :=
| PanicString (s : string)
| PanicError (s : string).

Inductive outcome (A : Type) :=
| Done (a : A) (l : RetLint)
| Panicked (x : PanicValue) (l : RetLint)
| OutOfFuel (l : RetLint).
Arguments Done {A} a l.
Arguments Panicked {A} x l.
Arguments OutOfFuel {A} l.

Definition final {A} (o : outcome A) : RetLint :=
  match o with
  | Done _ l | Panicked _ l | OutOfFuel l => l
  end.

(** What the computation returned, if it did. *)
Definition returned {A} (o : outcome A) : option A :=
  match o with
  | Done a _ => Some a
  | Panicked _ _ | OutOfFuel _ => None
  end.

Definition M (A : Type) : Type := RetLint → outcome A.

#[global] Instance M_ret : MRet M := λ A a l, Done a l.
#[global] Instance M_bind : MBind M := λ A B k m l,
  match m l with
  | Done a l' => k a l'
  | Panicked x l' => Panicked x l'
  | OutOfFuel l' => OutOfFuel l'
  end.

Definition get : M RetLint := λ l, Done l l.
Definition modify (f : RetLint → RetLint) : M unit := λ l, Done tt (f l).
Definition panic {A} (x : PanicValue) : M A := λ l, Panicked x l.
Definition outOfFuel {A} : M A := λ l, OutOfFuel l.

(** [defer func() { x := recover(); ...; panic(h x) }()] *)
Definition rethrow {A} (h : PanicValue → PanicValue) (m : M A) : M A := λ l,
  match m l with
  | Panicked x l' => Panicked (h x) l'
  | o => o
  end.

Definition nilDereference : PanicValue :=
  PanicError "runtime error: invalid memory address or nil pointer dereference".
Definition indexOutOfRange : PanicValue :=
  PanicError "runtime error: index out of range".

Fixpoint forEach {A} (xs : list A) (body : A → M unit) : M unit :=
  match xs with
  | [] => mret tt
  | x :: xs' => body x ;; forEach xs' body
  end.

(** A loop whose body may [return] from the enclosing function. *)
Inductive flow := Continue | Returned.

Fixpoint foldM {A B} (f : B → A → M B) (xs : list A) (b : B) : M B :=
  match xs with
  | [] => mret b
  | x :: xs' => b' ← f b x; foldM f xs' b'
  end.

(** Dereferencing a [*funcStat]. *)
Definition load (p : StatPtr) : M funcStat :=
  l ← get;
  match store l !! p with
  | Some s => mret s
  | None => panic nilDereference
  end.

(** Assigning to fields of [*p]; every write is journalled. *)
Definition update (p : StatPtr) (f : funcStat → funcStat) : M unit :=
  s ← load p;
  modify (λ l, set_store (<[p := f s]> (store l))
                         (journal l ++ [{| w_ptr := p; w_old := s; w_new := f s |}]) l).

(** [&funcStat{...}] *)
Definition alloc (s : funcStat) : M StatPtr :=
  l ← get;
  modify (λ l, set_store (store l ++ [s]) (journal l) l) ;;
  mret (length (store l)).

(** ** The order of map iteration *)

(** The order in which a [range] loop visits the entries of a Go map is
    not specified. A [ranging] gives the order for the two maps the
    analysis ranges over, [stat.dirties] and [l.stats]; it is a proper
    one when it visits every entry once. *)
Record ranging := {
  rangeDirties : gmap StatPtr Val → list (StatPtr * Val);
  rangeStats : gmap Fn StatPtr → list (Fn * StatPtr)
}.

Definition ranges (rng : ranging) : Prop :=
  (∀ m, rangeDirties rng m ≡ₚ map_to_list m)
  ∧ (∀ m, rangeStats rng m ≡ₚ map_to_list m).

(** The order of the keys. *)
Definition inOrder : ranging :=
  {| rangeDirties := map_to_list; rangeStats := map_to_list |}.

(** ** The analysis *)

Section Analysis.

Variable pgm : Program.
Variable rng : ranging.

Definition valueAt (v : Val) : M Value :=
  match values pgm !! v with
  | Some t => mret t
  | None => panic nilDereference
  end.

Definition functionAt (f : Fn) : M Function :=
  match functions pgm !! f with
  | Some t => mret t
  | None => panic nilDereference
  end.

(** [because(value, reason, args...)] *)
Definition because (value : Val) (reason : string) : list DirtyReason :=
  [{| Reason := reason; Value_ := value |}].

(** [isAllowed]: unwrap pointers down to a named type; [None] is the
    panic of the tuple branch. *)
Fixpoint isAllowed_pure (allowedSet : gset string) (lookAt : Ty) : option bool :=
  match lookAt with
  | Pointer elem => isAllowed_pure allowedSet elem
  | Named n => Some (bool_decide (n ∈ allowedSet))
  | Tuple _ => None
  | OtherType _ => Some false
  end.

Definition tuplePanic : PanicValue :=
  PanicString "should not see a tuple type; unpack in extract()".

Definition isAllowed (lookAt : Ty) : M bool :=
  l ← get;
  match isAllowed_pure (allowed l) lookAt with
  | Some b => mret b
  | None => panic tuplePanic
  end.

(** [markDirty]: keep the shorter explanation, set the state, and pass
    the reason on to the functions registered in [dirties]. *)
Fixpoint markDirty (fuel : nat) (stat : StatPtr) (why_ : list DirtyReason) : M unit :=
  match fuel with
  | 0 => outOfFuel
  | S fuel' =>
      s ← load stat;
      changed ←
        (if bool_decide (why s = []) || bool_decide (length why_ < length (why s))
         then update stat (set_why why_) ;; mret true
         else mret false);
      s ← load stat;
      if bool_decide (fstate s = stateDirty) && negb changed then mret tt
      else
        update stat (set_fstate stateDirty) ;;
        s ← load stat;
        forEach (rangeDirties rng (dirties s)) (λ '(chained, call),
          markDirty fuel' chained ({| Reason := "calls"; Value_ := call |} :: why_))
  end.

(** The indexes of the results whose type is the named target type. *)
Fixpoint targetIndexesFrom (tgt : option string) (i : nat) (results : list Ty) : list nat :=
  match results with
  | [] => []
  | t :: rest =>
      match t with
      | Named n =>
          if bool_decide (Some n = tgt)
          then i :: targetIndexesFrom tgt (S i) rest
          else targetIndexesFrom tgt (S i) rest
      | _ => targetIndexesFrom tgt (S i) rest
      end
  end.

(** Every [Return] instruction of the function, block by block. *)
Definition returnsOf (f : Function) : list (list Val) :=
  omap (λ inst, match inst with Return rs => Some rs | OtherInstr => None end)
       (concat (Blocks f)).

(** [extract], given the [stat] it calls back into. *)
Definition extract (stat : Fn → M StatPtr) (f : Fn) : M unit :=
  fd ← functionAt f;
  l ← get;
  match SigResults fd with
  | None => modify (λ l, set_stats (<[f := cleanPtr]> (stats l)) l)
  | Some results =>
      match targetIndexesFrom (target l) 0 results with
      | [] => modify (λ l, set_stats (<[f := cleanPtr]> (stats l)) l)
      | tis =>
          p ← stat f;
          update p (set_returns (returnsOf fd)) ;;
          update p (set_targetIndexes tis)
      end
  end.

(** [stat]: the memoized [funcStat] of a function. The recursion through
    [extract] is one level deep (the inner call finds the entry the outer
    one has just stored). *)
Fixpoint stat_rec (depth : nat) (f : Fn) : M StatPtr :=
  match depth with
  | 0 => outOfFuel
  | S depth' =>
      l ← get;
      match stats l !! f with
      | Some p => mret p
      | None =>
          p ← alloc {| dirties := ∅; fn := Some f; returns := [];
                       fstate := stateUnknown; targetIndexes := []; why := [] |};
          modify (λ l, set_stats (<[f := p]> (stats l)) l) ;;
          modify (λ l, set_work (work l ++ [p]) l) ;;
          extract (stat_rec depth') f ;;
          mret p
      end
  end.

Definition stat : Fn → M StatPtr := stat_rec 2.

(** The deferred function of [analyze]: a recovered panic is wrapped with
    the name of the function under analysis and raised again. *)
Definition wrapPanic (fd : option Function) (x : PanicValue) : PanicValue :=
  match fd with
  | None => nilDereference
  | Some d =>
      match x with
      | PanicError e => PanicError (RelString d +:+ ": " +:+ e)
      | PanicString s => PanicError (Name d +:+ ": " +:+ s)
      end
  end.

Definition fnOf (s : funcStat) : option Function :=
  f ← fn s; functions pgm !! f.

(** [analyze] and [decide]. The [seen] map of [decide] is created by
    [analyze] and shared by all the calls below it; it is threaded
    through as a set. *)
Fixpoint analyze (fuel : nat) (p : StatPtr) : M unit :=
  match fuel with
  | 0 => outOfFuel
  | S fuel' =>
      s ← load p;
      if bool_decide (fstate s ≠ stateUnknown) then mret tt
      else
        rethrow (wrapPanic (fnOf s))
          (update p (set_fstate stateAnalyzing) ;;
           s ← load p;
           '(_, _) ← foldM (λ '(c, seen) ret,
               match c with
               | Returned => mret (Returned, seen)
               | Continue =>
                   foldM (λ '(c, seen) idx,
                     match c with
                     | Returned => mret (Returned, seen)
                     | Continue =>
                         match ret !! idx with
                         | None => panic indexOutOfRange
                         | Some v =>
                             seen' ← decide fuel' p v seen;
                             s ← load p;
                             if bool_decide (fstate s ≠ stateAnalyzing)
                             then mret (Returned, seen')
                             else mret (Continue, seen')
                         end
                     end) (targetIndexes s) (Continue, seen)
               end) (returns s) (Continue, (∅ : gset Val));
           mret tt)
  end
with decide (fuel : nat) (p : StatPtr) (val : Val) (seen : gset Val) : M (gset Val) :=
  match fuel with
  | 0 => outOfFuel
  | S fuel' =>
      if bool_decide (val ∈ seen) then mret seen
      else
        let seen := {[val]} ∪ seen in
        t ← valueAt val;
        match t with
        | Call (Some callee) _ =>
            next ← stat callee;
            analyze fuel' next ;;
            n ← load next;
            match fstate n with
            | stateClean => mret seen
            | stateDirty =>
                markDirty fuel' p ({| Reason := "calls"; Value_ := val |} :: why n) ;;
                mret seen
            | _ =>
                update next (λ n, set_dirties (<[p := val]> (dirties n)) n) ;;
                mret seen
            end
        | Call None _ =>
            markDirty fuel' p (because val "callee not static") ;;
            mret seen
        | Const isNil ty =>
            if isNil then mret seen
            else
              ok ← isAllowed ty;
              if (ok : bool) then mret seen
              else
                markDirty fuel' p
                  (because val ("constant of type " +:+ quote (Ty_String ty))) ;;
                mret seen
        | Extract tuple _ _ => decide fuel' p tuple seen
        | MakeInterface x _ => decide fuel' p x seen
        | Phi edges _ => foldM (λ seen edge, decide fuel' p edge seen) edges seen
        | TypeAssert _ asserted _ =>
            ok ← isAllowed asserted;
            if (ok : bool) then mret seen
            else
              markDirty fuel' p
                (because val ("assertion to " +:+ quote (Ty_String asserted))) ;;
              mret seen
        | UnOp op x _ _ =>
            if bool_decide (op = MUL) then decide fuel' p x seen
            else mret seen
        | Other _ _ =>
            ok ← isAllowed (Value_Type t);
            if (ok : bool) then mret seen
            else
              markDirty fuel' p
                (because val ("result of disallowed type "
                              +:+ quote (Ty_String (Value_Type t)))) ;;
              mret seen
        end
  end.

(** [path.Split]: the text up to and including the final slash, and the
    rest. *)
Fixpoint path_Split (s : string) : string * string :=
  match s with
  | EmptyString => ("", "")
  | String c rest =>
      let '(d, f) := path_Split rest in
      if bool_decide (d = "")
      then (if bool_decide (c = "/"%char) then ("/", f) else ("", String c f))
      else (String c d, f)
  end.

(** [s[:len(s)-1]] *)
Fixpoint dropLast (s : string) : string :=
  match s with
  | EmptyString => ""
  | String c EmptyString => ""
  | String c rest => String c (dropLast rest)
  end.

(** The loop of [resolve] over [pgm.AllPackages()]: the first package
    with the path decides ([break]). *)
Fixpoint findInPackages (tgtPath tgtName : string) (pkgs : list Package) : option Ty :=
  match pkgs with
  | [] => None
  | pkg :: rest =>
      if bool_decide (Path pkg = tgtPath)
      then Types pkg !! tgtName
      else findInPackages tgtPath tgtName rest
  end.

(** [resolve]: [inl] is the named type, [inr] the error. For a simple
    name the code assigns [found] under a nil check and then once more
    without it; calling [Type()] on the nil object panics. *)
Definition resolve (typeName : string) : M (string + string) :=
  let '(tgtPath, tgtName) := path_Split typeName in
  found ←
    (if bool_decide (tgtPath = "")
     then
       let tgtObject := Universe pgm !! tgtName in
       match tgtObject with
       | Some t => mret (Some t)
       | None => panic nilDereference
       end
     else
       let tgtPath := dropLast tgtPath in
       mret (findInPackages tgtPath tgtName (AllPackages pgm)));
  match found : option Ty with
  | None => mret (inr ("unable to find type " +:+ quote typeName))
  | Some (Named n) => mret (inl n)
  | Some _ => mret (inr (quote tgtName +:+ " was not a named type"))
  end.

(** The loop of [Execute] over [AllowedNames]; [Some err] is the early
    return. *)
Fixpoint resolveAllowed (names : list string) : M (option string) :=
  match names with
  | [] => mret None
  | a :: rest =>
      r ← resolve a;
      match r with
      | inl found =>
          modify (λ l, set_allowed ({[found]} ∪ allowed l) l) ;;
          resolveAllowed rest
      | inr err => mret (Some err)
      end
  end.

Definition statMethods (ms : list (option Fn)) : M unit :=
  forEach ms (λ m, match m with
                   | Some f => stat f ;; mret tt
                   | None => mret tt
                   end).

(** "Bootstrap the work to perform." *)
Definition bootstrap : M unit :=
  forEach (inputPackages pgm) (λ pkg,
    forEach (Members pkg) (λ m,
      match m with
      | MFunction t => stat t ;; mret tt
      | MType vms pms => statMethods vms ;; statMethods pms
      | MOther => mret tt
      end)).

(** "Loop until we haven't added any new functions." *)
Fixpoint workLoop (fuel : nat) : M unit :=
  match fuel with
  | 0 => outOfFuel
  | S fuel' =>
      l ← get;
      match work l with
      | [] => mret tt
      | w =>
          modify (set_work []) ;;
          forEach w (analyze fuel') ;;
          workLoop fuel'
      end
  end.

(** "Any functions not dirty by now are clean." *)
Definition settle : M unit :=
  l ← get;
  forEach (rangeStats rng (stats l)) (λ '(_, p),
    s ← load p;
    if bool_decide (fstate s = stateAnalyzing)
    then update p (set_fstate stateClean)
    else mret tt).

(** [ast.IsExported]: the name starts with an upper-case letter. *)
Definition IsExported (name : string) : bool :=
  match name with
  | EmptyString => false
  | String c _ => let n := nat_of_ascii c in Nat.leb 65 n && Nat.leb n 90
  end.

Definition inInput (pk : option string) : bool :=
  match pk with
  | Some path => bool_decide (path ∈ Path <$> inputPackages pgm)
  | None => false
  end.

(** "Returns dirty functions declared in the input package(s)." *)
Definition dirtyFunctions : M (list StatPtr) :=
  l ← get;
  foldM (λ ret '(_, p),
    s ← load p;
    if bool_decide (fstate s = stateDirty)
    then
      match fnOf s with
      | None => panic nilDereference
      | Some fd =>
          if IsExported (Name fd) && inInput (Pkg fd)
          then mret (ret ++ [p])
          else mret ret
      end
    else mret ret) (rangeStats rng (stats l)) [].

(** [RetLint.Execute]: the dirty functions and the error. *)
Definition Execute (fuel : nat) : M (list StatPtr * option string) :=
  l ← get;
  if bool_decide (TargetName l = "")
  then mret ([], Some "no target interface name set")
  else
    modify (set_allowed ∅) ;;
    modify (set_stats ∅) ;;
    match loadError pgm with
    | Some err => mret ([], Some err)
    | None =>
        r ← resolve (TargetName l);
        match r with
        | inr err => mret ([], Some err)
        | inl found =>
            modify (set_target (Some found)) ;;
            e ← resolveAllowed (AllowedNames l);
            match e with
            | Some err => mret ([], Some err)
            | None =>
                bootstrap ;;
                workLoop fuel ;;
                settle ;;
                ret ← dirtyFunctions;
                mret (ret, None)
            end
        end
    end.

End Analysis.

(** A freshly configured [RetLint]; the store holds the package-level
    [clean] record. *)
Definition configure (targetName : string) (allowedNames : list string) : RetLint :=
  {| AllowedNames := allowedNames; Dir := ""; Packages := [];
     TargetName := targetName; allowed := ∅; stats := ∅; target := None;
     work := []; store := [clean]; journal := [] |}.

(** The [funcStat] the analysis holds for a function at the end. *)
Definition statOf (l : RetLint) (f : Fn) : option funcStat :=
  p ← stats l !! f; store l !! p.

(** ** Properties of runs *)

(** A write that respects the life cycle of a [funcStat]: no write to a
    Clean record; a Dirty record is left as it is or gets a strictly
    shorter [why], nothing else. *)
Definition legal (w : write) : Prop :=
  fstate (w_old w) ≠ stateClean
  ∧ (fstate (w_old w) = stateDirty →
     w_new w = w_old w
     ∨ ∃ why', w_new w = set_why why' (w_old w)
               ∧ length why' < length (why (w_old w))).

(** A value [decide] never marks the function dirty for, given that the
    values it recurses into are in [S] and the callees in [F]. *)
Definition benignValue (allowedSet : gset string) (F : gset Fn) (S : gset Val)
    (t : Value) : bool :=
  match t with
  | Call (Some callee) _ => bool_decide (callee ∈ F)
  | Call None _ => false
  | Const isNil ty =>
      isNil || bool_decide (isAllowed_pure allowedSet ty = Some true)
  | Extract tuple _ _ => bool_decide (tuple ∈ S)
  | MakeInterface x _ => bool_decide (x ∈ S)
  | Phi edges _ => forallb (λ e, bool_decide (e ∈ S)) edges
  | TypeAssert _ asserted _ =>
      bool_decide (isAllowed_pure allowedSet asserted = Some true)
  | UnOp op x _ ty =>
      if bool_decide (op = MUL) then bool_decide (x ∈ S)
      else bool_decide (isAllowed_pure allowedSet ty = Some true)
  | Other _ ty => bool_decide (isAllowed_pure allowedSet ty = Some true)
  end.

(** The functions of [F] return, at the indexes of the target type, only
    values of [S]; and [S] holds only benign values. *)
Definition benign (pgm : Program) (tgt : string) (allowedSet : gset string)
    (F : gset Fn) (S : gset Val) : Prop :=
  set_Forall (λ v, ∃ t, values pgm !! v = Some t
                        ∧ benignValue allowedSet F S t = true) S
  ∧ set_Forall (λ f, ∃ fd, functions pgm !! f = Some fd
      ∧ ∀ results, SigResults fd = Some results →
          Forall (λ ret,
            Forall (λ idx, ∃ v, ret !! idx = Some v ∧ v ∈ S)
                   (targetIndexesFrom (Some tgt) 0 results))
          (returnsOf fd)) F.

(** [benign], as a check that can be run. *)
Definition benignb (pgm : Program) (tgt : string) (allowedSet : gset string)
    (F : gset Fn) (S : gset Val) : bool :=
  forallb (λ v, match values pgm !! v with
                | Some t => benignValue allowedSet F S t
                | None => false
                end) (elements S)
  && forallb (λ f,
       match functions pgm !! f with
       | Some fd =>
           match SigResults fd with
           | Some results =>
               forallb (λ ret,
                 forallb (λ idx, match ret !! idx with
                                 | Some v => bool_decide (v ∈ S)
                                 | None => false
                                 end)
                         (targetIndexesFrom (Some tgt) 0 results))
               (returnsOf fd)
           | None => true
           end
       | None => false
       end) (elements F).

(** The claim of the spec about returned values, read on the value at
    the target index itself: a nil constant, or a value whose type,
    pointers unwrapped, is a named type of the allowed set. *)
Definition returnsOnlyAllowed (pgm : Program) (tgt : string)
    (allowedSet : gset string) (f : Fn) : Prop :=
  ∃ fd results, functions pgm !! f = Some fd ∧ SigResults fd = Some results
    ∧ Forall (λ ret,
        Forall (λ idx, ∃ v t, ret !! idx = Some v ∧ values pgm !! v = Some t
                  ∧ (t = Const true (Value_Type t)
                     ∨ isAllowed_pure allowedSet (Value_Type t) = Some true))
               (targetIndexesFrom (Some tgt) 0 results))
      (returnsOf fd).

(** Modelled from the spec: "dirty-producing paths in the call+value
    graph". [dirtyPath v n]: from value [v], [n] reasons lead to a value
    the rule table marks dirty; [dirtyFn f n]: some return of [f] does. *)
Inductive dirtyPath (pgm : Program) (tgt : string) (allowedSet : gset string)
  : Val → nat → Prop :=
| dp_indirect v ty :
    values pgm !! v = Some (Call None ty) → dirtyPath pgm tgt allowedSet v 1
| dp_const v ty :
    values pgm !! v = Some (Const false ty) →
    isAllowed_pure allowedSet ty = Some false → dirtyPath pgm tgt allowedSet v 1
| dp_assert v x a ok :
    values pgm !! v = Some (TypeAssert x a ok) →
    isAllowed_pure allowedSet a = Some false → dirtyPath pgm tgt allowedSet v 1
| dp_other v d ty :
    values pgm !! v = Some (Other d ty) →
    isAllowed_pure allowedSet ty = Some false → dirtyPath pgm tgt allowedSet v 1
| dp_extract v tuple i ty n :
    values pgm !! v = Some (Extract tuple i ty) →
    dirtyPath pgm tgt allowedSet tuple n → dirtyPath pgm tgt allowedSet v n
| dp_wrap v x ty n :
    values pgm !! v = Some (MakeInterface x ty) →
    dirtyPath pgm tgt allowedSet x n → dirtyPath pgm tgt allowedSet v n
| dp_phi v edges ty e n :
    values pgm !! v = Some (Phi edges ty) → e ∈ edges →
    dirtyPath pgm tgt allowedSet e n → dirtyPath pgm tgt allowedSet v n
| dp_deref v x ok ty n :
    values pgm !! v = Some (UnOp MUL x ok ty) →
    dirtyPath pgm tgt allowedSet x n → dirtyPath pgm tgt allowedSet v n
| dp_call v callee ty fd results ret idx r n :
    values pgm !! v = Some (Call (Some callee) ty) →
    functions pgm !! callee = Some fd → SigResults fd = Some results →
    ret ∈ returnsOf fd → idx ∈ targetIndexesFrom (Some tgt) 0 results →
    ret !! idx = Some r →
    dirtyPath pgm tgt allowedSet r n → dirtyPath pgm tgt allowedSet v (S n).

Definition dirtyFn (pgm : Program) (tgt : string) (allowedSet : gset string)
    (f : Fn) (n : nat) : Prop :=
  ∃ fd results ret idx r,
    functions pgm !! f = Some fd ∧ SigResults fd = Some results
    ∧ ret ∈ returnsOf fd ∧ idx ∈ targetIndexesFrom (Some tgt) 0 results
    ∧ ret !! idx = Some r ∧ dirtyPath pgm tgt allowedSet r n.

(** ** Reasoning about runs *)

(** A weakest precondition for the outcome monad: [Φ] holds of the
    result and the state when the computation finishes, and [R] holds of
    the state when it is cut short, by a panic or for want of fuel. *)
Definition wp (R : RetLint → Prop) {A} (m : M A) (Φ : A → RetLint → Prop)
    (l : RetLint) : Prop :=
  match m l with
  | Done a l' => Φ a l'
  | Panicked _ l' => R l'
  | OutOfFuel l' => R l'
  end.

(** The state after [*p = s']. *)
Definition written (p : StatPtr) (s s' : funcStat) (l : RetLint) : RetLint :=
  set_store (<[p := s']> (store l))
            (journal l ++ [{| w_ptr := p; w_old := s; w_new := s' |}]) l.

(** The state after [&funcStat{...}]. *)
Definition allocated (s : funcStat) (l : RetLint) : RetLint :=
  set_store (store l ++ [s]) (journal l) l.

(** A record as [stat] makes it. *)
Definition fresh (f : Fn) : funcStat :=
  {| dirties := ∅; fn := Some f; returns := []; fstate := stateUnknown;
     targetIndexes := []; why := [] |}.

Section Invariants.

Variable pgm : Program.
Variables (tgt : string) (Aset : gset string) (F : gset Fn) (S : gset Val).
Variable rng : ranging.

Implicit Types (l : RetLint) (p q : StatPtr) (s : funcStat) (f : Fn).

Definition active (s : funcStat) : Prop :=
  fstate s = stateAnalyzing ∨ fstate s = stateDirty.

Definition activeAt (l : RetLint) (p : StatPtr) : Prop :=
  ∃ s, store l !! p = Some s ∧ active s.

Definition settledAt (l : RetLint) (p : StatPtr) : Prop :=
  ∃ s, store l !! p = Some s ∧ fstate s ≠ stateUnknown.

(** How the store may change between two states of the analysis. *)
Definition evolves l l' : Prop :=
  target l' = target l ∧ allowed l' = allowed l
  ∧ ∀ p s, store l !! p = Some s →
      ∃ s', store l' !! p = Some s' ∧ fn s' = fn s
            ∧ (active s → active s')
            ∧ (fstate s ≠ stateUnknown → fstate s' ≠ stateUnknown).

(** Every record the analysis holds for a function is Clean or Dirty. *)
Definition settled l : Prop :=
  ∀ f p, stats l !! f = Some p →
    ∃ s, store l !! p = Some s
         ∧ (fstate s = stateClean ∨ fstate s = stateDirty).

(** The state before the analysis proper: nothing analysed yet. *)
Definition pristine (l : RetLint) : Prop :=
  store l = [clean] ∧ journal l = [] ∧ stats l = ∅ ∧ work l = [].

Definition isF l p : Prop :=
  ∃ s f, store l !! p = Some s ∧ fn s = Some f ∧ f ∈ F.

(** The state is the one the sets [F] and [S] are benign for. *)
Definition Fcond l : Prop := target l = Some tgt ∧ allowed l = Aset.

Definition resultsIn s : Prop :=
  ∀ ret idx, ret ∈ returns s → idx ∈ targetIndexes s →
    ∃ v, ret !! idx = Some v ∧ v ∈ S.

(** What holds of every state of a run, however it ends. *)
Record safe l : Prop := {
  s_journal : ∀ w, w ∈ journal l → legal w;
  s_clean : store l !! cleanPtr = Some clean;
  s_fn : ∀ f p, stats l !! f = Some p →
           p = cleanPtr ∨ ∃ s, store l !! p = Some s ∧ fn s = Some f;
  s_F : Fcond l → ∀ p s f, store l !! p = Some s → fn s = Some f → f ∈ F →
          fstate s ≠ stateDirty
}.

(** What holds between the steps of the analysis proper. [pending] are
    the records of the current round that [analyze] has yet to see. *)
Record inv (pending : list StatPtr) l : Prop := {
  i_safe : safe l;
  i_dirties : ∀ p s q v, store l !! p = Some s → dirties s !! q = Some v →
                activeAt l q;
  i_why : ∀ p s, store l !! p = Some s → fstate s = stateDirty → why s ≠ [];
  i_results : Fcond l → ∀ p s f, store l !! p = Some s → fn s = Some f →
                f ∈ F → resultsIn s;
  i_F2 : Fcond l → ∀ p s q v, store l !! p = Some s →
           dirties s !! q = Some v → isF l q → isF l p;
  i_stats : ∀ f p, stats l !! f = Some p →
              settledAt l p ∨ p ∈ work l ∨ p ∈ pending
}.

(** What [decide] and [analyze] are to establish. *)
Definition decide_spec (fuel : nat) : Prop :=
  ∀ pending p val seen l,
    inv pending l → activeAt l p → (Fcond l → isF l p → val ∈ S) →
    wp safe (decide pgm rng fuel p val seen) (λ _ l', evolves l l' ∧ inv pending l') l.

Definition analyze_spec (fuel : nat) : Prop :=
  ∀ pending p l,
    inv pending l →
    wp safe (analyze pgm rng fuel p)
       (λ _ l', evolves l l' ∧ inv pending l' ∧ settledAt l' p) l.

End Invariants.

(** ** What the analysis is to report *)

Section Reports.

Variable pgm : Program.

Implicit Types (l : RetLint) (p q : StatPtr) (s : funcStat) (f : Fn).

(** The record at [p] is Dirty and stands for an exported function of
    an input package. *)
Definition dirtyExported l p : Prop :=
  ∃ s fd, store l !! p = Some s ∧ fstate s = stateDirty
    ∧ fnOf pgm s = Some fd
    ∧ IsExported (Name fd) = true ∧ inInput pgm (Pkg fd) = true.

(** [p] is the record the analysis holds for some function, and the
    function is to be reported. *)
Definition reported l p : Prop :=
  (∃ f, stats l !! f = Some p) ∧ dirtyExported l p.

(** A record that is Dirty with an explanation of at most [n]
    reasons. *)
Definition dirtyWithin l p (n : nat) : Prop :=
  ∃ s, store l !! p = Some s ∧ fstate s = stateDirty
       ∧ why s ≠ [] ∧ length (why s) ≤ n.

(** From [l] to [l'] every record keeps its function and its
    dependents, and a record that is Dirty with an explanation stays
    so, its explanation no longer than it was. *)
Definition settles l l' : Prop :=
  ∀ p s, store l !! p = Some s →
    ∃ s', store l' !! p = Some s' ∧ fn s' = fn s ∧ dirties s' = dirties s
          ∧ (fstate s = stateDirty → why s ≠ [] →
             fstate s' = stateDirty ∧ why s' ≠ []
             ∧ length (why s') ≤ length (why s)).

End Reports.

End Retlint.

(* ================================================================== *)
(** * The enforcement runtime *)
(* ================================================================== *)

Module Rt.

(** ** Data *)

(** [ext.Kind]: the kinds the runtime assigns to targets. *)
Inductive Kind :=
| KindFunction | KindInterface | KindInterfaceMethod | KindMethod | KindType.

(** [types.Object], as far as the runtime looks at it. [Obj_alias] is
    the name of the contract alias the object declares: [Some name] when
    [Type()] is a [*types.Named] whose underlying type is the
    [ext.Contract] interface found by [Execute]. *)
Record Object := {
  Obj_Name : string;
  Obj_Pos : nat;
  Obj_alias : option string
}.

(** [ssa.Member]: a name and a position. *)
Record Member := {
  M_Name : string;
  M_Pos : nat
}.

(** What a contract sees of the [contextImpl] built by [enforce]. *)
Record contextImpl := {
  ctx_contract : string;
  ctx_kind : Kind;
  declaration : Member;
  objects : list Member
}.

(** The interface a contract instance presents to the runtime:
    [Enforce], which answers with the reports it filed through the
    context (a located member and a message each) and its error; and the
    decoding of a JSON configuration into the instance, unknown fields
    disallowed. *)
Class Contract (I : Type) := {
  Enforce : I → contextImpl → list (Member * string) * option string;
  Decode : string → I → I + string
}.

(** The queries [enforce] makes to the SSA program and the oracle. *)
Record ssaProgram := {
  TypeMember : Object → Member;
  FuncValue : Object → Member;
  TypeImplementors : Object → bool → list Object;
  MethodImplementors : Object → string → bool → list Member
}.

Section Runtime.

Context {I : Type} `{Contract I}.

(** A [target]: the fields the runtime assigns and reads. [addr] is
    the identity of the [*target] (the key of the [seen] map in
    [expand]). *)
Record target := {
  addr : nat;
  config : string;
  contract : string;
  enclosing : option Object;
  kind : Kind;
  object : Object;
  pos : nat;
  impl : option I
}.

Definition set_impl (i : option I) (t : target) : target :=
  {| addr := addr t; config := config t; contract := contract t;
     enclosing := enclosing t; kind := kind t; object := object t;
     pos := pos t; impl := i |}.

(** A slice of targets: the written part of its backing array, its
    length and its capacity. *)
Record slice := {
  array : list target;
  len : nat;
  cap : nat
}.

Definition elems (s : slice) : list target := take (len s) (array s).

(** [append(s, x)] on a slice nobody else shares: in place while the
    capacity lasts, else into a new array of twice the capacity. *)
Definition append1 (s : slice) (x : target) : slice :=
  if bool_decide (len s < cap s)
  then {| array := take (len s) (array s) ++ [x]; len := S (len s); cap := cap s |}
  else {| array := elems s ++ [x]; len := S (len s);
          cap := if bool_decide (cap s = 0) then 1 else 2 * cap s |}.

Inductive error :=
| ErrNoPackages
| ErrLoad (msg : string)
| ErrRecursive (position : nat) (contractName : string)
| ErrNoContract (position : nat) (contractName : string)
| ErrDecode (position : nat) (msg : string)
| ErrReports
| ErrContext (msg : string).

(** The text of an error, given the rendering of positions by the file
    set. *)
Definition Error (Position : nat → string) (e : error) : string :=
  match e with
  | ErrNoPackages => "no packages specified"
  | ErrLoad msg => "could not load source due to error(s): " +:+ msg
  | ErrRecursive p c =>
      Position p +:+ " detected recursive contract " +:+ quote c
  | ErrNoContract p c =>
      Position p +:+ ": cannot find contract named " +:+ c
  | ErrDecode p msg => Position p +:+ ": " +:+ msg
  | ErrReports => "reports generated"
  | ErrContext msg => msg
  end.

Record ContractProvider := {
  New : I;
  Help : string
}.

(** [report]: what [Reportf] sends on the reports channel. *)
Record report := {
  r_target : target;
  r_pos : nat;
  r_info : string
}.

(** The [Enforcer]: the configuration and the state the phases hand to
    each other. [nextAddr] is the next free address for a [target]. *)
Record Enforcer := {
  AssertedInterfaces : bool;
  Contracts : gmap string ContractProvider;
  Packages : list string;
  SetExitStatus : bool;
  Tests : bool;
  aliases : gmap string slice;
  targets : list target;
  nextAddr : nat
}.

Definition set_aliases (a : gmap string slice) (e : Enforcer) : Enforcer :=
  {| AssertedInterfaces := AssertedInterfaces e; Contracts := Contracts e;
     Packages := Packages e; SetExitStatus := SetExitStatus e; Tests := Tests e;
     aliases := a; targets := targets e; nextAddr := nextAddr e |}.
Definition set_targets (t : list target) (e : Enforcer) : Enforcer :=
  {| AssertedInterfaces := AssertedInterfaces e; Contracts := Contracts e;
     Packages := Packages e; SetExitStatus := SetExitStatus e; Tests := Tests e;
     aliases := aliases e; targets := t; nextAddr := nextAddr e |}.
Definition set_nextAddr (n : nat) (e : Enforcer) : Enforcer :=
  {| AssertedInterfaces := AssertedInterfaces e; Contracts := Contracts e;
     Packages := Packages e; SetExitStatus := SetExitStatus e; Tests := Tests e;
     aliases := aliases e; targets := targets e; nextAddr := n |}.

(** Modelled from the spec: the [Less] of [targets] is declared outside
    the sources at hand; "Targets are totally ordered by (position,
    contract name)". *)
Definition target_le (a b : target) : Prop :=
  pos a < pos b ∨ (pos a = pos b ∧ String.leb (contract a) (contract b) = true).

#[global] Instance target_le_dec a b : Decision (target_le a b).
Proof. unfold target_le. apply _. Defined.

(** [sort.Sort] on targets. *)
Definition sortTargets (ts : list target) : list target :=
  merge_sort target_le ts.

(** ** Alias expansion *)

(** The slice [nonTerm] of [expand]. It starts as the table's entry for
    the base contract and is re-sliced to length zero and appended to:
    while the capacity of that entry lasts it shares the entry's backing
    array ([Shared n]: the first [n] slots), after the first reallocation
    it has an array of its own. *)
Inductive nonTermRef :=
| Shared (n : nat)
| Private (xs : list target).

Record expansion := {
  x_aliases : gmap string slice;
  x_nonTerm : nonTermRef;
  x_seen : gset nat;
  x_term : list target;
  x_nextAddr : nat
}.

Definition lookupElems (m : gmap string slice) (c : string) : list target :=
  match m !! c with
  | Some s => elems s
  | None => []
  end.

(** The elements of [nonTerm]. *)
Definition readNonTerm (c0 : string) (x : expansion) : list target :=
  match x_nonTerm x with
  | Shared n =>
      match x_aliases x !! c0 with
      | Some s => take n (array s)
      | None => []
      end
  | Private xs => xs
  end.

(** [nonTerm = nonTerm[:0]] *)
Definition resetNonTerm (x : expansion) : expansion :=
  {| x_aliases := x_aliases x;
     x_nonTerm := match x_nonTerm x with
                  | Shared _ => Shared 0
                  | Private _ => Private []
                  end;
     x_seen := x_seen x; x_term := x_term x; x_nextAddr := x_nextAddr x |}.

(** [nonTerm = append(nonTerm, more...)]: written into the shared array
    while it fits, which overwrites the table's entry for [c0]. *)
Definition appendNonTerm (c0 : string) (more : list target) (x : expansion) : expansion :=
  match x_nonTerm x with
  | Shared n =>
      match x_aliases x !! c0 with
      | Some s =>
          if bool_decide (n + length more ≤ cap s)
          then
            {| x_aliases :=
                 <[c0 := {| array := take n (array s) ++ more
                                     ++ drop (n + length more) (array s);
                            len := len s; cap := cap s |}]> (x_aliases x);
               x_nonTerm := Shared (n + length more);
               x_seen := x_seen x; x_term := x_term x;
               x_nextAddr := x_nextAddr x |}
          else
            {| x_aliases := x_aliases x;
               x_nonTerm := Private (take n (array s) ++ more);
               x_seen := x_seen x; x_term := x_term x;
               x_nextAddr := x_nextAddr x |}
      | None => x
      end
  | Private xs =>
      {| x_aliases := x_aliases x;
         x_nonTerm := Private (xs ++ more);
         x_seen := x_seen x; x_term := x_term x;
         x_nextAddr := x_nextAddr x |}
  end.

(** The body of [for _, alias := range work]: the state reached, and
    the error of the early return. *)
Fixpoint expandWork (base : target) (work : list target) (x : expansion)
  : expansion * option error :=
  match work with
  | [] => (x, None)
  | alias :: rest =>
      if bool_decide (addr alias ∈ x_seen x)
      then (x, Some (ErrRecursive (pos base) (contract alias)))
      else
        let x := {| x_aliases := x_aliases x; x_nonTerm := x_nonTerm x;
                    x_seen := {[addr alias]} ∪ x_seen x;
                    x_term := x_term x; x_nextAddr := x_nextAddr x |} in
        match x_aliases x !! contract alias with
        | Some moreExpansions =>
            expandWork base rest
              (appendNonTerm (contract base) (elems moreExpansions) x)
        | None =>
            let dup := {| addr := x_nextAddr x; config := config alias;
                          contract := contract alias;
                          enclosing := enclosing base; kind := kind base;
                          object := object base; pos := pos base;
                          impl := impl base |} in
            expandWork base rest
              {| x_aliases := x_aliases x; x_nonTerm := x_nonTerm x;
                 x_seen := x_seen x; x_term := x_term x ++ [dup];
                 x_nextAddr := S (x_nextAddr x) |}
        end
  end.

(** [for len(nonTerm) > 0 { ... }]; [None] when the fuel runs out. *)
Fixpoint expandLoop (fuel : nat) (base : target) (x : expansion)
  : option (expansion * option error) :=
  match fuel with
  | 0 => None
  | S fuel' =>
      match readNonTerm (contract base) x with
      | [] => Some (x, None)
      | work =>
          match expandWork base work (resetNonTerm x) with
          | (x', None) => expandLoop fuel' base x'
          | (x', Some err) => Some (x', Some err)
          end
      end
  end.

(** Every target stored in the alias table. *)
Definition tableTargets (m : gmap string slice) : list target :=
  map_to_list m ≫= (λ kv, array kv.2).

(** [expand]: the terminal targets, the error, and the Enforcer after
    the call (its alias table may have been written to). The loop runs
    at most once per target of the table and once more, which the fuel
    provides for. *)
Definition expand (e : Enforcer) (base : target)
  : option (list target * option error * Enforcer) :=
  match aliases e !! contract base with
  | None => Some ([base], None, e)
  | Some nonTerm =>
      '(x, err) ← expandLoop (S (length (tableTargets (aliases e)))) base
            {| x_aliases := aliases e; x_nonTerm := Shared (len nonTerm);
               x_seen := {[addr base]}; x_term := [];
               x_nextAddr := nextAddr e |};
      let e' := set_nextAddr (x_nextAddr x) (set_aliases (x_aliases x) e) in
      match err with
      | None => Some (sortTargets (x_term x), None, e')
      | Some err => Some ([], Some err, e')
      end
  end.

(** ** Provider binding and configuration *)

(** The first loop of [expandAll]. *)
Fixpoint expandEach (e : Enforcer) (ts : list target) (expanded : list target)
  : option (list target * option error * Enforcer) :=
  match ts with
  | [] => Some (expanded, None, e)
  | tgt :: rest =>
      '(expansion, err, e') ← expand e tgt;
      match err with
      | Some err => Some (expanded, Some err, e')
      | None => expandEach e' rest (expanded ++ expansion)
      end
  end.

(** The second loop of [expandAll]: bind the provider, make an instance
    and decode the configuration into it. *)
Fixpoint configureEach (providers : gmap string ContractProvider)
    (ts : list target) : list target * option error :=
  match ts with
  | [] => ([], None)
  | tgt :: rest =>
      match providers !! contract tgt with
      | None => ([], Some (ErrNoContract (pos tgt) (contract tgt)))
      | Some provider =>
          let inst := New provider in
          let decoded :=
            if bool_decide (config tgt ≠ "")
            then Decode (config tgt) inst
            else inl inst in
          match decoded with
          | inr msg => ([], Some (ErrDecode (pos tgt) msg))
          | inl inst' =>
              let '(rest', err) := configureEach providers rest in
              (set_impl (Some inst') tgt :: rest', err)
          end
      end
  end.

(** [expandAll]: on success the Enforcer's targets are the expanded and
    configured ones; on error they are left as they were ([impl] fields
    assigned before the failure are not kept: nothing reads them, the
    error goes straight back to the caller of [Execute]). *)
Definition expandAll (e : Enforcer) : option (Enforcer * option error) :=
  '(expanded, err, e') ← expandEach e (targets e) [];
  match err with
  | Some err => Some (e', Some err)
  | None =>
      match configureEach (Contracts e') expanded with
      | (_, Some err) => Some (e', Some err)
      | (configured, None) => Some (set_targets configured e', None)
      end
  end.

(** ** Scanning *)

(** One comment with the matches of [commentSyntax] in its text: the
    contract name (group 1) and the configuration text (group 2). *)
Record Comment := {
  c_pos : nat;
  c_matches : list (string * string)
}.

Definition isSpace (c : ascii) : bool :=
  let n := nat_of_ascii c in
  (n =? 32) || (n =? 9) || (n =? 10) || (n =? 11) || (n =? 12) || (n =? 13).

Fixpoint trimLeft (s : string) : string :=
  match s with
  | String c rest => if isSpace c then trimLeft rest else s
  | EmptyString => EmptyString
  end.

Fixpoint trimRight (s : string) : string :=
  match s with
  | EmptyString => EmptyString
  | String c rest =>
      match trimRight rest with
      | EmptyString => if isSpace c then EmptyString else String c EmptyString
      | r => String c r
      end
  end.

(** [strings.TrimSpace] on ASCII text. *)
Definition TrimSpace (s : string) : string := trimRight (trimLeft s).

(** The collections the scanning goroutines share under [mu], and the
    next free address. *)
Record scan := {
  mu_aliases : gmap string slice;
  mu_targets : list target;
  mu_nextAddr : nat
}.

(** The innermost body of the [contract] closure: one match. *)
Definition contractMatch (object_ : Object) (enclosing_ : option Object)
    (kind_ : Kind) (commentPos : nat) (m : string * string) (mu : scan) : scan :=
  let tgt := {| addr := mu_nextAddr mu; config := TrimSpace m.2;
                contract := m.1; enclosing := enclosing_; kind := kind_;
                object := object_; pos := commentPos; impl := None |} in
  match Obj_alias object_ with
  | Some name =>
      let old := default {| array := []; len := 0; cap := 0 |}
                         (mu_aliases mu !! name) in
      {| mu_aliases := <[name := append1 old tgt]> (mu_aliases mu);
         mu_targets := mu_targets mu;
         mu_nextAddr := S (mu_nextAddr mu) |}
  | None =>
      {| mu_aliases := mu_aliases mu;
         mu_targets := mu_targets mu ++ [tgt];
         mu_nextAddr := S (mu_nextAddr mu) |}
  end.

(** The [contract] closure of [findContracts]: every match of every
    comment of every group becomes a target or an alias entry. *)
Definition contractClosure (comments : list (list Comment)) (object_ : Object)
    (enclosing_ : option Object) (kind_ : Kind) (mu : scan) : scan :=
  foldl (λ mu group,
    foldl (λ mu comment,
      foldl (λ mu m,
        contractMatch object_ enclosing_ kind_ (c_pos comment) m mu)
      mu (c_matches comment))
    mu group)
  mu comments.

(** An annotated declaration, as [process] hands it to [contract]. *)
Record annotated := {
  a_comments : list (list Comment);
  a_object : Object;
  a_enclosing : option Object;
  a_kind : Kind
}.

(** [findContracts], for the declarations in the order the workers
    reach them: collect, then sort the alias entries (in place) and the
    targets. *)
Definition findContracts (decls : list annotated) (e : Enforcer) : Enforcer :=
  let mu := foldl (λ mu d,
              contractClosure (a_comments d) (a_object d) (a_enclosing d)
                              (a_kind d) mu)
              {| mu_aliases := ∅; mu_targets := []; mu_nextAddr := nextAddr e |}
              decls in
  {| AssertedInterfaces := AssertedInterfaces e; Contracts := Contracts e;
     Packages := Packages e; SetExitStatus := SetExitStatus e; Tests := Tests e;
     aliases := (λ s, {| array := sortTargets (array s); len := len s;
                         cap := cap s |}) <$> mu_aliases mu;
     targets := sortTargets (mu_targets mu);
     nextAddr := mu_nextAddr mu |}.

(** ** Enforcement *)

(** Modelled from the spec: [Reportf] belongs to [contextImpl], declared
    outside the sources at hand; it files a report against the located
    object, for the target being enforced. *)
Definition Reportf (tgt : target) (located : Member) (info : string) : report :=
  {| r_target := tgt; r_pos := M_Pos located; r_info := info |}.

(** The [switch tgt.kind] of [enforce]: the declaration and the objects
    the contract is to look at. [None] is the nil dereference of
    [tgt.enclosing] for an interface method that has none. *)
Definition contextOf (ssaPgm : ssaProgram) (e : Enforcer) (tgt : target)
  : option contextImpl :=
  match kind tgt with
  | KindInterface =>
      let decl := TypeMember ssaPgm (object tgt) in
      Some {| ctx_contract := contract tgt; ctx_kind := kind tgt;
              declaration := decl;
              objects := TypeMember ssaPgm <$>
                TypeImplementors ssaPgm (object tgt) (AssertedInterfaces e) |}
  | KindInterfaceMethod =>
      encl ← enclosing tgt;
      Some {| ctx_contract := contract tgt; ctx_kind := kind tgt;
              declaration := TypeMember ssaPgm encl;
              objects := MethodImplementors ssaPgm encl
                           (Obj_Name (object tgt)) (AssertedInterfaces e) |}
  | KindFunction | KindMethod =>
      Some {| ctx_contract := contract tgt; ctx_kind := kind tgt;
              declaration := FuncValue ssaPgm (object tgt); objects := [] |}
  | KindType =>
      Some {| ctx_contract := contract tgt; ctx_kind := kind tgt;
              declaration := TypeMember ssaPgm (object tgt); objects := [] |}
  end.

(** [enforce]: resolve the target into a context, run its contract, and
    turn an error of the contract into a report against the
    declaration. The reports are those the contract filed through the
    context, then the one for its error. [None] is a panic (a nil
    [enclosing] or [impl]); the error returned is always nil. *)
Definition enforce (ssaPgm : ssaProgram) (e : Enforcer) (tgt : target)
  : option (list report * option error) :=
  ctx ← contextOf ssaPgm e tgt;
  inst ← impl tgt;
  let '(filed, err) := Enforce inst ctx in
  let reports := (λ r, Reportf tgt r.1 r.2) <$> filed in
  match err with
  | Some err =>
      Some (reports ++ [Reportf tgt (declaration ctx)
                                (contract tgt +:+ ": " +:+ err)], None)
  | None => Some (reports, None)
  end.

(** What one [select] of a worker of [enforceAll] yields: a target from
    the channel, the channel closed, or the context done. *)
Inductive selected :=
| Received (tgt : target)
| Closed
| CtxDone (err : string).

(** How a worker stands after a sequence of selections. *)
Inductive workerResult :=
| WReturned (err : option error)
| WWaiting
| WPanicked.

(** The worker function handed to [g.Go] in [enforceAll], run against
    the selections it makes, in order. *)
Fixpoint worker (ssaPgm : ssaProgram) (e : Enforcer) (sel : list selected)
  : list report * workerResult :=
  match sel with
  | [] => ([], WWaiting)
  | Received tgt :: rest =>
      match enforce ssaPgm e tgt with
      | None => ([], WPanicked)
      | Some (reports, Some err) => (reports, WReturned (Some err))
      | Some (reports, None) =>
          let '(more, r) := worker ssaPgm e rest in
          (reports ++ more, r)
      end
  | Closed :: _ => ([], WReturned None)
  | CtxDone err :: _ => ([], WReturned (Some (ErrContext err)))
  end.

Definition newline : string := String (ascii_of_nat 10) EmptyString.

(** [strings.Split(s, "\n")] *)
Fixpoint splitLines (s : string) : list string :=
  match s with
  | EmptyString => [EmptyString]
  | String c rest =>
      if bool_decide (nat_of_ascii c = 10)
      then EmptyString :: splitLines rest
      else
        match splitLines rest with
        | [] => [String c EmptyString]
        | l :: ls => String c l :: ls
        end
  end.

(** The text of a [Result]: built by the reporting goroutine of
    [Execute]. *)
Definition resultMsg (r : report) : string :=
  foldl (λ sb chunk, sb +:+ newline +:+ ">> " +:+ chunk)
        ("violates contract " +:+ contract (r_target r))
        (splitLines (r_info r)).

(** [Results]: the messages by position, in arrival order. *)
Definition collect (reports : list report) : gmap nat (list string) :=
  foldl (λ ret r, <[r_pos r := default [] (ret !! r_pos r) ++ [resultMsg r]]> ret)
        ∅ reports.

Definition countReports (results : gmap nat (list string)) : nat :=
  map_fold (λ _ msgs n, length msgs + n) 0 results.

(** The [RunE] of the [enforce] command, after [e.Execute(ctx)] has
    returned [results] and [err]. *)
Definition RunE (e : Enforcer) (results : gmap nat (list string))
    (err : option error) : option error :=
  if bool_decide (err = None) && SetExitStatus e
  then Some ErrReports
  else err.

(** The exit status of [Main]: [os.Exit(1)] if the command returned an
    error, [os.Exit(0)] otherwise. *)
Definition Main (e : Enforcer) (results : gmap nat (list string))
    (err : option error) : nat :=
  match RunE e results err with
  | Some _ => 1
  | None => 0
  end.

(** ** The alias graph *)

(** [edge m c c']: the alias [c] has an entry whose contract is [c']. *)
Definition edge (m : gmap string slice) (c c' : string) : Prop :=
  ∃ a, a ∈ lookupElems m c ∧ contract a = c'.

(** The contract [c0] reaches a cycle of the alias graph: a
    self-referential alias, or aliases that refer to each other. *)
Definition reachesCycle (m : gmap string slice) (c0 : string) : Prop :=
  ∃ c, rtc (edge m) c0 c ∧ tc (edge m) c c.

(** The slices of the table lie within their backing arrays. *)
Definition wfTable (m : gmap string slice) : Prop :=
  map_Forall (λ _ s, len s ≤ length (array s)) m.

(** The (position, contract name) pairs of a list of targets. *)
Definition pairs (ts : list target) : list (nat * string) :=
  (λ t, (pos t, contract t)) <$> ts.

(** ** The state of the expansion loop *)

(** What follows describes the states [expandWork] and [expandLoop] go
    through while they expand [base] against the table [m0], whose
    entry for the contract of [base] is [s0]. *)

Definition addrs (ts : list target) : list nat := addr <$> ts.

Section Loop.

Variable base : target.
Variable m0 : gmap string slice.
Variable s0 : slice.

(** In [Shared] mode the entry for the base contract exists and holds
    the shared prefix. *)
Definition shaped (x : expansion) : Prop :=
  match x_nonTerm x with
  | Shared n => ∃ s, x_aliases x !! contract base = Some s ∧ n ≤ length (array s)
  | Private _ => True
  end.

(** The three things one iteration of the inner loop does to the
    state: [seen[alias] = true], [append(ret, &dup)] and, through
    [stepWork], [append(nonTerm, more...)]. *)
Definition markSeen (a : target) (x : expansion) : expansion :=
  {| x_aliases := x_aliases x; x_nonTerm := x_nonTerm x;
     x_seen := {[addr a]} ∪ x_seen x;
     x_term := x_term x; x_nextAddr := x_nextAddr x |}.

Definition addTerm (a : target) (x : expansion) : expansion :=
  {| x_aliases := x_aliases x; x_nonTerm := x_nonTerm x;
     x_seen := x_seen x;
     x_term := x_term x ++ [{| addr := x_nextAddr x; config := config a;
                               contract := contract a;
                               enclosing := enclosing base; kind := kind base;
                               object := object base; pos := pos base;
                               impl := impl base |}];
     x_nextAddr := S (x_nextAddr x) |}.

Definition stepWork (a : target) (x : expansion) : expansion :=
  match x_aliases x !! contract a with
  | Some more => appendNonTerm (contract base) (elems more) (markSeen a x)
  | None => addTerm a (markSeen a x)
  end.

(** All targets in play come from the table the expansion started
    with. *)
Definition within (x : expansion) (rest : list target) : Prop :=
  (∀ t, t ∈ readNonTerm (contract base) x → t ∈ tableTargets m0)
  ∧ (∀ c s t, x_aliases x !! c = Some s → t ∈ array s → t ∈ tableTargets m0)
  ∧ (∀ t, t ∈ rest → t ∈ tableTargets m0).

(** The targets of the table not yet seen. *)
Definition unseen (x : expansion) : list target :=
  filter (λ t, addr t ∉ x_seen x) (tableTargets m0).

(** Alias chains of every length up to [k] start at [c]. *)
Fixpoint deep (k : nat) (c : string) : Prop :=
  match k with
  | 0 => True
  | S k' => ∃ c', edge m0 c c' ∧ deep k' c'
  end.

(** The table during the loop: entries other than the base contract's
    are as at the start; that entry keeps its length; and each of its
    elements has been seen, or awaits in the current work, or is already
    in [nonTerm]. *)
Definition tracked (x : expansion) (rest : list target) : Prop :=
  shaped x
  ∧ (∀ c, c ≠ contract base → x_aliases x !! c = m0 !! c)
  ∧ (∃ s, x_aliases x !! contract base = Some s ∧ len s = len s0
          ∧ len s0 ≤ length (array s))
  ∧ (∀ e, e ∈ lookupElems (x_aliases x) (contract base) →
          addr e ∈ x_seen x ∨ addr e ∈ addrs rest
          ∨ e ∈ readNonTerm (contract base) x).

(** The next pass can only run to the end if [nonTerm] holds no target
    twice and none that is seen or still awaits in this pass. *)
Definition freshNext (x : expansion) (rest : list target) : Prop :=
  NoDup (addrs (readNonTerm (contract base) x))
  ∧ ∀ e, e ∈ readNonTerm (contract base) x →
      (addr e ∉ x_seen x) ∧ (addr e ∉ addrs rest).

Definition progress (k : nat) (x : expansion) (rest : list target) : Prop :=
  (∃ e, e ∈ readNonTerm (contract base) x ∧ deep k (contract e))
  ∨ ¬ freshNext x rest
  ∨ (∃ a, a ∈ rest ∧ deep (S k) (contract a)).

End Loop.

End Runtime.

(** ** What the runtime is to compute *)

Section Accounts.

Context {I : Type} `{Contract I}.

Implicit Types (base alias t : @target I) (r : @report I).

(** [dup := *base] with the contract and the configuration of [alias],
    at the address [a]. *)
Definition dup base alias (a : nat) : @target I :=
  {| addr := a; config := config alias; contract := contract alias;
     enclosing := enclosing base; kind := kind base; object := object base;
     pos := pos base; impl := impl base |}.

(** A terminal target is as it should be: the annotation but for the
    contract and the configuration, which are those of an entry of the
    table; and its contract is no alias. *)
Definition handedOut base (m0 : gmap string (@slice I)) t : Prop :=
  m0 !! contract t = None
  ∧ t = dup base t (addr t)
  ∧ ∃ a, a ∈ tableTargets m0 ∧ contract t = contract a ∧ config t = config a.

(** What holds of the state of [expand] as it gathers its targets. *)
Definition gathering base (m0 : gmap string (@slice I))
    (x : @expansion I) (ws : list (@target I)) : Prop :=
  (∀ c, is_Some (x_aliases x !! c) ↔ is_Some (m0 !! c))
  ∧ within base m0 x ws
  ∧ ∀ t, t ∈ x_term x → handedOut base m0 t.

(** What the second loop of [expandAll] makes of a target: the
    instance of its provider, with the configuration decoded into it if
    there is one. *)
Definition configured (providers : gmap string (@ContractProvider I))
    t (inst : I) : Prop :=
  ∃ provider, providers !! contract t = Some provider
    ∧ if bool_decide (config t ≠ "")
      then Decode (config t) (New provider) = inl inst
      else inst = New provider.

(** Every match of every comment of a declaration, with the position
    of its comment, in the order the [contract] closure meets them. *)
Definition annotationsIn (comments : list (list Comment))
  : list (nat * (string * string)) :=
  group ← comments;
  comment ← group;
  (λ m, (c_pos comment, m)) <$> c_matches comment.

Definition matchesOf (d : annotated) : list (nat * (string * string)) :=
  annotationsIn (a_comments d).

(** What a target says, its address apart. *)
Definition fields t
  : nat * string * string * Kind * Object * option Object :=
  (pos t, contract t, config t, kind t, object t, enclosing t).

(** What the targets made for a declaration are to say. *)
Definition scannedFields (d : annotated)
  : list (nat * string * string * Kind * Object * option Object) :=
  (λ pm, (pm.1, pm.2.1, TrimSpace pm.2.2, a_kind d, a_object d, a_enclosing d))
    <$> matchesOf d.

(** The annotations of the declarations of an alias ([Some name]) or
    of those that are none ([None]), as the targets made for them are
    to say them. *)
Definition annotationsOf (name : option string) (decls : list annotated)
  : list (nat * string * string * Kind * Object * option Object) :=
  filter (λ d, Obj_alias (a_object d) = name) decls ≫= scannedFields.

(** The slices of a table the scanner is building fill their arrays. *)
Definition tight (m : gmap string (@slice I)) : Prop :=
  map_Forall (λ _ s, len s = length (array s)) m.

(** The reports that reached the channel for one position. *)
Definition reportsAt (p : nat) (reports : list (@report I)) : list (@report I) :=
  filter (λ r, r_pos r = p) reports.

End Accounts.

End Rt.

(* ================================================================== *)
(** * Programs for the analysis *)
(* ================================================================== *)

Module RetlintExamples.
Import Retlint.

(** The types of [testdata]: [error] is the target, [GoodValError] and
    [GoodPtrError] are allowed, [BadError] is not. *)
Definition tError : Ty := Named "error".
Definition tGoodVal : Ty := Named "testdata.GoodValError".
Definition tGoodPtr : Ty := Named "testdata.GoodPtrError".
Definition tBad : Ty := Named "testdata.BadError".

Definition universe : gmap string Ty :=
  {[ "error" := tError; "int" := OtherType "int"; "bool" := OtherType "bool" ]}.

Definition testdata (members : list Member) : Package :=
  {| Path := "testdata";
     Types := {[ "GoodValError" := tGoodVal; "GoodPtrError" := tGoodPtr;
                 "BadError" := tBad ]};
     Members := members |}.

(** A program of one input package, [testdata], whose members are the
    given functions. *)
Definition program (vs : list Value) (fs : list Function) : Program :=
  let pkg := testdata (MFunction <$> seq 0 (length fs)) in
  {| values := vs; functions := fs; Universe := universe;
     AllPackages := [pkg]; inputPackages := [pkg]; loadError := None |}.

(** A function of [testdata] with the one result [error]. *)
Definition func (name : string) (blocks : list (list Instr)) : Function :=
  {| Name := name; RelString := name; Pkg := Some "testdata";
     SigResults := Some [tError]; Blocks := blocks |}.

Definition allowedNames : list string :=
  ["testdata/GoodValError"; "testdata/GoodPtrError"].

(** The linter as the test of [testdata] configures it. *)
Definition linter : RetLint := configure "error" allowedNames.

(** [[
func Helper() error { return &BadError{} }

func LongFirst() error {
	if choose() == 0 {
		return Helper()
	}
	return &BadError{}
}
]] *)
Definition Helper : Fn := 0.
Definition LongFirst : Fn := 1.
Definition longFirst : Program :=
  program
    [ Other "new BadError" (Pointer tBad);      (* 0 *)
      MakeInterface 0 tError;                    (* 1 *)
      Call (Some Helper) tError;                 (* 2 *)
      Other "new BadError" (Pointer tBad);      (* 3 *)
      MakeInterface 3 tError ]                   (* 4 *)
    [ func "Helper" [[OtherInstr; Return [1]]];
      func "LongFirst" [[OtherInstr]; [OtherInstr; Return [2]];
                        [OtherInstr; Return [4]]] ].

(** [[
func Recv(ch chan error) error { return <-ch }
]] *)
Definition Recv : Fn := 0.
Definition recv : Program :=
  program
    [ Other "parameter ch" (OtherType "chan error");   (* 0 *)
      UnOp ARROW 0 false tError ]                       (* 1 *)
    [ func "Recv" [[Return [1]]] ].

(** [[
func Get(m map[string]error) error {
	v, _ := m["k"]
	return v
}
]] *)
Definition Get : Fn := 0.
Definition lookup : Program :=
  program
    [ Other "parameter m" (OtherType "map[string]error");      (* 0 *)
      Other "m[k],ok" (Tuple [tError; OtherType "bool"]);      (* 1 *)
      Extract 1 0 tError ]                                      (* 2 *)
    [ func "Get" [[OtherInstr; OtherInstr; Return [2]]] ].

(** [[
func Indirect(fn func() error) error { return fn() }
]] *)
Definition Indirect : Fn := 0.
Definition indirect : Program :=
  program
    [ Other "parameter fn" (OtherType "func() error");   (* 0 *)
      Call None tError ]                                  (* 1 *)
    [ func "Indirect" [[Return [1]]] ].

(** [DirectGood], [PhiGood] and [ReturnNilGood] of [testdata]:
[[
func DirectGood() error {
	switch choose() {
	case 0:
		return GoodValError{}
	case 1:
		return &GoodPtrError{}
	default:
		panic("fake code")
	}
}

func PhiGood() error {
	var ret error
	switch choose() {
	case 0:
		ret = GoodValError{}
	case 1:
		ret = &GoodPtrError{}
	case 2:
		ret = DirectGood()
	default:
		panic("fake code")
	}
	return ret
}

func ReturnNilGood() error { return nil }
]] *)
Definition DirectGood : Fn := 0.
Definition PhiGood : Fn := 1.
Definition ReturnNilGood : Fn := 2.
Definition good : Program :=
  program
    [ Other "local GoodValError" (Pointer tGoodVal);   (* 0 *)
      UnOp MUL 0 false tGoodVal;                        (* 1 *)
      MakeInterface 1 tError;                           (* 2 *)
      Other "new GoodPtrError" (Pointer tGoodPtr);     (* 3 *)
      MakeInterface 3 tError;                           (* 4 *)
      Other "local GoodValError" (Pointer tGoodVal);   (* 5 *)
      UnOp MUL 5 false tGoodVal;                        (* 6 *)
      MakeInterface 6 tError;                           (* 7 *)
      Other "new GoodPtrError" (Pointer tGoodPtr);     (* 8 *)
      MakeInterface 8 tError;                           (* 9 *)
      Call (Some DirectGood) tError;                    (* 10 *)
      Phi [7; 9; 10] tError;                            (* 11 *)
      Const true tError ]                               (* 12 *)
    [ func "DirectGood" [[OtherInstr]; [OtherInstr; Return [2]];
                         [OtherInstr; Return [4]]; [OtherInstr]];
      func "PhiGood" [[OtherInstr]; [OtherInstr]; [OtherInstr]; [OtherInstr];
                      [OtherInstr]; [Return [11]]];
      func "ReturnNilGood" [[Return [12]]] ].

Definition goodFns : gset Fn := {[ DirectGood; PhiGood; ReturnNilGood ]}.
Definition goodVals : gset Val := list_to_set (seq 0 13).

(** The analysis of [longFirst] at the moment [decide] has met the
    [*BadError] that [Helper] returns: the record of [Helper] (at 1) is
    being analysed, and that of [LongFirst] (at 2) waits on it through
    its call. *)
Definition waiting : RetLint :=
  set_store
    [ clean;
      {| dirties := {[ 2 := 2 ]}; fn := Some Helper; returns := [[1]];
         fstate := stateAnalyzing; targetIndexes := [0]; why := [] |};
      {| dirties := ∅; fn := Some LongFirst; returns := [[2]; [4]];
         fstate := stateAnalyzing; targetIndexes := [0]; why := [] |} ]
    [] linter.

End RetlintExamples.

(* ================================================================== *)
(** * Linters for the runtime *)
(* ================================================================== *)

Module RtExamples.
Import Rt.

(** A contract in the manner of the [recorder] of the runtime's test:
    it reports "here" against the declaration, and fails with the text
    it was configured with, if any. *)
Record recorder := { Expected : string }.

#[global] Instance recorderContract : Contract recorder := {|
  Enforce := λ r ctx,
    ([(declaration ctx, "here")],
     if bool_decide (Expected r = "") then None else Some (Expected r));
  Decode := λ cfg _, inl {| Expected := cfg |}
|}.

Definition newRecorder : ContractProvider :=
  {| New := {| Expected := "" |}; Help := "" |}.

(** The generated linter, before it has scanned anything. *)
Definition linter : Enforcer :=
  {| AssertedInterfaces := false;
     Contracts := {[ "CanGoHere" := newRecorder; "MustReturnInt" := newRecorder ]};
     Packages := ["./demo"]; SetExitStatus := false; Tests := false;
     aliases := ∅; targets := []; nextAddr := 0 |}.

Definition comment (p : nat) (name cfg : string) : list Comment :=
  [{| c_pos := p; c_matches := [(name, cfg)] |}].

(** [type name ext.Contract], with the comments above it. *)
Definition aliasDecl (name : string) (p : nat) (comments : list Comment)
  : annotated :=
  {| a_comments := [comments];
     a_object := {| Obj_Name := name; Obj_Pos := p; Obj_alias := Some name |};
     a_enclosing := None; a_kind := KindType |}.

(** [func name()], with the comments above it. *)
Definition funcDecl (name : string) (p : nat) (comments : list Comment)
  : annotated :=
  {| a_comments := [comments];
     a_object := {| Obj_Name := name; Obj_Pos := p; Obj_alias := None |};
     a_enclosing := None; a_kind := KindFunction |}.

(** [[
//contract:Pong
type Ping ext.Contract

//contract:Ping
type Pong ext.Contract

//contract:Ping
func Play() {}
]] *)
Definition pingPong : Enforcer :=
  findContracts
    [ aliasDecl "Ping" 10 (comment 9 "Pong" "");
      aliasDecl "Pong" 20 (comment 19 "Ping" "");
      funcDecl "Play" 30 (comment 29 "Ping" "") ]
    linter.

(** [[
//contract:MustReturnInt { 1 }
//contract:MustReturnInt { 2 }
type Twice ext.Contract

//contract:Twice
func HasAlias() {}
]] *)
Definition twice : Enforcer :=
  findContracts
    [ aliasDecl "Twice" 12
        (comment 10 "MustReturnInt" " { 1 } " ++ comment 11 "MustReturnInt" " { 2 } ");
      funcDecl "HasAlias" 30 (comment 29 "Twice" "") ]
    linter.

(** [[
//contract:CanGoHere
//contract:MustReturnInt expected an int
func ReturnOne() {}
]] *)
Definition plain : Enforcer :=
  findContracts
    [ funcDecl "ReturnOne" 40
        (comment 38 "CanGoHere" "" ++ comment 39 "MustReturnInt" "expected an int") ]
    linter.

(** An SSA program that knows every object by its name and position. *)
Definition demo : ssaProgram :=
  {| TypeMember := λ o, {| M_Name := Obj_Name o; M_Pos := Obj_Pos o |};
     FuncValue := λ o, {| M_Name := Obj_Name o; M_Pos := Obj_Pos o |};
     TypeImplementors := λ _ _, [];
     MethodImplementors := λ _ _ _, [] |}.

(** The target of [plain] whose contract fails, once configured. *)
Definition failing : target :=
  {| addr := 1; config := "expected an int"; contract := "MustReturnInt";
     enclosing := None; kind := KindFunction;
     object := {| Obj_Name := "ReturnOne"; Obj_Pos := 40; Obj_alias := None |};
     pos := 39; impl := Some {| Expected := "expected an int" |} |}.

(** The target scanned for [Play] in [pingPong]. *)
Definition play : @target recorder :=
  {| addr := 2; config := ""; contract := "Ping"; enclosing := None;
     kind := KindFunction;
     object := {| Obj_Name := "Play"; Obj_Pos := 30; Obj_alias := None |};
     pos := 29; impl := None |}.

(** The target scanned for [HasAlias] in [twice]. *)
Definition hasAlias : @target recorder :=
  {| addr := 2; config := ""; contract := "Twice"; enclosing := None;
     kind := KindFunction;
     object := {| Obj_Name := "HasAlias"; Obj_Pos := 30; Obj_alias := None |};
     pos := 29; impl := None |}.

(** [[
//contract:CanGoHere
//contract:MustReturnInts
func ReturnOne() {}
]]
    The second contract is not one of the linter's. *)
Definition misspelt : Enforcer :=
  findContracts
    [ funcDecl "ReturnOne" 40
        (comment 38 "CanGoHere" "" ++ comment 39 "MustReturnInts" "") ]
    linter.

End RtExamples.

(* ================================================================== *)
(** * Facts about the enforcement runtime *)
(* ================================================================== *)

Set Warnings "-clear-no-such-hyp".

Module RtFacts.
Import Rt.

Section Expand.

Context {I : Type} `{Contract I}.

Implicit Types (x : @expansion I) (more ws rest : list (@target I))
  (a t : @target I) (s : @slice I) (m : gmap string (@slice I)).

Variable base : @target I.
Local Abbreviation c0 := (contract base).
Local Abbreviation shaped := (Rt.shaped base).
Local Abbreviation addTerm := (Rt.addTerm base).
Local Abbreviation stepWork := (Rt.stepWork base).

Lemma in_take {A} (x : A) n (l : list A) : x ∈ take n l → x ∈ l.
Proof. apply subseteq_take. Qed.

Lemma in_drop {A} (x : A) n (l : list A) : x ∈ drop n l → x ∈ l.
Proof. apply subseteq_drop. Qed.

(** *** Reading and appending to [nonTerm] *)

Lemma readNonTerm_append x more :
  shaped x →
  readNonTerm c0 (appendNonTerm c0 more x) = readNonTerm c0 x ++ more.
Proof.
  unfold Rt.shaped, readNonTerm, appendNonTerm.
  destruct (x_nonTerm x) as [n|xs]; simpl; [|done].
  intros (s & Hs & Hn). rewrite Hs.
  case_bool_decide; simpl; [|done].
  rewrite lookup_insert_eq. simpl.
  rewrite take_app_ge; rewrite length_take, Nat.min_l by lia; [|lia].
  f_equal. replace (n + length more - n) with (length more) by lia.
  rewrite take_app_ge by lia.
  replace (length more - length more) with 0 by lia.
  by rewrite take_0, app_nil_r.
Qed.

Lemma shaped_append x more : shaped x → shaped (appendNonTerm c0 more x).
Proof.
  unfold Rt.shaped, appendNonTerm.
  destruct (x_nonTerm x) as [n|xs]; simpl; [|done].
  intros (s & Hs & Hn). rewrite Hs.
  case_bool_decide; simpl; [|done].
  rewrite lookup_insert_eq. eexists; split; [done|]. simpl.
  rewrite !length_app, length_take. lia.
Qed.

Lemma seen_append x more : x_seen (appendNonTerm c0 more x) = x_seen x.
Proof.
  unfold appendNonTerm. destruct (x_nonTerm x); [|done].
  destruct (x_aliases x !! c0); [|done]. by case_bool_decide.
Qed.

Lemma aliases_append_ne x more c :
  c ≠ c0 → x_aliases (appendNonTerm c0 more x) !! c = x_aliases x !! c.
Proof.
  intros Hc. unfold appendNonTerm. destruct (x_nonTerm x); [|done].
  destruct (x_aliases x !! c0) eqn:E; [|done].
  case_bool_decide; [|done]. simpl. by rewrite lookup_insert_ne.
Qed.

(** *** One step of the work loop *)

Lemma expandWork_cons a rest x :
  expandWork base (a :: rest) x =
    if bool_decide (addr a ∈ x_seen x)
    then (x, Some (ErrRecursive (pos base) (contract a)))
    else expandWork base rest (stepWork a x).
Proof.
  simpl. case_bool_decide; [done|]. unfold Rt.stepWork, markSeen, Rt.addTerm. simpl.
  by destruct (x_aliases x !! contract a).
Qed.

Lemma seen_stepWork a x : x_seen (stepWork a x) = {[addr a]} ∪ x_seen x.
Proof.
  unfold Rt.stepWork. destruct (x_aliases x !! contract a); [|done].
  by rewrite seen_append.
Qed.

(** An invariant of the steps is an invariant of the loop body, whether
    it runs to the end of the work or stops at a target seen before. *)
Lemma expandWork_inv (P : @expansion I → list (@target I) → Prop) :
  (∀ a rest x, P x (a :: rest) → addr a ∉ x_seen x → P (stepWork a x) rest) →
  ∀ ws x x' o, P x ws → expandWork base ws x = (x', o) →
    match o with
    | None => P x' []
    | Some err => ∃ a rest, P x' (a :: rest) ∧ a ∈ ws ∧ addr a ∈ x_seen x'
                            ∧ err = ErrRecursive (pos base) (contract a)
    end.
Proof.
  intros Hstep ws. induction ws as [|a rest IH]; intros x x' o HP Hrun.
  - simpl in Hrun. by simplify_eq.
  - rewrite expandWork_cons in Hrun. case_bool_decide as Hseen.
    + simplify_eq. exists a, rest. set_solver.
    + specialize (IH _ _ _ (Hstep _ _ _ HP Hseen) Hrun).
      destruct o; [|done].
      destruct IH as (a' & rest' & ? & ? & ? & ?). exists a', rest'. set_solver.
Qed.

(** A pass that runs to the end has met only targets it had not seen,
    each once, and has marked them all. *)
Lemma expandWork_fresh ws x x' :
  expandWork base ws x = (x', None) →
  NoDup (addrs ws) ∧ (∀ a, a ∈ ws → addr a ∉ x_seen x)
  ∧ x_seen x' = list_to_set (addrs ws) ∪ x_seen x.
Proof.
  revert x. induction ws as [|a rest IH]; intros x Hrun.
  - simpl in Hrun. simplify_eq. split; [constructor|]. set_solver.
  - rewrite expandWork_cons in Hrun. case_bool_decide as Hseen; [done|].
    destruct (IH _ Hrun) as (Hnd & Hfresh & Hs). rewrite seen_stepWork in *.
    split; [|split].
    + simpl. constructor; [|done]. intros Hin.
      apply list_elem_of_fmap in Hin as (b & Hb & Hin).
      apply (Hfresh _ Hin). set_solver.
    + intros b Hb. apply elem_of_cons in Hb as [->|Hb]; [done|].
      specialize (Hfresh _ Hb). set_solver.
    + rewrite Hs. simpl. set_solver.
Qed.

(** *** Termination: every pass marks targets of the table *)

Variable m0 : gmap string (@slice I).

Local Abbreviation within := (Rt.within base m0).
Local Abbreviation unseen := (Rt.unseen m0).
Local Abbreviation deep := (Rt.deep m0).

Lemma tableTargets_elem m c s t :
  m !! c = Some s → t ∈ array s → t ∈ tableTargets m.
Proof.
  intros Hc Ht. unfold tableTargets. apply list_elem_of_bind.
  exists (c, s). split; [done|]. by apply elem_of_map_to_list.
Qed.

Lemma elems_array s t : t ∈ elems s → t ∈ array s.
Proof. unfold elems. intros Ht. by eapply in_take. Qed.

Lemma within_append x more rest :
  (∀ t, t ∈ more → t ∈ tableTargets m0) →
  within x rest → within (appendNonTerm c0 more x) rest.
Proof.
  intros Hmore (Hnt & Harr & Hrest). unfold Rt.within, readNonTerm, appendNonTerm in *.
  destruct x as [al [n|xs] sn tm na]; simpl in *.
  - destruct (al !! c0) as [s|] eqn:Hs; simpl; [|by rewrite Hs].
    case_bool_decide; simpl.
    + rewrite lookup_insert_eq. simpl.
      assert (∀ t, t ∈ take n (array s) ++ more ++ drop (n + length more) (array s)
                   → t ∈ tableTargets m0) as Hnew.
      { intros t Ht. rewrite !elem_of_app in Ht. destruct Ht as [Ht|[Ht|Ht]].
        - eapply Harr; [done|]. by eapply in_take.
        - by apply Hmore.
        - eapply Harr; [done|]. by eapply in_drop. }
      split; [|split; [|done]].
      * intros t Ht. apply Hnew. by eapply in_take.
      * intros c s' t Hc Ht. destruct (decide (c = c0)) as [->|Hne].
        -- rewrite lookup_insert_eq in Hc. simplify_eq. simpl in Ht. by apply Hnew.
        -- rewrite lookup_insert_ne in Hc by done. by eapply Harr.
    + split; [|done]. intros t Ht. rewrite elem_of_app in Ht.
      destruct Ht as [Ht|Ht]; [|by apply Hmore].
      eapply Harr; [done|]. by eapply in_take.
  - split; [|done]. intros t Ht. rewrite elem_of_app in Ht.
    destruct Ht as [Ht|Ht]; [by apply Hnt | by apply Hmore].
Qed.

Lemma within_step a rest x :
  within x (a :: rest) → addr a ∉ x_seen x → within (stepWork a x) rest.
Proof.
  intros (Hnt & Harr & Hrest) _. unfold Rt.stepWork.
  assert (within (markSeen a x) rest) as Hw.
  { split; [done|]. split; [done|]. intros t Ht. apply Hrest. set_solver. }
  destruct (x_aliases x !! contract a) as [more|] eqn:Hm; [|done].
  apply within_append; [|done].
  intros t Ht. eapply Harr; [done|]. by apply elems_array.
Qed.

Lemma within_reset x :
  within x [] → within (resetNonTerm x) (readNonTerm c0 x).
Proof.
  intros (Hnt & Harr & _). split; [|done].
  intros t. unfold readNonTerm, resetNonTerm. simpl.
  destruct (x_nonTerm x); simpl; [|set_solver].
  destruct (x_aliases x !! c0); rewrite ?take_0; set_solver.
Qed.

Lemma within_nil x a rest : within x (a :: rest) → within x [].
Proof. intros (? & ? & ?). split; [done|]. split; [done|]. set_solver. Qed.

Lemma unseen_shrinks x x' a :
  x_seen x ⊆ x_seen x' → a ∈ tableTargets m0 →
  addr a ∉ x_seen x → addr a ∈ x_seen x' →
  length (unseen x') < length (unseen x).
Proof.
  unfold Rt.unseen. intros Hsub Ha Hn Hy.
  induction (tableTargets m0) as [|t l IH]; [by apply elem_of_nil in Ha|].
  rewrite !filter_cons.
  assert (length (filter (λ t, addr t ∉ x_seen x') l)
          ≤ length (filter (λ t, addr t ∉ x_seen x) l)) as Hle.
  { clear -Hsub. induction l as [|t' l IH]; [done|]. rewrite !filter_cons.
    repeat case_decide; simpl; try lia. set_solver. }
  apply elem_of_cons in Ha as [<-|Ha].
  - repeat case_decide; simpl; try lia; done.
  - specialize (IH Ha). repeat case_decide; simpl; try lia. set_solver.
Qed.

Lemma expandLoop_S fuel x :
  expandLoop (S fuel) base x =
    match readNonTerm c0 x with
    | [] => Some (x, None)
    | work =>
        match expandWork base work (resetNonTerm x) with
        | (x', None) => expandLoop fuel base x'
        | (x', Some err) => Some (x', Some err)
        end
    end.
Proof. done. Qed.

Lemma expandLoop_total fuel x :
  within x [] → length (unseen x) < fuel →
  is_Some (expandLoop fuel base x).
Proof.
  revert x. induction fuel as [|fuel IH]; intros x Hw Hlt; [lia|].
  rewrite expandLoop_S. destruct (readNonTerm c0 x) as [|a ws] eqn:Hread; [done|].
  destruct (expandWork base (a :: ws) (resetNonTerm x)) as [x' [err|]] eqn:Hrun;
    [done|].
  pose proof (within_reset _ Hw) as Hw'. rewrite Hread in Hw'.
  pose proof (expandWork_inv within within_step _ _ _ _ Hw' Hrun) as Hw''.
  simpl in Hw''.
  apply expandWork_fresh in Hrun as (_ & Hfresh & Hseen).
  apply IH; [done|].
  assert (length (unseen x') < length (unseen x)); [|lia].
  apply (unseen_shrinks x x' a).
  - rewrite Hseen. unfold resetNonTerm. simpl. set_solver.
  - destruct Hw' as (_ & _ & Hr). apply Hr. set_solver.
  - specialize (Hfresh a). unfold resetNonTerm in Hfresh. simpl in Hfresh.
    apply Hfresh. set_solver.
  - rewrite Hseen. simpl. set_solver.
Qed.

(** The error of the loop names a target of the table that had been
    seen before. *)
Lemma expandLoop_error fuel x x' err :
  within x [] → expandLoop fuel base x = Some (x', Some err) →
  ∃ a, a ∈ tableTargets m0 ∧ addr a ∈ x_seen x'
       ∧ err = ErrRecursive (pos base) (contract a).
Proof.
  revert x. induction fuel as [|fuel IH]; intros x Hw Hrun; [done|].
  rewrite expandLoop_S in Hrun.
  destruct (readNonTerm c0 x) as [|a ws] eqn:Hread; [done|].
  destruct (expandWork base (a :: ws) (resetNonTerm x)) as [x1 [e1|]] eqn:Hwork.
  - simplify_eq.
    pose proof (within_reset _ Hw) as Hw'. rewrite Hread in Hw'.
    pose proof (expandWork_inv within within_step _ _ _ _ Hw' Hwork) as Hw''.
    simpl in Hw''. destruct Hw'' as (b & rest & _ & Hb & Hsb & ->).
    exists b. split; [|done]. destruct Hw' as (_ & _ & Hr). by apply Hr.
  - pose proof (within_reset _ Hw) as Hw'. rewrite Hread in Hw'.
    pose proof (expandWork_inv within within_step _ _ _ _ Hw' Hwork) as Hw''.
    simpl in Hw''. by apply (IH x1).
Qed.

(** *** Cycles: the loop cannot run to the end *)

Lemma deep_mono k c : deep (S k) c → deep k c.
Proof.
  revert c. induction k as [|k IH]; intros c; [done|].
  intros (c' & He & Hd). exists c'. split; [done|]. by apply IH.
Qed.

Lemma deep_rtc k c d : rtc (edge m0) c d → deep k d → deep k c.
Proof.
  induction 1 as [|c c' d He _ IH]; [done|].
  intros Hd. apply deep_mono. exists c'. split; [done|]. by apply IH.
Qed.

Lemma deep_cycle k c : tc (edge m0) c c → deep k c.
Proof.
  intros Hc. induction k as [|k IH]; [done|].
  assert (∃ c', edge m0 c c' ∧ rtc (edge m0) c' c) as (c' & He & Hr).
  { inversion Hc as [? ? He|? c' ? He Ht]; simplify_eq.
    - by exists c.
    - exists c'. split; [done|]. by apply tc_rtc. }
  exists c'. split; [done|]. by eapply deep_rtc.
Qed.

Lemma reachesCycle_deep k : reachesCycle m0 c0 → deep k c0.
Proof.
  intros (c & Hr & Hc). eapply deep_rtc; [done|]. by apply deep_cycle.
Qed.

Variable s0 : @slice I.
Hypothesis Hs0 : m0 !! c0 = Some s0.

Local Abbreviation tracked := (Rt.tracked base m0 s0).
Local Abbreviation freshNext := (Rt.freshNext base).
Local Abbreviation progress := (Rt.progress base m0).

Lemma elems_overwrite s n more e :
  n ≤ length (array s) →
  e ∈ take (len s) (take n (array s) ++ more ++ drop (n + length more) (array s)) →
  e ∈ elems s ∨ e ∈ more.
Proof.
  intros Hn He. apply elem_of_take in He as (i & Hi & Hlt).
  unfold elems. rewrite elem_of_take.
  apply lookup_app_Some in Hi as [Hi|[Hge Hi]].
  - apply lookup_take_Some in Hi as [Hi _]. left. by exists i.
  - rewrite length_take, Nat.min_l in Hge, Hi by lia.
    apply lookup_app_Some in Hi as [Hi|[Hge' Hi]].
    + right. by eapply list_elem_of_lookup_2.
    + rewrite lookup_drop in Hi. left. exists i. split; [|done].
      rewrite <- Hi. f_equal. lia.
Qed.

Lemma tracked_append rest x more :
  tracked x rest → tracked (appendNonTerm c0 more x) rest.
Proof.
  intros (Hsh & Hne & (s & Hs & Hlen & Hle) & HJ).
  pose proof (readNonTerm_append x more Hsh) as Hread.
  split; [by apply shaped_append|].
  split; [intros c Hc; rewrite aliases_append_ne by done; by apply Hne|].
  unfold lookupElems in *. rewrite seen_append, Hread. rewrite Hs in HJ.
  unfold appendNonTerm, Rt.shaped in *.
  destruct x as [al [n|xs] sn tm na]; simpl in *.
  - destruct Hsh as (s' & Hs' & Hn). rewrite Hs in Hs'. simplify_eq.
    rewrite Hs. case_bool_decide; simpl.
    + rewrite lookup_insert_eq. split.
      * eexists. split; [done|]. simpl. split; [done|].
        rewrite !length_app, length_take, length_drop. lia.
      * intros e He. simpl in He. unfold elems in He. simpl in He.
        rewrite Hlen in He. rewrite <- Hlen in He.
        apply elems_overwrite in He as [He|He]; [|set_solver|done].
        destruct (HJ e He) as [?|[?|?]]; set_solver.
    + rewrite Hs. split; [eauto|].
      intros e He. destruct (HJ e He) as [?|[?|?]]; set_solver.
  - rewrite Hs. split; [eauto|].
    intros e He. destruct (HJ e He) as [?|[?|?]]; set_solver.
Qed.

Lemma tracked_markSeen a rest x :
  tracked x (a :: rest) → tracked (markSeen a x) rest.
Proof.
  intros (Hsh & Hne & Hs & HJ). split; [done|]. split; [done|]. split; [done|].
  intros e He. destruct (HJ e He) as [?|[Hin|?]]; simpl; [set_solver| |by auto].
  simpl in Hin. set_solver.
Qed.

Lemma tracked_step a rest x :
  tracked x (a :: rest) → tracked (stepWork a x) rest.
Proof.
  intros Ht. apply tracked_markSeen in Ht. unfold Rt.stepWork.
  destruct (x_aliases x !! contract a); [by apply tracked_append|done].
Qed.

Lemma readNonTerm_step a x :
  shaped x → ∃ more, readNonTerm c0 (stepWork a x) = readNonTerm c0 x ++ more
    ∧ ∀ s, x_aliases x !! contract a = Some s → more = elems s.
Proof.
  intros Hsh. unfold Rt.stepWork.
  destruct (x_aliases x !! contract a) as [s|] eqn:Hs.
  - exists (elems s). split; [|by intros ? [= ->]].
    by rewrite (readNonTerm_append (markSeen a x)).
  - exists []. by rewrite app_nil_r.
Qed.

Lemma freshNext_step a rest x more :
  readNonTerm c0 (stepWork a x) = readNonTerm c0 x ++ more →
  freshNext (stepWork a x) rest → freshNext x (a :: rest).
Proof.
  intros Hread (Hnd & Hfr). rewrite Hread in Hnd, Hfr.
  rewrite seen_stepWork in Hfr. unfold addrs in *. rewrite fmap_app in Hnd.
  apply NoDup_app in Hnd as (Hnd & _ & _). split; [done|].
  intros e He. destruct (Hfr e) as [Hs Hr]; [set_solver|].
  split; [set_solver|]. simpl. set_solver.
Qed.

Lemma progress_step k a rest x :
  tracked x (a :: rest) → progress k x (a :: rest) → addr a ∉ x_seen x →
  progress k (stepWork a x) rest.
Proof.
  intros Ht Hp Hseen. pose proof Ht as (Hsh & Hne & (s & Hs & Hlen & Hle) & HJ).
  destruct (readNonTerm_step a x Hsh) as (more & Hread & Hmore).
  destruct Hp as [(e & He & Hd)|[Hnf|(b & Hb & Hd)]].
  - left. exists e. rewrite Hread. set_solver.
  - right; left. intros Hf. apply Hnf. by eapply freshNext_step.
  - apply elem_of_cons in Hb as [->|Hb]; [|right; right; by exists b].
    destruct Hd as (c' & (e & He & <-) & Hd). unfold lookupElems in He.
    destruct (decide (contract a = c0)) as [Heq|Hneq].
    + (* the base contract comes up again: its entry is appended whole *)
      right; left. rewrite Heq, Hs0 in He.
      assert (∃ e1, e1 ∈ elems s) as [e1 He1].
      { unfold elems in *. destruct (array s0) as [|? ?] eqn:?;
          [rewrite take_nil in He; by apply elem_of_nil in He|].
        destruct (len s0) as [|n0] eqn:Hn0;
          [rewrite take_0 in He; by apply elem_of_nil in He|].
        rewrite Hlen. destruct (array s) as [|t1 ?]; [simpl in Hle; lia|].
        exists t1. simpl. set_solver. }
      rewrite Heq in Hmore. specialize (Hmore _ Hs). subst more.
      intros (Hnd & Hfr). rewrite Hread in Hnd, Hfr. rewrite seen_stepWork in Hfr.
      unfold lookupElems in HJ. rewrite Hs in HJ.
      destruct (Hfr e1) as [Hn1 Hn2]; [set_solver|].
      destruct (HJ e1 He1) as [?|[Hin|Hin]]; [set_solver| |].
      * simpl in Hin. set_solver.
      * unfold addrs in Hnd. rewrite fmap_app in Hnd.
        apply NoDup_app in Hnd as (_ & Hdis & _).
        apply (Hdis (addr e1)); apply list_elem_of_fmap; by exists e1.
    + left. exists e. split; [|done]. rewrite Hread.
      rewrite <- (Hne _ Hneq) in He.
      destruct (x_aliases x !! contract a) as [sa|] eqn:Hsa;
        [|by apply elem_of_nil in He].
      rewrite (Hmore sa eq_refl). set_solver.
Qed.

Lemma tracked_reset x :
  tracked x [] → tracked (resetNonTerm x) (readNonTerm c0 x).
Proof.
  intros (Hsh & Hne & (s & Hs & Hlen & Hle) & HJ).
  split; [|split; [done|split; [by eauto|]]].
  - unfold Rt.shaped, resetNonTerm. simpl. destruct (x_nonTerm x); [|done].
    exists s. split; [done|lia].
  - intros e He. destruct (HJ e He) as [?|[Hin|Hin]]; [by left| |].
    + simpl in Hin. by apply elem_of_nil in Hin.
    + right; left. apply list_elem_of_fmap. by exists e.
Qed.

(** With a chain of [k] aliases ahead, or a target due twice, [fuel ≤ k]
    passes cannot bring the loop to its end. *)
Lemma expandLoop_cycle fuel k x x' :
  fuel ≤ k → tracked x [] →
  ¬ freshNext x [] ∨ (∃ a, a ∈ readNonTerm c0 x ∧ deep k (contract a)) →
  expandLoop fuel base x ≠ Some (x', None).
Proof.
  revert k x. induction fuel as [|fuel IH]; intros k x Hk Ht Hp; [done|].
  rewrite expandLoop_S.
  destruct (readNonTerm c0 x) as [|a ws] eqn:Hread.
  { exfalso. destruct Hp as [Hp|(a & Ha & _)]; [|by apply elem_of_nil in Ha].
    apply Hp. split; rewrite Hread; [constructor|]. intros e He.
    by apply elem_of_nil in He. }
  destruct (expandWork base (a :: ws) (resetNonTerm x)) as [x1 [e1|]] eqn:Hrun;
    [done|].
  destruct k as [|k]; [lia|].
  pose proof (expandWork_fresh _ _ _ Hrun) as (Hnd & Hfr & _).
  destruct Hp as [Hp|(b & Hb & Hd)].
  { exfalso. apply Hp. split; rewrite Hread; [done|]. intros e He.
    split; [by apply Hfr|]. simpl. apply not_elem_of_nil. }
  pose proof (tracked_reset _ Ht) as Ht'. rewrite Hread in Ht'.
  assert (progress k (resetNonTerm x) (a :: ws)) as Hp'.
  { right; right. by exists b. }
  pose proof (expandWork_inv (λ x rest, tracked x rest ∧ progress k x rest)) as Hinv.
  specialize (Hinv (λ a rest x '(conj Ht Hp) Hs,
                      conj (tracked_step a rest x Ht) (progress_step k a rest x Ht Hp Hs))).
  specialize (Hinv _ _ _ _ (conj Ht' Hp') Hrun). simpl in Hinv.
  destruct Hinv as [Ht1 Hp1].
  apply (IH k); [lia|done|].
  destruct Hp1 as [(e & He & Hde)|[Hnf|(? & Hn & _)]];
    [right; by exists e|by left|by apply elem_of_nil in Hn].
Qed.

End Expand.

Section ExpandTop.

Context {I : Type} `{Contract I}.

Lemma expand_total (e : @Enforcer I) (base : @target I) :
  is_Some (expand e base).
Proof.
  unfold expand. destruct (aliases e !! contract base) as [s0|] eqn:Hs0; [|done].
  match goal with |- context [expandLoop ?f _ ?x] =>
    destruct (expandLoop_total base (aliases e) f x) as [[x' err] Hrun] end.
  - split; [|split; [|by intros ? ?%elem_of_nil]].
    + intros t Ht. unfold readNonTerm in Ht. simpl in Ht. rewrite Hs0 in Ht.
      eapply tableTargets_elem; [done|]. by eapply in_take.
    + intros c s t Hc Ht. by eapply tableTargets_elem.
  - unfold unseen. simpl.
    match goal with |- length (filter ?P ?l) < _ =>
      pose proof (length_filter P l) end. lia.
  - rewrite Hrun. simpl. by destruct err.
Qed.

Lemma expand_cycle (e : @Enforcer I) (base : @target I) :
  wfTable (aliases e) → reachesCycle (aliases e) (contract base) →
  ∃ alias x',
    alias ∈ tableTargets (aliases e)
    ∧ addr alias ∈ x_seen x'
    ∧ expand e base =
        Some ([], Some (ErrRecursive (pos base) (contract alias)),
              set_nextAddr (x_nextAddr x') (set_aliases (x_aliases x') e)).
Proof.
  intros Hwf Hcyc.
  pose proof (reachesCycle_deep base (aliases e)) as Hdeep.
  destruct (Hdeep 1 Hcyc) as (c' & (a0 & Ha0 & _) & _).
  unfold lookupElems in Ha0.
  destruct (aliases e !! contract base) as [s0|] eqn:Hs0;
    [|by apply elem_of_nil in Ha0].
  destruct (expand_total e base) as [r Hr]. 
  unfold expand in *. rewrite Hs0 in *.
  set (fuel := S (length (tableTargets (aliases e)))) in *.
  set (x0 := {| x_aliases := aliases e; x_nonTerm := Shared (len s0);
                x_seen := {[addr base]}; x_term := [];
                x_nextAddr := nextAddr e |}) in *.
  destruct (expandLoop fuel base x0) as [[x' err]|] eqn:Hrun; [|done].
  assert (within base (aliases e) x0 []) as Hw.
  { split; [|split; [|by intros ? ?%elem_of_nil]].
    + intros t Ht. unfold readNonTerm in Ht. simpl in Ht. rewrite Hs0 in Ht.
      eapply tableTargets_elem; [done|]. by eapply in_take.
    + intros c s t Hc Ht. by eapply tableTargets_elem. }
  destruct err as [err|].
  - destruct (expandLoop_error base (aliases e) fuel x0 x' err Hw Hrun)
      as (a & Ha & Hseen & ->).
    exists a, x'. by simpl.
  - exfalso. eapply (expandLoop_cycle base (aliases e) s0 Hs0 fuel fuel x0 x');
      [done| |right|done].
    + split; [|split; [done|split]].
      * exists s0. split; [done|]. simpl. by apply (Hwf _ _ Hs0).
      * exists s0. split; [done|]. split; [done|]. by apply (Hwf _ _ Hs0).
      * intros t Ht. right; right. unfold lookupElems in Ht. simpl in Ht.
        rewrite Hs0 in Ht. unfold readNonTerm. simpl. by rewrite Hs0.
    + destruct (Hdeep (S fuel) Hcyc) as (c2 & (a2 & Ha2 & <-) & Hd2).
      exists a2. split; [|done]. unfold lookupElems in Ha2. rewrite Hs0 in Ha2.
      unfold readNonTerm. simpl. by rewrite Hs0.
Qed.

End ExpandTop.
(** ** The table the scanner builds *)

Section Scanning.

Context {I : Type} `{Contract I}.

Implicit Types (s : @slice I) (t : @target I) (mu : @scan I).

Lemma foldl_inv {A B} (P : A → Prop) (f : A → B → A) (l : list B) (a : A) :
  (∀ a b, P a → P (f a b)) → P a → P (foldl f a l).
Proof.
  intros Hf. revert a. induction l as [|b l IH]; intros a Ha; [done|].
  simpl. by apply IH, Hf.
Qed.

Lemma append1_wf s t :
  len s ≤ length (array s) → len (append1 s t) ≤ length (array (append1 s t)).
Proof.
  intros Hs. unfold append1, elems.
  case_bool_decide; simpl; rewrite length_app, length_take; simpl; lia.
Qed.

Lemma contractMatch_wf object_ enclosing_ kind_ commentPos m mu :
  wfTable (mu_aliases mu) →
  wfTable (mu_aliases (contractMatch object_ enclosing_ kind_ commentPos m mu)).
Proof.
  intros Hmu. unfold contractMatch. destruct (Obj_alias object_) as [name|];
    [|done].
  simpl. apply map_Forall_insert_2; [|done]. apply append1_wf.
  destruct (mu_aliases mu !! name) as [s|] eqn:Hs; simpl; [|lia].
  by apply (Hmu _ _ Hs).
Qed.

(** Every slice of the alias table [findContracts] leaves lies within
    its backing array. *)
Lemma findContracts_wf decls (e : @Enforcer I) :
  wfTable (aliases (findContracts decls e)).
Proof.
  unfold findContracts. simpl.
  apply map_Forall_fmap. unfold wfTable.
  match goal with |- map_Forall _ (mu_aliases (foldl ?f ?a decls)) =>
    cut (wfTable (mu_aliases (foldl f a decls))) end.
  { intros Hwf c s Hs. simpl. unfold sortTargets.
    rewrite merge_sort_Permutation. by apply (Hwf _ _ Hs). }
  apply (foldl_inv (λ mu, wfTable (mu_aliases mu))); [|by apply map_Forall_empty].
  intros mu d Hmu. unfold contractClosure.
  apply (foldl_inv (λ mu, wfTable (mu_aliases mu))); [|done].
  intros mu1 group Hmu1.
  apply (foldl_inv (λ mu, wfTable (mu_aliases mu))); [|done].
  intros mu2 comment_ Hmu2.
  apply (foldl_inv (λ mu, wfTable (mu_aliases mu))); [|done].
  intros mu3 m Hmu3. by apply contractMatch_wf.
Qed.

End Scanning.

(** ** Expansion leaves the table within its arrays *)

Section Overwriting.

Context {I : Type} `{Contract I}.

Implicit Types (e : @Enforcer I) (x : @expansion I) (a base : @target I).

Lemma appendNonTerm_wf base more x :
  wfTable (x_aliases x) → shaped base x →
  wfTable (x_aliases (appendNonTerm (contract base) more x)).
Proof.
  intros Hwf Hsh. unfold appendNonTerm, shaped in *.
  destruct (x_nonTerm x) as [n|xs]; [|done].
  destruct Hsh as (s & Hs & Hn). rewrite Hs.
  case_bool_decide; [|done]. simpl.
  apply map_Forall_insert_2; [|done]. simpl.
  pose proof (Hwf _ _ Hs) as Hlen. simpl in Hlen.
  rewrite !length_app, length_take, length_drop. lia.
Qed.

Lemma stepWork_wf base a x :
  wfTable (x_aliases x) ∧ shaped base x →
  wfTable (x_aliases (stepWork base a x)) ∧ shaped base (stepWork base a x).
Proof.
  intros [Hwf Hsh]. unfold stepWork.
  destruct (x_aliases x !! contract a) as [more|].
  - split; [by apply appendNonTerm_wf|by apply shaped_append].
  - done.
Qed.

Lemma expandLoop_wf base fuel x x' err :
  wfTable (x_aliases x) → shaped base x →
  expandLoop fuel base x = Some (x', err) → wfTable (x_aliases x').
Proof.
  revert x. induction fuel as [|fuel IH]; intros x Hwf Hsh Hrun; [done|].
  rewrite expandLoop_S in Hrun.
  destruct (readNonTerm (contract base) x) as [|a ws]; [by simplify_eq|].
  assert (wfTable (x_aliases (resetNonTerm x)) ∧ shaped base (resetNonTerm x))
    as Hreset.
  { split; [done|]. unfold shaped, resetNonTerm in *. simpl.
    destruct (x_nonTerm x); [|done].
    destruct Hsh as (s & ? & ?). exists s. split; [done|lia]. }
  destruct (expandWork base (a :: ws) (resetNonTerm x)) as [y o] eqn:Hw.
  pose proof (expandWork_inv base
    (λ x _, wfTable (x_aliases x) ∧ shaped base x)
    (λ a _ x Hx _, stepWork_wf base a x Hx) _ _ _ _ Hreset Hw) as Hy.
  destruct o as [err'|].
  - destruct Hy as (? & ? & [? ?] & _). by simplify_eq.
  - destruct Hy. by eapply (IH y).
Qed.

(** [expand] may write to the table; its slices stay within their
    arrays. *)
Lemma expand_wf e base ts err e' :
  wfTable (aliases e) → expand e base = Some (ts, err, e') →
  wfTable (aliases e').
Proof.
  intros Hwf. unfold expand.
  destruct (aliases e !! contract base) as [s|] eqn:Hs; [|by intros [= _ _ <-]].
  destruct (expandLoop _ _ _) as [[x o]|] eqn:Hrun; [|done]. simpl.
  assert (wfTable (x_aliases x)) as Hx.
  { eapply expandLoop_wf; [| |done]; [done|].
    exists s. split; [done|]. by apply (Hwf _ _ Hs). }
  by destruct o; intros [= _ _ <-].
Qed.

Lemma expandEach_wf e ts acc out err e' :
  wfTable (aliases e) → expandEach e ts acc = Some (out, err, e') →
  wfTable (aliases e').
Proof.
  revert e acc. induction ts as [|b ts IH]; intros e acc Hwf Hrun.
  - simpl in Hrun. by simplify_eq.
  - simpl in Hrun.
    destruct (expand e b) as [[[exp o] e1]|] eqn:Hexp; simpl in Hrun; [|done].
    apply expand_wf in Hexp; [|done].
    destruct o; [by simplify_eq|]. by eapply IH.
Qed.

End Overwriting.

(** ** Expansion keeps positions and coalesces nothing *)

Section Positions.

Context {I : Type} `{Contract I}.

Implicit Types (e : @Enforcer I) (x : @expansion I) (t a base : @target I)
  (ts acc : list (@target I)).

Lemma term_append c more x : x_term (appendNonTerm c more x) = x_term x.
Proof.
  unfold appendNonTerm. destruct (x_nonTerm x); [|done].
  destruct (x_aliases x !! c); [|done]. by case_bool_decide.
Qed.

Lemma term_stepWork base a x t :
  t ∈ x_term (stepWork base a x) → t ∈ x_term x ∨ pos t = pos base.
Proof.
  unfold stepWork. destruct (x_aliases x !! contract a).
  - rewrite term_append. by left.
  - simpl. intros [?|Ht%list_elem_of_singleton]%elem_of_app; [by left|].
    right. by subst.
Qed.

Lemma expandWork_pos base ws x x' :
  (∀ t, t ∈ x_term x → pos t = pos base) →
  expandWork base ws x = (x', None) →
  ∀ t, t ∈ x_term x' → pos t = pos base.
Proof.
  intros Hx Hrun.
  apply (expandWork_inv base (λ x _, ∀ t, t ∈ x_term x → pos t = pos base)
           ltac:(intros a rest y Hy _ t [?|?]%term_stepWork; auto)
           ws x x' None Hx Hrun).
Qed.

Lemma expandLoop_pos base fuel x x' :
  (∀ t, t ∈ x_term x → pos t = pos base) →
  expandLoop fuel base x = Some (x', None) →
  ∀ t, t ∈ x_term x' → pos t = pos base.
Proof.
  revert x. induction fuel as [|fuel IH]; intros x Hx Hrun; [done|].
  rewrite expandLoop_S in Hrun.
  destruct (readNonTerm (contract base) x) as [|a ws]; [by simplify_eq|].
  destruct (expandWork base (a :: ws) (resetNonTerm x)) as [y [err|]] eqn:Hw;
    [done|].
  eapply (IH y); [|done]. eapply expandWork_pos; [|done].
  by destruct x.
Qed.

Lemma expand_pos e base ts e' :
  expand e base = Some (ts, None, e') → ∀ t, t ∈ ts → pos t = pos base.
Proof.
  unfold expand. destruct (aliases e !! contract base) as [s|].
  - destruct (expandLoop _ _ _) as [[x [err|]]|] eqn:Hrun; simpl; [done| |done].
    intros [= <- <-] t Ht.
    eapply (expandLoop_pos base _ _ x); [|done|].
    + by intros ? ?%elem_of_nil.
    + unfold sortTargets in Ht. by rewrite merge_sort_Permutation in Ht.
  - intros [= <- <-] t Ht%list_elem_of_singleton. by subst.
Qed.

Lemma expandEach_pos e ts acc out e' :
  expandEach e ts acc = Some (out, None, e') →
  ∀ t, t ∈ out → t ∈ acc ∨ ∃ b, b ∈ ts ∧ pos t = pos b.
Proof.
  revert e acc. induction ts as [|b ts IH]; intros e acc Hrun t Ht.
  - simpl in Hrun. simplify_eq. by left.
  - simpl in Hrun.
    destruct (expand e b) as [[[exp [err|]] e1]|] eqn:Hexp; simpl in Hrun;
      [done| |done].
    destruct (IH _ _ Hrun t Ht) as [[?|Hin]%elem_of_app|(b' & ? & ?)].
    + by left.
    + right. exists b. split; [left|]. by eapply expand_pos.
    + right. exists b'. split; [by right|done].
Qed.

Lemma expandEach_plain e ts acc :
  (∀ t, t ∈ ts → aliases e !! contract t = None) →
  expandEach e ts acc = Some (acc ++ ts, None, e).
Proof.
  revert acc. induction ts as [|b ts IH]; intros acc Hts; simpl.
  - by rewrite app_nil_r.
  - unfold expand. rewrite (Hts b) by left. simpl.
    rewrite IH by (intros; apply Hts; by right).
    by rewrite <- app_assoc.
Qed.

Lemma configureEach_pairs providers ts ts' :
  configureEach providers ts = (ts', None) → pairs ts' = pairs ts.
Proof.
  revert ts'. induction ts as [|b ts IH]; intros ts' Hrun; simpl in Hrun.
  - by simplify_eq.
  - destruct (providers !! contract b) as [provider|]; [|done].
    destruct (if bool_decide (config b ≠ "") then _ else _) as [inst|msg];
      [|done].
    destruct (configureEach providers ts) as [rest err].
    simplify_eq. simpl. f_equal. by apply IH.
Qed.

Lemma pairs_pos ts ts' t' :
  pairs ts' = pairs ts → t' ∈ ts' → ∃ t, t ∈ ts ∧ pos t' = pos t.
Proof.
  intros Hp Ht'.
  assert ((pos t', contract t') ∈ pairs ts) as Hin.
  { rewrite <- Hp. unfold pairs. apply list_elem_of_fmap. by exists t'. }
  unfold pairs in Hin. apply list_elem_of_fmap in Hin as (t & [= ? ?] & ?).
  by exists t.
Qed.

(** [enforce] has one [return], and it returns nil. *)
Lemma enforce_returns_nil (ssaPgm : ssaProgram) e t rs err :
  enforce ssaPgm e t = Some (rs, err) → err = None.
Proof.
  unfold enforce.
  destruct (contextOf ssaPgm e t) as [c|]; [|done].
  destruct (impl t) as [i|]; [|done]. simpl.
  destruct (Enforce i c) as [? [?|]]; by intros [= _ <-].
Qed.

End Positions.

(** ** Expansion, enforcement and the exit status *)

Section Claims.

Context {I : Type} `{Contract I}.


(** C6: when the contract of a target returns an error, [enforce]
    files it as a report against the declaration of the target, with
    the text "contract: error", after the reports the contract filed
    itself, and returns nil; the worker goes on with the targets that
    follow as it would have without the error; and the only error a
    worker ever returns is the one of the context. *)
Theorem C6_contract_error_is_reported (ssaPgm : ssaProgram) (e : @Enforcer I)
    (tgt : @target I) (inst : I) (ctx : contextImpl)
    (filed : list (Member * string)) (msg : string) :
  contextOf ssaPgm e tgt = Some ctx →
  impl tgt = Some inst →
  Enforce inst ctx = (filed, Some msg) →
  let reports :=
    ((λ r, Reportf tgt r.1 r.2) <$> filed)
    ++ [{| r_target := tgt; r_pos := M_Pos (declaration ctx);
           r_info := contract tgt +:+ ": " +:+ msg |}] in
  enforce ssaPgm e tgt = Some (reports, None)
  ∧ (∀ rest, worker ssaPgm e (Received tgt :: rest)
             = (reports ++ (worker ssaPgm e rest).1, (worker ssaPgm e rest).2))
  ∧ (∀ sel out err, worker ssaPgm e sel = (out, WReturned (Some err)) →
       ∃ m, err = ErrContext m ∧ CtxDone m ∈ sel).
Proof.
  intros Hctx Himpl Henf reports.
  assert (enforce ssaPgm e tgt = Some (reports, None)) as Hrun.
  { unfold enforce. rewrite Hctx, Himpl. simpl. by rewrite Henf. }
  split; [done|]. split.
  - intros rest. simpl. rewrite Hrun. by destruct (worker ssaPgm e rest).
  - intros sel. induction sel as [|s sel IH]; intros out err Hw; [done|].
    destruct s as [t| |m]; simpl in Hw.
    + destruct (enforce ssaPgm e t) as [[rs [er|]]|] eqn:Ht.
      * by apply enforce_returns_nil in Ht.
      * destruct (worker ssaPgm e sel) as [more r]. simplify_eq.
        destruct (IH _ _ eq_refl) as (m & ? & ?). exists m. split; [done|].
        by right.
      * done.
    + done.
    + simplify_eq. exists m. split; [done|]. left.
Qed.

(** C7 (fails for a run without reports): with [SetExitStatus] set, a
    run that ends without an error exits with status 1, whatever the
    reports, none included. *)
Theorem C7_exit_status_ignores_reports (e : @Enforcer I)
    (results : gmap nat (list string)) :
  SetExitStatus e = true → Main e results None = 1.
Proof. intros He. unfold Main, RunE. by rewrite He. Qed.


End Claims.

(** ** The runtime on the linters of the examples *)

Import RtExamples.

Lemma pingPong_wf : wfTable (aliases pingPong).
Proof. apply findContracts_wf. Qed.

Lemma pingPong_cycle : reachesCycle (aliases pingPong) (contract play).
Proof.
  exists "Ping". split; [apply rtc_refl|].
  apply (tc_l _ _ "Pong"); [|apply tc_once].
  - eexists. split; [vm_compute; left|done].
  - eexists. split; [vm_compute; left|done].
Qed.


(** C6, on the target of [plain] whose contract fails with "expected an
    int". *)
Lemma C6_contract_error_witness :
  ∃ reports,
    enforce demo plain failing = Some (reports, None)
    ∧ (r_pos <$> reports) = [40; 40]
    ∧ (r_info <$> reports) = ["here"; "MustReturnInt: expected an int"]
    ∧ worker demo plain [Received failing; Received failing; Closed]
      = (reports ++ reports, WReturned None).
Proof.
  edestruct (C6_contract_error_is_reported demo plain failing)
    as (Hrun & Hnext & _); [reflexivity..|].
  eexists. split; [exact Hrun|]. split; [done|]. split; [done|].
  by rewrite Hnext, Hnext.
Defined.

(** C7, on a run that made no report. *)
Lemma C7_exit_status_witness :
  countReports ∅ = 0
  ∧ Main {| AssertedInterfaces := false; Contracts := Contracts linter;
            Packages := ["./demo"]; SetExitStatus := true; Tests := false;
            aliases := ∅; targets := []; nextAddr := 0 |} ∅ None = 1.
Proof. split; [done|]. by apply C7_exit_status_ignores_reports. Defined.



End RtFacts.

(* ================================================================== *)
(** * Facts about the analysis of returned values *)
(* ================================================================== *)

Module RetlintFacts.
Import Retlint.

(** ** A weakest-precondition calculus for the outcome monad *)

Section Logic.

(** [R] must hold of the state whenever the computation is cut short. *)
Variable R : RetLint → Prop.

Local Abbreviation wp := (Retlint.wp R).

Lemma wp_ret {A} (a : A) Φ l : Φ a l → wp (mret a) Φ l.
Proof. done. Qed.

Lemma wp_bind {A B} (m : M A) (k : A → M B) Φ l :
  wp m (λ a l', wp (k a) Φ l') l → wp (m ≫= k) Φ l.
Proof.
  unfold Retlint.wp, mbind, M_bind. by destruct (m l).
Qed.

Lemma wp_mono {A} (m : M A) (Φ Ψ : A → RetLint → Prop) l :
  wp m Φ l → (∀ a l', Φ a l' → Ψ a l') → wp m Ψ l.
Proof. unfold Retlint.wp. destruct (m l); auto. Qed.

Lemma wp_get Φ l : Φ l l → wp get Φ l.
Proof. done. Qed.

Lemma wp_modify f Φ l : Φ tt (f l) → wp (modify f) Φ l.
Proof. done. Qed.

Lemma wp_panic {A} x (Φ : A → RetLint → Prop) l : R l → wp (panic x) Φ l.
Proof. done. Qed.

Lemma wp_outOfFuel {A} (Φ : A → RetLint → Prop) l : R l → wp outOfFuel Φ l.
Proof. done. Qed.

Lemma wp_rethrow {A} h (m : M A) Φ l : wp m Φ l → wp (rethrow h m) Φ l.
Proof. unfold Retlint.wp, rethrow. by destruct (m l). Qed.

Lemma wp_load p Φ l :
  R l → (∀ s, store l !! p = Some s → Φ s l) → wp (load p) Φ l.
Proof.
  intros HR HΦ. unfold load. apply wp_bind, wp_get.
  destruct (store l !! p) as [s|]; [by apply wp_ret, HΦ|by apply wp_panic].
Qed.

Lemma wp_update p f Φ l :
  R l → (∀ s, store l !! p = Some s → Φ tt (written p s (f s) l)) →
  wp (update p f) Φ l.
Proof.
  intros HR HΦ. unfold update. apply wp_bind, wp_load; [done|].
  intros s Hs. apply wp_modify. by apply HΦ.
Qed.

Lemma wp_alloc s Φ l :
  Φ (length (store l)) (allocated s l) → wp (alloc s) Φ l.
Proof.
  intros HΦ. unfold alloc. apply wp_bind, wp_get, wp_bind, wp_modify.
  by apply wp_ret.
Qed.

Lemma wp_forEach {A} (Inv : list A → RetLint → Prop) (body : A → M unit) xs l :
  (∀ x rest l, Inv (x :: rest) l → wp (body x) (λ _ l', Inv rest l') l) →
  Inv xs l → wp (forEach xs body) (λ _ l', Inv [] l') l.
Proof.
  intros Hbody. revert l. induction xs as [|x xs IH]; intros l HI.
  - by apply wp_ret.
  - simpl. apply wp_bind. eapply wp_mono; [by apply Hbody|].
    intros [] l' HI'. by apply IH.
Qed.

Lemma wp_foldM {A B} (Inv : B → list A → RetLint → Prop) (f : B → A → M B) xs b l :
  (∀ b x rest l, Inv b (x :: rest) l → wp (f b x) (λ b' l', Inv b' rest l') l) →
  Inv b xs l → wp (foldM f xs b) (λ b' l', Inv b' [] l') l.
Proof.
  intros Hbody. revert b l. induction xs as [|x xs IH]; intros b l HI.
  - by apply wp_ret.
  - simpl. apply wp_bind. eapply wp_mono; [by apply Hbody|].
    intros b' l' HI'. by apply IH.
Qed.

End Logic.

(** ** Invariants of the analysis *)

Section Invariants.

Variable pgm : Program.
Variables (tgt : string) (Aset : gset string) (F : gset Fn) (S : gset Val).
Hypothesis Hbenign : benign pgm tgt Aset F S.
Variable rng : ranging.
Hypothesis Hrng : ranges rng.

Implicit Types (l : RetLint) (p q : StatPtr) (s : funcStat) (f : Fn).

Local Abbreviation isF := (Retlint.isF F).
Local Abbreviation Fcond := (Retlint.Fcond tgt Aset).
Local Abbreviation resultsIn := (Retlint.resultsIn S).
Local Abbreviation safe := (Retlint.safe tgt Aset F).
Local Abbreviation inv := (Retlint.inv tgt Aset F S).
Local Abbreviation decide_spec := (Retlint.decide_spec pgm tgt Aset F S rng).
Local Abbreviation analyze_spec := (Retlint.analyze_spec pgm tgt Aset F S rng).
Local Abbreviation s_journal := (Retlint.s_journal tgt Aset F).
Local Abbreviation s_clean := (Retlint.s_clean tgt Aset F).
Local Abbreviation s_fn := (Retlint.s_fn tgt Aset F).
Local Abbreviation s_F := (Retlint.s_F tgt Aset F).
Local Abbreviation i_safe := (Retlint.i_safe tgt Aset F S).
Local Abbreviation i_dirties := (Retlint.i_dirties tgt Aset F S).
Local Abbreviation i_why := (Retlint.i_why tgt Aset F S).
Local Abbreviation i_results := (Retlint.i_results tgt Aset F S).
Local Abbreviation i_F2 := (Retlint.i_F2 tgt Aset F S).
Local Abbreviation i_stats := (Retlint.i_stats tgt Aset F S).

Lemma evolves_refl l : evolves l l.
Proof. split; [done|]. split; [done|]. intros p s Hs. by exists s. Qed.

Lemma evolves_trans l1 l2 l3 : evolves l1 l2 → evolves l2 l3 → evolves l1 l3.
Proof.
  intros (Ht & Ha & H12) (Ht' & Ha' & H23).
  split; [congruence|]. split; [congruence|].
  intros p s Hs. destruct (H12 _ _ Hs) as (s2 & Hs2 & Hf2 & Hact2 & Hu2).
  destruct (H23 _ _ Hs2) as (s3 & Hs3 & Hf3 & Hact3 & Hu3).
  exists s3. split; [done|]. split; [congruence|]. split; auto.
Qed.

Lemma activeAt_evolves l l' p : evolves l l' → activeAt l p → activeAt l' p.
Proof.
  intros (_ & _ & He) (s & Hs & Ha). destruct (He _ _ Hs) as (s' & ? & _ & Hact & _).
  exists s'. auto.
Qed.

Lemma settledAt_evolves l l' p : evolves l l' → settledAt l p → settledAt l' p.
Proof.
  intros (_ & _ & He) (s & Hs & Ha). destruct (He _ _ Hs) as (s' & ? & _ & _ & Hu).
  exists s'. auto.
Qed.

Lemma isF_evolves l l' p : evolves l l' → isF l p → isF l' p.
Proof.
  intros (_ & _ & He) (s & f & Hs & Hf & HF).
  destruct (He _ _ Hs) as (s' & ? & Hfn & _). exists s', f. split; [done|].
  split; [congruence|done].
Qed.

Lemma isF_evolves_back l l' p s0 :
  evolves l l' → store l !! p = Some s0 → isF l' p → isF l p.
Proof.
  intros (_ & _ & He) Hs0 (s & f & Hs & Hf & HF).
  destruct (He _ _ Hs0) as (s' & ? & Hfn & _). simplify_eq.
  exists s0, f. split; [done|]. split; [congruence|done].
Qed.

Lemma Fcond_evolves l l' : evolves l l' → Fcond l' → Fcond l.
Proof. intros (Ht & Ha & _) [? ?]. split; congruence. Qed.

Lemma inv_safe pending l : inv pending l → safe l.
Proof. by intros []. Qed.

Lemma lookup_written p s s' l q sq :
  store l !! p = Some s →
  store (written p s s' l) !! q = Some sq ↔
    (q = p ∧ sq = s') ∨ (q ≠ p ∧ store l !! q = Some sq).
Proof.
  intros Hs. unfold written. simpl. rewrite list_lookup_insert_Some.
  apply lookup_lt_Some in Hs. naive_solver.
Qed.

Lemma evolves_written p s s' l :
  store l !! p = Some s → fn s' = fn s → (active s → active s') →
  (fstate s ≠ stateUnknown → fstate s' ≠ stateUnknown) →
  evolves l (written p s s' l).
Proof.
  intros Hs Hfn Hact Hu. split; [done|]. split; [done|].
  intros q sq Hq. destruct (base.decide (q = p)) as [->|Hne].
  - simplify_eq. exists s'. split; [|done]. apply lookup_written; auto.
  - exists sq. split; [|done]. apply lookup_written; auto.
Qed.

(** Writing to a record keeps the invariant, if the write is legal and
    respects what the invariant says of the record. *)
Lemma inv_written pending p s s' l :
  inv pending l → store l !! p = Some s →
  fstate s ≠ stateClean →
  (fstate s = stateDirty →
     s' = s ∨ ∃ w, s' = set_why w s ∧ length w < length (why s)) →
  fn s' = fn s → (active s → active s') →
  (fstate s ≠ stateUnknown → fstate s' ≠ stateUnknown) →
  (∀ q v, dirties s' !! q = Some v →
     dirties s !! q = Some v
     ∨ (activeAt l q ∧ (Fcond l → isF l q → isF l p))) →
  (fstate s' = stateDirty → why s' ≠ []) →
  (Fcond l → ∀ f, fn s = Some f → f ∈ F → fstate s' ≠ stateDirty ∧ resultsIn s') →
  inv pending (written p s s' l) ∧ evolves l (written p s s' l).
Proof.
  intros [[Hj Hc Hfn HF] Hd Hw Hr HF2 Hst] Hs Hnc Hleg Hfn' Hact Hu Hdir Hwhy HFs.
  pose proof (evolves_written p s s' l Hs Hfn' Hact Hu) as Hev.
  split; [|done].
  assert (p ≠ cleanPtr) as Hp0.
  { intros ->. rewrite Hc in Hs. by simplify_eq. }
  split; [split|..].
  - intros w Hw'. unfold written in Hw'. simpl in Hw'.
    apply elem_of_app in Hw' as [?|Hw']; [by apply Hj|].
    apply list_elem_of_singleton in Hw' as ->. by split.
  - apply lookup_written; [done|]. right. by split.
  - intros f q Hq. destruct (Hfn _ _ Hq) as [->|(sq & Hsq & Hfq)]; [by left|].
    right. destruct (base.decide (q = p)) as [->|Hne].
    + simplify_eq. exists s'. split; [|congruence]. apply lookup_written; auto.
    + exists sq. split; [|done]. apply lookup_written; auto.
  - intros Hcond q sq f Hq Hf Hin.
    apply (lookup_written _ _ _ _ _ _ Hs) in Hq as [[-> ->]|[Hne Hq]].
    + rewrite Hfn' in Hf. by apply (HFs Hcond f).
    + by eapply HF.
  - intros q sq r v Hq Hv.
    eapply activeAt_evolves; [done|].
    apply (lookup_written _ _ _ _ _ _ Hs) in Hq as [[-> ->]|[Hne Hq]].
    + destruct (Hdir _ _ Hv) as [Hold|[Ha _]]; [by eapply Hd|done].
    + by eapply Hd.
  - intros q sq Hq Hdirty.
    apply (lookup_written _ _ _ _ _ _ Hs) in Hq as [[-> ->]|[Hne Hq]]; [auto|].
    by eapply Hw.
  - intros Hcond q sq f Hq Hf Hin.
    apply (lookup_written _ _ _ _ _ _ Hs) in Hq as [[-> ->]|[Hne Hq]].
    + rewrite Hfn' in Hf. by apply (HFs Hcond f).
    + by eapply Hr.
  - intros Hcond q sq r v Hq Hv HisF.
    assert (∃ sr, store l !! r = Some sr) as [sr Hsr].
    { apply (lookup_written _ _ _ _ _ _ Hs) in Hq as [[-> ->]|[Hne Hq]].
      - destruct (Hdir _ _ Hv) as [Hold|[(sr & ? & _) _]]; [|by eauto].
        destruct (Hd _ _ _ _ Hs Hold) as (sr & ? & _). by eauto.
      - destruct (Hd _ _ _ _ Hq Hv) as (sr & ? & _). by eauto. }
    eapply isF_evolves; [done|].
    pose proof (isF_evolves_back _ _ _ _ Hev Hsr HisF) as HisF'.
    apply (lookup_written _ _ _ _ _ _ Hs) in Hq as [[-> ->]|[Hne Hq]].
    + destruct (Hdir _ _ Hv) as [Hold|[_ Himp]]; [by eapply HF2|by apply Himp].
    + by eapply HF2.
  - intros f q Hq. destruct (Hst _ _ Hq) as [Hset|?]; [|by right].
    left. by eapply settledAt_evolves.
Qed.

Lemma lookup_allocated s l q sq :
  store (allocated s l) !! q = Some sq ↔
    store l !! q = Some sq ∨ (q = length (store l) ∧ sq = s).
Proof.
  unfold allocated. simpl. rewrite lookup_app_Some. split.
  - intros [?|[Hge Hq]]; [by left|right].
    destruct (q - length (store l)) as [|n] eqn:Hn; simpl in Hq; [|done].
    simplify_eq. split; [lia|done].
  - intros [?|[-> ->]]; [by left|right]. split; [lia|]. by rewrite Nat.sub_diag.
Qed.

Lemma evolves_allocated s l : evolves l (allocated s l).
Proof.
  split; [done|]. split; [done|]. intros q sq Hq. exists sq.
  split; [|done]. apply lookup_allocated. by left.
Qed.

Lemma inv_allocated pending f l :
  inv pending l → inv pending (allocated (fresh f) l).
Proof.
  intros [[Hj Hc Hfn HF] Hd Hw Hr HF2 Hst].
  pose proof (evolves_allocated (fresh f) l) as Hev.
  split; [split|..].
  - done.
  - apply lookup_allocated. by left.
  - intros g q Hq. destruct (Hfn _ _ Hq) as [->|(sq & Hsq & Hfq)]; [by left|].
    right. exists sq. split; [|done]. apply lookup_allocated. by left.
  - intros Hcond q sq g Hq Hg Hin.
    apply lookup_allocated in Hq as [Hq|[-> ->]]; [by eapply HF|done].
  - intros q sq r v Hq Hv. eapply activeAt_evolves; [done|].
    apply lookup_allocated in Hq as [Hq|[-> ->]]; [by eapply Hd|].
    simpl in Hv. by rewrite lookup_empty in Hv.
  - intros q sq Hq Hdirty.
    apply lookup_allocated in Hq as [Hq|[-> ->]]; [by eapply Hw|done].
  - intros Hcond q sq g Hq Hg Hin.
    apply lookup_allocated in Hq as [Hq|[-> ->]]; [by eapply Hr|].
    intros ret idx Hret. simpl in Hret. by apply elem_of_nil in Hret.
  - intros Hcond q sq r v Hq Hv HisF.
    apply lookup_allocated in Hq as [Hq|[-> ->]];
      [|simpl in Hv; by rewrite lookup_empty in Hv].
    eapply isF_evolves; [done|].
    destruct (Hd _ _ _ _ Hq Hv) as (sr & Hsr & _).
    pose proof (isF_evolves_back _ _ _ _ Hev Hsr HisF). by eapply HF2.
  - intros g q Hq. destruct (Hst _ _ Hq) as [Hset|?]; [|by right].
    left. by eapply settledAt_evolves.
Qed.

(** Changing [stats] and [work] only. *)
Lemma safe_set_stats l f p :
  safe l → (p = cleanPtr ∨ ∃ s, store l !! p = Some s ∧ fn s = Some f) →
  safe (set_stats (<[f := p]> (stats l)) l).
Proof.
  intros [Hj Hc Hfn HF] Hp. split; try done.
  intros g q Hq. simpl in Hq. apply lookup_insert_Some in Hq as [[<- <-]|[_ Hq]]; [done|].
  by apply Hfn.
Qed.

Ltac side :=
  try done; try (intros [?|?]; done); try (intros ? ? ?; by left).

Ltac wp_step :=
  lazymatch goal with
  | |- wp _ (mbind _ _) _ _ => apply wp_bind
  | |- wp _ get _ _ => apply wp_get
  | |- wp _ (modify _) _ _ => apply wp_modify
  | |- wp _ (mret _) _ _ => apply wp_ret
  end.

Lemma wp_functionAt f Φ l :
  safe l → (∀ fd, functions pgm !! f = Some fd → Φ fd l) →
  wp safe (functionAt pgm f) Φ l.
Proof.
  intros Hs HΦ. unfold functionAt.
  destruct (functions pgm !! f) as [fd|]; [by apply wp_ret, HΦ|by apply wp_panic].
Qed.

Lemma wp_valueAt v Φ l :
  safe l → (∀ t, values pgm !! v = Some t → Φ t l) →
  wp safe (valueAt pgm v) Φ l.
Proof.
  intros Hs HΦ. unfold valueAt.
  destruct (values pgm !! v) as [t|]; [by apply wp_ret, HΦ|by apply wp_panic].
Qed.

Lemma stat_rec_found d f p l :
  stats l !! f = Some p → stat_rec pgm (Datatypes.S d) f l = Done p l.
Proof.
  intros Hp. cbn [stat_rec]. unfold mbind, M_bind, get. by rewrite Hp.
Qed.

Lemma stat_rec_S d f :
  stat_rec pgm (Datatypes.S d) f =
    (l ← get;
     match stats l !! f with
     | Some p => mret p
     | None =>
         p ← alloc (fresh f);
         modify (λ l, set_stats (<[f := p]> (stats l)) l) ;;
         modify (λ l, set_work (work l ++ [p]) l) ;;
         extract pgm (stat_rec pgm d) f ;;
         mret p
     end).
Proof. done. Qed.

Lemma inv_stats_change pending l st' wk' :
  inv pending l →
  (∀ g q, st' !! g = Some q →
     (q = cleanPtr ∨ ∃ s, store l !! q = Some s ∧ fn s = Some g)
     ∧ (settledAt l q ∨ q ∈ wk' ∨ q ∈ pending)) →
  inv pending (set_work wk' (set_stats st' l)).
Proof.
  intros [[Hj Hc Hfn HF] Hd Hw Hr HF2 Hst] Hnew.
  split; [split|..]; try done.
  - intros g q Hq. by apply (Hnew g q).
  - intros g q Hq. by apply (Hnew g q).
Qed.

Lemma evolves_stats_change l st' wk' : evolves l (set_work wk' (set_stats st' l)).
Proof. split; [done|]. split; [done|]. intros p s Hs. by exists s. Qed.

Lemma settledAt_clean pending l : inv pending l → settledAt l cleanPtr.
Proof. intros [[_ Hc _ _] _ _ _ _ _]. exists clean. by split. Qed.

Lemma benign_results f fd results ret idx :
  f ∈ F → functions pgm !! f = Some fd → SigResults fd = Some results →
  ret ∈ returnsOf fd → idx ∈ targetIndexesFrom (Some tgt) 0 results →
  ∃ v, ret !! idx = Some v ∧ v ∈ S.
Proof.
  intros Hf Hfd Hres Hret Hidx. destruct Hbenign as [_ HF].
  destruct (HF f Hf) as (fd' & Hfd' & Hall). simplify_eq.
  specialize (Hall _ Hres). rewrite Forall_forall in Hall.
  specialize (Hall _ Hret). rewrite Forall_forall in Hall. by apply Hall.
Qed.

Lemma wp_extract pending st f p l :
  (∀ l', stats l' !! f = Some p → st f l' = Done p l') →
  inv pending l → stats l !! f = Some p → store l !! p = Some (fresh f) →
  p ∈ work l →
  wp safe (extract pgm st f)
     (λ _ l', evolves l l' ∧ inv pending l'
              ∧ ∃ s, store l' !! p = Some s ∧ fn s = Some f) l.
Proof.
  intros Hst Hinv Hstat Hp Hwork. unfold extract.
  wp_step. apply wp_functionAt; [by eapply inv_safe|]. intros fd Hfd.
  wp_step. wp_step.
  assert (wp safe (modify (λ l0, set_stats (<[f:=cleanPtr]> (stats l0)) l0))
            (λ _ l', evolves l l' ∧ inv pending l'
                     ∧ ∃ s, store l' !! p = Some s ∧ fn s = Some f) l) as Hclean.
  { wp_step. split; [|split].
    - split; [done|]. split; [done|]. intros q sq Hq. by exists sq.
    - pose proof (inv_stats_change pending l (<[f:=cleanPtr]> (stats l)) (work l) Hinv)
        as Hchg.
      destruct l. apply Hchg. intros g q Hq. simpl in Hq.
      apply lookup_insert_Some in Hq as [[<- <-]|[_ Hq]].
      + split; [by left|]. left. by eapply settledAt_clean.
      + split; [|by eapply i_stats]. eapply s_fn; [by eapply inv_safe|done].
    - by exists (fresh f). }
  destruct (SigResults fd) as [results|] eqn:Hres; [|done].
  destruct (targetIndexesFrom (target l) 0 results) as [|i tis] eqn:Htis; [done|].
  wp_step. unfold wp at 1. rewrite (Hst _ Hstat).
  wp_step. apply wp_update; [by eapply inv_safe|]. intros s0 Hs0. simplify_eq.
  destruct (inv_written pending p (fresh f) (set_returns (returnsOf fd) (fresh f)) l)
    as [Hinv1 Hev1]; side.
  { intros _ g _ _. split; [done|]. intros ret idx _ Hidx. simpl in Hidx.
    by apply elem_of_nil in Hidx. }
  apply wp_update; [by eapply inv_safe|]. intros s1 Hs1.
  apply lookup_written in Hs1 as [[_ ->]|[? _]]; [|done|done].
  match goal with |- context [written p ?s ?s' ?l1] =>
    destruct (inv_written pending p s s' l1) as [Hinv2 Hev2] end; side.
  { apply lookup_written; auto. }
  { intros [Htgt _] g [= <-] Hg. split; [done|]. intros ret idx Hret Hidx.
    simpl in *. rewrite <- Htis in Hidx. rewrite Htgt in Hidx.
    by eapply benign_results. }
  split; [by eapply evolves_trans|]. split; [done|].
  eexists. split; [apply lookup_written; [apply lookup_written; auto|]; by left|done].
Qed.

Lemma wp_stat pending f l :
  inv pending l →
  wp safe (stat pgm f)
     (λ p l', evolves l l' ∧ inv pending l'
              ∧ (p = cleanPtr ∨ ∃ s, store l' !! p = Some s ∧ fn s = Some f)) l.
Proof.
  intros Hinv. unfold stat. rewrite stat_rec_S. wp_step. wp_step.
  destruct (stats l !! f) as [p|] eqn:Hstat.
  { wp_step. split; [apply evolves_refl|]. split; [done|].
    eapply s_fn; [by eapply inv_safe|done]. }
  wp_step. apply wp_alloc. wp_step. wp_step. wp_step. wp_step. wp_step.
  set (p := length (store l)).
  set (l1 := allocated (fresh f) l).
  pose proof (inv_allocated pending f l Hinv) as Hinv1. fold l1 in Hinv1.
  pose proof (evolves_allocated (fresh f) l) as Hev1. fold l1 in Hev1.
  assert (store l1 !! p = Some (fresh f)) as Hp.
  { apply lookup_allocated. by right. }
  set (l2 := set_work _ _).
  assert (inv pending l2 ∧ evolves l1 l2) as [Hinv2 Hev2].
  { split; [|apply evolves_stats_change].
    apply inv_stats_change; [done|]. intros g q Hq. simpl in Hq.
    apply lookup_insert_Some in Hq as [[<- <-]|[_ Hq]].
    - split; [right; by exists (fresh f)|]. right; left. set_solver.
    - split; [eapply s_fn; [by eapply inv_safe|done]|].
      destruct (i_stats _ _ Hinv1 _ _ Hq) as [?|[?|?]]; [by left| |by right; right].
      right; left. simpl in *. set_solver. }
  eapply wp_mono.
  { apply (wp_extract pending _ f p l2); try done.
    - intros l' Hl'. by apply stat_rec_found.
    - simpl. by rewrite lookup_insert_eq.
    - simpl. set_solver. }
  intros [] l3 (Hev3 & Hinv3 & Hs3). wp_step.
  split; [|split; [done|by right]].
  apply (evolves_trans _ l1); [done|]. by apply (evolves_trans _ l2).
Qed.

Lemma set_fstate_same s : set_fstate (fstate s) s = s.
Proof. by destruct s. Qed.

Lemma markDirty_S fuel p why_ :
  markDirty rng (Datatypes.S fuel) p why_ =
    (s ← load p;
     changed ←
       (if bool_decide (why s = []) || bool_decide (length why_ < length (why s))
        then update p (set_why why_) ;; mret true
        else mret false);
     s ← load p;
     if bool_decide (fstate s = stateDirty) && negb changed then mret tt
     else
       update p (set_fstate stateDirty) ;;
       s ← load p;
       forEach (rangeDirties rng (dirties s)) (λ '(chained, call),
         markDirty rng fuel chained ({| Reason := "calls"; Value_ := call |} :: why_))).
Proof. done. Qed.

Lemma wp_markDirty fuel pending p why_ l :
  inv pending l → activeAt l p → (Fcond l → ¬ isF l p) → why_ ≠ [] →
  wp safe (markDirty rng fuel p why_) (λ _ l', evolves l l' ∧ inv pending l') l.
Proof.
  revert p why_ l. induction fuel as [|fuel IH]; intros p why_ l Hinv Hact HnF Hne.
  { apply wp_outOfFuel. by eapply inv_safe. }
  rewrite markDirty_S. wp_step. apply wp_load; [by eapply inv_safe|].
  intros s Hs. destruct Hact as (s_ & Hs_ & Hact).
  rewrite Hs in Hs_. injection Hs_ as <-.
  wp_step.
  (* the explanation *)
  apply (wp_mono _ _ (λ changed l1,
           evolves l l1 ∧ inv pending l1
           ∧ ∃ s1, store l1 !! p = Some s1 ∧ active s1 ∧ why s1 ≠ []
                   ∧ (changed = false → s1 = s))).
  { destruct (bool_decide (why s = []) || bool_decide (length why_ < length (why s)))
      eqn:Hcond.
    - wp_step. apply wp_update; [by eapply inv_safe|]. intros s' Hs'. simplify_eq.
      wp_step.
      destruct (inv_written pending p s (set_why why_ s) l) as [Hinv1 Hev1]; side.
      { destruct Hact; congruence. }
      { intros Hd. right. exists why_. split; [done|].
        apply orb_true_iff in Hcond as [Hc|Hc]; apply bool_decide_eq_true in Hc;
          [|done]. by destruct (i_why _ _ Hinv _ _ Hs Hd). }
      { intros Hc f Hf HF. destruct (HnF Hc). by exists s, f. }
      split; [done|]. split; [done|]. exists (set_why why_ s).
      split; [apply lookup_written; auto|]. done.
    - wp_step. split; [apply evolves_refl|]. split; [done|]. exists s.
      apply orb_false_iff in Hcond as [Hc _]. apply bool_decide_eq_false in Hc.
      done. }
  intros changed l1 (Hev1 & Hinv1 & s1 & Hs1 & Hact1 & Hwhy1 & Hsame).
  wp_step. apply wp_load; [by eapply inv_safe|]. intros s1' Hs1'. simplify_eq.
  destruct (bool_decide (fstate s1 = stateDirty) && negb changed) eqn:Hskip.
  { by wp_step. }
  assert (Fcond l1 → ¬ isF l1 p) as HnF1.
  { intros Hc HF. apply HnF; [by eapply Fcond_evolves|].
    by eapply isF_evolves_back. }
  wp_step. apply wp_update; [by eapply inv_safe|]. intros s1' Hs1'. simplify_eq.
  destruct (inv_written pending p s1 (set_fstate stateDirty s1) l1) as [Hinv2 Hev2];
    side.
  { destruct Hact1; congruence. }
  { intros Hd. left. rewrite <- Hd. apply set_fstate_same. }
  { intros _. by right. }
  { intros Hc f Hf HF. destruct (HnF1 Hc). by exists s1, f. }
  set (l2 := written p s1 (set_fstate stateDirty s1) l1) in *.
  wp_step. apply wp_load; [by eapply inv_safe|]. intros s2 Hs2.
  apply lookup_written in Hs2 as [[_ ->]|[? _]]; [|done|done].
  eapply wp_mono.
  { apply (wp_forEach safe (λ rest l', evolves l2 l' ∧ inv pending l'
             ∧ ∀ x, x ∈ rest → x ∈ map_to_list (dirties (set_fstate stateDirty s1)))).
    - intros [chained call] rest l' (Hev' & Hinv' & Hin).
      assert (dirties (set_fstate stateDirty s1) !! chained = Some call) as Hd.
      { apply elem_of_map_to_list. apply Hin. set_solver. }
      assert (store l2 !! p = Some (set_fstate stateDirty s1)) as Hp2.
      { apply lookup_written; auto. }
      pose proof (i_dirties _ _ Hinv2 _ _ _ _ Hp2 Hd) as Hact2.
      eapply wp_mono.
      { apply IH; [done|by eapply activeAt_evolves| |done].
        intros Hc' HF'. destruct Hact2 as (sc & Hsc & _).
        pose proof (Fcond_evolves _ _ Hev' Hc') as Hc2.
        pose proof (isF_evolves_back _ _ _ _ Hev' Hsc HF') as HF2.
        pose proof (i_F2 _ _ Hinv2 Hc2 _ _ _ _ Hp2 Hd HF2) as HFp.
        apply HnF1; [by eapply Fcond_evolves|].
        eapply isF_evolves_back; [exact Hev2|done|done]. }
      intros [] l'' (Hev'' & Hinv''). split; [by eapply evolves_trans|].
      split; [done|]. intros x Hx. apply Hin. set_solver.
    - split; [apply evolves_refl|]. split; [done|].
      intros x Hx. by rewrite <- (proj1 Hrng _). }
  intros [] l3 (Hev3 & Hinv3 & _). split; [|done].
  apply (evolves_trans _ l1); [done|]. by apply (evolves_trans _ l2).
Qed.

Lemma wp_isAllowed ty Φ l :
  safe l → (∀ b, isAllowed_pure (allowed l) ty = Some b → Φ b l) →
  wp safe (isAllowed ty) Φ l.
Proof.
  intros Hs HΦ. unfold isAllowed. wp_step. wp_step.
  destruct (isAllowed_pure (allowed l) ty) as [b|]; [by apply wp_ret, HΦ|].
  by apply wp_panic.
Qed.

Lemma analyze_step fuel : decide_spec fuel → analyze_spec (Datatypes.S fuel).
Proof.
  intros IHd pending p l Hinv. cbn [analyze].
  wp_step. apply wp_load; [by eapply inv_safe|]. intros s Hs.
  case_bool_decide as Hunk.
  { wp_step. split; [apply evolves_refl|]. split; [done|]. by exists s. }
  apply wp_rethrow. wp_step. apply wp_update; [by eapply inv_safe|].
  intros s' Hs'. rewrite Hs in Hs'. injection Hs' as <-.
  destruct (inv_written pending p s (set_fstate stateAnalyzing s) l)
    as [Hinv1 Hev1]; side.
  { congruence. }
  { congruence. }
  { intros _. by left. }
  { intros Hc f Hf HF. split; [done|]. by apply (i_results _ _ Hinv Hc p s f). }
  set (s1 := set_fstate stateAnalyzing s) in *.
  set (l1 := written p s s1 l) in *.
  assert (store l1 !! p = Some s1) as Hp1 by (apply lookup_written; auto).
  assert (activeAt l1 p) as Hact1 by (exists s1; split; [done|by left]).
  wp_step. apply wp_load; [by eapply inv_safe|]. intros s1' Hs1'.
  rewrite Hp1 in Hs1'. injection Hs1' as <-.
  wp_step. eapply wp_mono.
  { apply (wp_foldM safe (λ (_ : flow * gset Val) rest l',
              evolves l1 l' ∧ inv pending l' ∧ ∀ x, x ∈ rest → x ∈ returns s1)).
    2: { split; [apply evolves_refl|]. done. }
    intros [c seen] ret rest l' (Hev' & Hinv' & Hin).
    destruct c.
    2: { wp_step. split; [done|]. split; [done|]. intros x Hx. apply Hin. set_solver. }
    eapply wp_mono.
    { apply (wp_foldM safe (λ (_ : flow * gset Val) irest l'',
                evolves l1 l'' ∧ inv pending l''
                ∧ ∀ x, x ∈ irest → x ∈ targetIndexes s1)).
      2: { split; [done|]. done. }
      intros [c seen0] idx irest l'' (Hev'' & Hinv'' & Hin').
      destruct c.
      2: { wp_step. split; [done|]. split; [done|]. intros x Hx. apply Hin'.
           set_solver. }
      destruct (ret !! idx) as [v|] eqn:Hv; [|apply wp_panic; by eapply inv_safe].
      wp_step. eapply wp_mono.
      { apply IHd; [done|by eapply activeAt_evolves|].
        intros Hc HF.
        pose proof (Fcond_evolves _ _ Hev'' Hc) as Hc1.
        pose proof (isF_evolves_back _ _ _ _ Hev'' Hp1 HF) as (s1' & f & Hs1' & Hf & HFf).
        rewrite Hp1 in Hs1'. injection Hs1' as <-.
        destruct (i_results _ _ Hinv1 Hc1 p s1 f Hp1 Hf HFf ret idx) as (v' & Hv' & HS).
        - apply Hin. set_solver.
        - apply Hin'. set_solver.
        - congruence. }
      intros seen' l3 (Hev3 & Hinv3).
      wp_step. apply wp_load; [by eapply inv_safe|]. intros s3 Hs3.
      assert (evolves l1 l3) as Hev13 by (by eapply evolves_trans).
      case_bool_decide; wp_step; (split; [done|]; split; [done|]);
        intros x Hx; apply Hin'; set_solver. }
    intros [c' seen'] l'' (Hev'' & Hinv'' & _). split; [done|]. split; [done|].
    intros x Hx. apply Hin. set_solver. }
  intros [c seen] l' (Hev' & Hinv' & _). wp_step.
  split; [by eapply evolves_trans|]. split; [done|].
  eapply settledAt_evolves; [done|]. exists s1. split; [done|]. done.
Qed.

Lemma benign_value l p val t :
  inv [] l ∨ True → Fcond l → isF l p → (Fcond l → isF l p → val ∈ S) →
  values pgm !! val = Some t → benignValue (allowed l) F S t = true.
Proof.
  intros _ Hc HF Hval Ht. destruct Hbenign as [HS _].
  destruct (HS val (Hval Hc HF)) as (t' & Ht' & Hb). destruct Hc as [_ ->].
  congruence.
Qed.

Lemma decide_step fuel :
  analyze_spec fuel → decide_spec fuel → decide_spec (Datatypes.S fuel).
Proof.
  intros IHa IHd pending p val seen l Hinv Hact Hval. cbn [decide].
  case_bool_decide as Hseen.
  { wp_step. split; [apply evolves_refl|done]. }
  wp_step. apply wp_valueAt; [by eapply inv_safe|]. intros t Ht.
  assert (Fcond l → isF l p → benignValue (allowed l) F S t = true) as Hben.
  { intros Hc HF. eapply benign_value; eauto. }
  assert (∀ why_ l1, evolves l l1 → inv pending l1 → why_ ≠ [] →
            (Fcond l → isF l p → False) →
            wp safe (markDirty rng fuel p why_ ≫= λ _, mret ({[val]} ∪ seen))
               (λ _ l', evolves l l' ∧ inv pending l') l1) as Hmark.
  { intros why_ l1 Hev1 Hinv1 Hne Hno. wp_step. eapply wp_mono.
    - apply wp_markDirty; [done|by eapply activeAt_evolves| |done].
      intros Hc HF. apply Hno; [by eapply Fcond_evolves|].
      destruct Hact as (sp & Hsp & _). by eapply isF_evolves_back.
    - intros [] l2 (Hev2 & Hinv2). wp_step. split; [by eapply evolves_trans|done]. }
  assert (∀ x seen', (Fcond l → isF l p → x ∈ S) →
            wp safe (decide pgm rng fuel p x seen')
               (λ _ l', evolves l l' ∧ inv pending l') l) as Hrec.
  { intros x seen' Hx. by apply IHd. }
  destruct t as [[callee|] ty|isNil ty|tuple idx ty|x ty|edges ty
                 |x asserted commaOk|op x commaOk ty|descr ty].
  - (* a call with a static callee *)
    wp_step. eapply wp_mono; [by apply (wp_stat pending)|].
    intros next l1 (Hev1 & Hinv1 & Hnext).
    wp_step. eapply wp_mono; [by apply IHa|].
    intros [] l2 (Hev2 & Hinv2 & _).
    assert (evolves l l2) as Hev02 by (by eapply evolves_trans).
    wp_step. apply wp_load; [by eapply inv_safe|]. intros n Hn.
    assert (fstate n ≠ stateClean → fn n = Some callee) as Hfn.
    { intros Hnc. destruct Hnext as [->|(s1 & Hs1 & Hf1)].
      - rewrite (s_clean _ (inv_safe _ _ Hinv2)) in Hn. by injection Hn as <-.
      - destruct Hev2 as (_ & _ & He2). destruct (He2 _ _ Hs1) as (s2 & Hs2 & Hf2 & _).
        congruence. }
    assert (Fcond l → isF l p → callee ∈ F) as HcF.
    { intros Hc HF. specialize (Hben Hc HF). simpl in Hben.
      by apply bool_decide_eq_true in Hben. }
    destruct (fstate n) eqn:Hstate.
    + (* unknown: register for future dirtying *)
      apply wp_bind. apply wp_update; [by eapply inv_safe|]. intros n' Hn'.
      rewrite Hn in Hn'. injection Hn' as <-.
      destruct (inv_written pending next n
                  (set_dirties (<[p:=val]> (dirties n)) n) l2) as [Hinv3 Hev3]; side.
      { congruence. } { congruence. }
      { intros q v Hq. simpl in Hq.
        apply lookup_insert_Some in Hq as [[<- <-]|[_ Hq]]; [right|by left].
        split; [by eapply activeAt_evolves|].
        intros Hc HF. exists n, callee. split; [done|]. split; [apply Hfn; congruence|].
        apply HcF; [by eapply Fcond_evolves|].
        destruct Hact as (sp & Hsp & _). by eapply isF_evolves_back. }
      { simpl. congruence. }
      { intros Hc f Hf HF. simpl. split; [congruence|].
        by apply (i_results _ _ Hinv2 Hc next n f). }
      wp_step. split; [by eapply evolves_trans|done].
    + (* analyzing: register for future dirtying *)
      apply wp_bind. apply wp_update; [by eapply inv_safe|]. intros n' Hn'.
      rewrite Hn in Hn'. injection Hn' as <-.
      destruct (inv_written pending next n
                  (set_dirties (<[p:=val]> (dirties n)) n) l2) as [Hinv3 Hev3]; side.
      { congruence. } { congruence. }
      { intros q v Hq. simpl in Hq.
        apply lookup_insert_Some in Hq as [[<- <-]|[_ Hq]]; [right|by left].
        split; [by eapply activeAt_evolves|].
        intros Hc HF. exists n, callee. split; [done|]. split; [apply Hfn; congruence|].
        apply HcF; [by eapply Fcond_evolves|].
        destruct Hact as (sp & Hsp & _). by eapply isF_evolves_back. }
      { simpl. congruence. }
      { intros Hc f Hf HF. simpl. split; [congruence|].
        by apply (i_results _ _ Hinv2 Hc next n f). }
      wp_step. split; [by eapply evolves_trans|done].
    + wp_step. done.
    + apply Hmark; [done|done|done|].
      intros Hc HF.
      assert (Fcond l2) as Hc2.
      { destruct Hev02 as (Ht2 & Ha2 & _). destruct Hc. split; congruence. }
      apply (s_F _ (inv_safe _ _ Hinv2) Hc2 next n callee); auto.
  - (* a call without *)
    apply Hmark; [apply evolves_refl|done|done|].
    intros Hc HF. by specialize (Hben Hc HF).
  - destruct isNil; [wp_step; split; [apply evolves_refl|done]|].
    wp_step. apply wp_isAllowed; [by eapply inv_safe|]. intros ok Hok.
    destruct ok; [wp_step; split; [apply evolves_refl|done]|].
    apply Hmark; [apply evolves_refl|done|done|].
    intros Hc HF. specialize (Hben Hc HF). simpl in Hben.
    apply bool_decide_eq_true in Hben. congruence.
  - apply Hrec. intros Hc HF. specialize (Hben Hc HF). simpl in Hben.
    by apply bool_decide_eq_true in Hben.
  - apply Hrec. intros Hc HF. specialize (Hben Hc HF). simpl in Hben.
    by apply bool_decide_eq_true in Hben.
  - eapply wp_mono.
    { apply (wp_foldM safe (λ (_ : gset Val) rest l',
                evolves l l' ∧ inv pending l' ∧ ∀ e, e ∈ rest → e ∈ edges)).
      2: { split; [apply evolves_refl|done]. }
      intros seen' e rest l' (Hev' & Hinv' & Hin).
      eapply wp_mono.
      { apply IHd; [done|by eapply activeAt_evolves|].
        intros Hc' HF'. 
        pose proof (Fcond_evolves _ _ Hev' Hc') as Hc.
        assert (isF l p) as HF.
        { destruct Hact as (sp & Hsp & _). by eapply isF_evolves_back. }
        specialize (Hben Hc HF). simpl in Hben.
        rewrite forallb_forall in Hben. specialize (Hben e).
        eapply bool_decide_eq_true_1, Hben. apply list_elem_of_In, Hin. set_solver. }
      intros seen'' l'' (Hev'' & Hinv''). split; [by eapply evolves_trans|].
      split; [done|]. intros x Hx. apply Hin. set_solver. }
    intros seen' l' (Hev' & Hinv' & _). done.
  - wp_step. apply wp_isAllowed; [by eapply inv_safe|]. intros ok Hok.
    destruct ok; [wp_step; split; [apply evolves_refl|done]|].
    apply Hmark; [apply evolves_refl|done|done|].
    intros Hc HF. specialize (Hben Hc HF). simpl in Hben.
    apply bool_decide_eq_true in Hben. congruence.
  - case_bool_decide; [|wp_step; split; [apply evolves_refl|done]].
    apply Hrec. intros Hc HF. specialize (Hben Hc HF). simpl in Hben.
    rewrite bool_decide_true in Hben by done. by apply bool_decide_eq_true in Hben.
  - wp_step. apply wp_isAllowed; [by eapply inv_safe|]. intros ok Hok.
    destruct ok; [wp_step; split; [apply evolves_refl|done]|].
    apply Hmark; [apply evolves_refl|done|done|].
    intros Hc HF. specialize (Hben Hc HF). simpl in Hben.
    apply bool_decide_eq_true in Hben. simpl in Hok. congruence.
Qed.

Lemma analyze_decide_spec fuel : analyze_spec fuel ∧ decide_spec fuel.
Proof.
  induction fuel as [|fuel [IHa IHd]].
  - split.
    + intros pending p l Hinv. apply wp_outOfFuel. by eapply inv_safe.
    + intros pending p val seen l Hinv _ _. apply wp_outOfFuel. by eapply inv_safe.
  - split; [by apply analyze_step|by apply decide_step].
Qed.

(** *** The rounds of the work list *)

Lemma inv_take_work l : inv [] l → inv (work l) (set_work [] l).
Proof.
  intros [[Hj Hc Hfn HF] Hd Hw Hr HF2 Hst]. split; [split|..]; try done.
  intros f p Hp. destruct (Hst _ _ Hp) as [?|[?|Hin]]; [by left|by right; right|].
  by apply elem_of_nil in Hin.
Qed.

Lemma inv_pending_drop x rest l :
  inv (x :: rest) l → settledAt l x → inv rest l.
Proof.
  intros [[Hj Hc Hfn HF] Hd Hw Hr HF2 Hst] Hx. split; [split|..]; try done.
  intros f p Hp. destruct (Hst _ _ Hp) as [?|[?|Hin]]; [by left|by right; left|].
  apply elem_of_cons in Hin as [->|?]; [by left|by right; right].
Qed.

Lemma wp_workLoop fuel l :
  inv [] l →
  wp safe (workLoop pgm rng fuel) (λ _ l', inv [] l' ∧ work l' = []) l.
Proof.
  revert l. induction fuel as [|fuel IH]; intros l Hinv.
  { apply wp_outOfFuel. by eapply inv_safe. }
  cbn [workLoop]. wp_step. wp_step.
  destruct (work l) as [|x w] eqn:Hwork; [by wp_step|].
  wp_step. wp_step. wp_step.
  pose proof (inv_take_work l Hinv) as Hinv1. rewrite Hwork in Hinv1.
  eapply wp_mono.
  { apply (wp_forEach safe (λ rest l', inv rest l')); [|done].
    intros y rest l' Hinv'. eapply wp_mono.
    - by apply (proj1 (analyze_decide_spec fuel)).
    - intros [] l'' (_ & Hinv'' & Hset). by eapply inv_pending_drop. }
  intros [] l' Hinv'. by apply IH.
Qed.

Lemma wp_bootstrap l :
  inv [] l → wp safe (bootstrap pgm) (λ _ l', inv [] l') l.
Proof.
  intros Hinv. unfold bootstrap.
  assert (∀ f l, inv [] l → wp safe (stat pgm f ≫= λ _, mret ()) (λ _ l', inv [] l') l)
    as Hstat.
  { intros f l0 Hinv0. wp_step. eapply wp_mono; [by apply (wp_stat [])|].
    intros p l1 (_ & Hinv1 & _). by wp_step. }
  assert (∀ ms l, inv [] l → wp safe (statMethods pgm ms) (λ _ l', inv [] l') l)
    as Hms.
  { intros ms l0 Hinv0. unfold statMethods.
    apply (wp_forEach safe (λ _ l', inv [] l')); [|done].
    intros [f|] rest l1 Hinv1; [by apply Hstat|by wp_step]. }
  apply (wp_forEach safe (λ _ l', inv [] l')); [|done].
  intros pkg rest l1 Hinv1.
  apply (wp_forEach safe (λ _ l', inv [] l')); [|done].
  intros [f|vms pms|] rest' l2 Hinv2; [by apply Hstat| |by wp_step].
  wp_step. eapply wp_mono; [by apply Hms|]. intros [] l3 Hinv3. by apply Hms.
Qed.

(** *** Settling, and the result *)

Lemma safe_written p s s' l :
  safe l → store l !! p = Some s → fstate s ≠ stateClean → fstate s ≠ stateDirty →
  fn s' = fn s → fstate s' ≠ stateDirty →
  safe (written p s s' l).
Proof.
  intros [Hj Hc Hfn HF] Hs Hnc Hnd Hfn' Hnd'.
  assert (p ≠ cleanPtr) as Hp0.
  { intros ->. rewrite Hc in Hs. by simplify_eq. }
  split.
  - intros w Hw'. unfold written in Hw'. simpl in Hw'.
    apply elem_of_app in Hw' as [?|Hw']; [by apply Hj|].
    apply list_elem_of_singleton in Hw' as ->. by split.
  - apply lookup_written; [done|]. right. by split.
  - intros f q Hq. destruct (Hfn _ _ Hq) as [->|(sq & Hsq & Hfq)]; [by left|].
    right. destruct (base.decide (q = p)) as [->|Hne].
    + simplify_eq. exists s'. split; [|congruence]. apply lookup_written; auto.
    + exists sq. split; [|done]. apply lookup_written; auto.
  - intros Hcond q sq f Hq Hf Hin.
    apply (lookup_written _ _ _ _ _ _ Hs) in Hq as [[-> ->]|[Hne Hq]]; [done|].
    by eapply HF.
Qed.

Lemma wp_settle l :
  safe l → (∀ f p, stats l !! f = Some p → settledAt l p) →
  wp safe (settle rng) (λ _ l', safe l' ∧ settled l') l.
Proof.
  intros Hsafe Hset. unfold settle. wp_step. wp_step.
  eapply wp_mono.
  { apply (wp_forEach safe (λ rest l',
      safe l' ∧ stats l' = stats l
      ∧ ∀ f p, stats l !! f = Some p →
          ∃ s, store l' !! p = Some s ∧ fstate s ≠ stateUnknown
               ∧ ((∀ x, x ∈ rest → x.2 ≠ p) → fstate s ≠ stateAnalyzing))).
    - intros [f0 p0] rest l' (Hsafe' & Hstats' & Hall).
      wp_step. apply wp_load; [done|]. intros s0 Hs0.
      case_bool_decide as Han.
      + apply wp_update; [done|]. intros s0' Hs0'. rewrite Hs0 in Hs0'.
        injection Hs0' as <-.
        split; [apply safe_written; try done; congruence|]. split; [done|].
        intros f p Hp. destruct (Hall _ _ Hp) as (sp & Hsp & Hnu & Hna).
        destruct (base.decide (p = p0)) as [->|Hne].
        * exists (set_fstate stateClean s0). split; [apply lookup_written; auto|].
          done.
        * exists sp. split; [apply lookup_written; auto|]. split; [done|].
          intros Hrest. apply Hna. intros x Hx.
          apply elem_of_cons in Hx as [->|Hx]; [done|by apply Hrest].
      + wp_step. split; [done|]. split; [done|].
        intros f p Hp. destruct (Hall _ _ Hp) as (sp & Hsp & Hnu & Hna).
        exists sp. split; [done|]. split; [done|].
        intros Hrest. destruct (base.decide (p = p0)) as [->|Hne]; [congruence|].
        apply Hna. intros x Hx.
        apply elem_of_cons in Hx as [->|Hx]; [done|by apply Hrest].
    - split; [done|]. split; [done|]. intros f p Hp.
      destruct (Hset _ _ Hp) as (sp & Hsp & Hnu). exists sp. split; [done|].
      split; [done|]. intros Hrest. exfalso.
      apply (Hrest (f, p)); [|done].
      rewrite (proj2 Hrng _). by apply elem_of_map_to_list. }
  intros [] l' (Hsafe' & Hstats' & Hall). split; [done|].
  intros f p Hp. rewrite Hstats' in Hp.
  destruct (Hall _ _ Hp) as (sp & Hsp & Hnu & Hna). exists sp. split; [done|].
  specialize (Hna ltac:(by intros x ?%elem_of_nil)).
  destruct (fstate sp); auto; done.
Qed.

Lemma wp_dirtyFunctions l (Φ : list StatPtr → RetLint → Prop) :
  safe l → (∀ ret, Φ ret l) → wp safe (dirtyFunctions pgm rng) Φ l.
Proof.
  intros Hsafe HΦ. unfold dirtyFunctions. wp_step. wp_step.
  eapply wp_mono.
  { apply (wp_foldM safe (λ _ _ l', l' = l)); [|done].
    intros ret [f p] rest l' ->. wp_step. apply wp_load; [done|]. intros s Hs.
    case_bool_decide; [|by wp_step].
    destruct (fnOf pgm s) as [fd|]; [|by apply wp_panic].
    by destruct (IsExported (Name fd) && inInput pgm (Pkg fd)); wp_step. }
  intros ret l' ->. apply HΦ.
Qed.

(** *** From the configuration to the result *)

Lemma pristine_inv l : pristine l → inv [] l.
Proof.
  intros (Hst & Hj & Hs & Hw).
  assert (∀ p s, store l !! p = Some s → p = cleanPtr ∧ s = clean) as Hone.
  { intros p s Hp. rewrite Hst in Hp. destruct p as [|p]; simpl in Hp; [|done].
    by injection Hp as <-. }
  split; [split|..].
  - intros w Hw'. rewrite Hj in Hw'. by apply elem_of_nil in Hw'.
  - by rewrite Hst.
  - intros f p Hp. by rewrite Hs, lookup_empty in Hp.
  - intros _ p s f Hp Hf. destruct (Hone _ _ Hp) as [-> ->]. done.
  - intros p s q v Hp Hv. destruct (Hone _ _ Hp) as [-> ->].
    simpl in Hv. by rewrite lookup_empty in Hv.
  - intros p s Hp. by destruct (Hone _ _ Hp) as [-> ->].
  - intros _ p s f Hp Hf. by destruct (Hone _ _ Hp) as [-> ->].
  - intros _ p s q v Hp Hv. destruct (Hone _ _ Hp) as [-> ->].
    simpl in Hv. by rewrite lookup_empty in Hv.
  - intros f p Hp. by rewrite Hs, lookup_empty in Hp.
Qed.

Lemma pristine_safe l : pristine l → safe l.
Proof. intros Hp. eapply inv_safe. by apply pristine_inv. Qed.

Lemma pristine_settled l : pristine l → settled l.
Proof. intros (_ & _ & Hs & _) f p Hp. by rewrite Hs, lookup_empty in Hp. Qed.

Lemma wp_resolve name Φ l :
  safe l → (∀ r, Φ r l) → wp safe (resolve pgm name) Φ l.
Proof.
  intros Hsafe HΦ. unfold resolve. destruct (path_Split name) as [tgtPath tgtName].
  wp_step. case_bool_decide.
  - destruct (Universe pgm !! tgtName) as [t|]; [|by apply wp_panic].
    wp_step. by destruct t; wp_step.
  - wp_step. destruct (findInPackages _ _ _) as [[]|]; by wp_step.
Qed.

Lemma wp_resolveAllowed names Φ l :
  pristine l → (∀ r l', pristine l' → Φ r l') →
  wp safe (resolveAllowed pgm names) Φ l.
Proof.
  revert l. induction names as [|a names IH]; intros l Hp HΦ.
  { cbn [resolveAllowed]. wp_step. by apply HΦ. }
  cbn [resolveAllowed]. wp_step. apply wp_resolve; [by apply pristine_safe|].
  intros [found|err]; [|wp_step; by apply HΦ].
  wp_step. wp_step. by apply IH.
Qed.

Lemma wp_Execute fuel tn an :
  wp safe (Execute pgm rng fuel) (λ _ l', safe l' ∧ settled l') (configure tn an).
Proof.
  unfold Execute. set (l0 := configure tn an).
  assert (pristine l0) as Hp0 by done.
  wp_step. wp_step.
  case_bool_decide.
  { wp_step. split; [by apply pristine_safe|by apply pristine_settled]. }
  wp_step. wp_step. wp_step. wp_step.
  set (l1 := set_stats _ _). assert (pristine l1) as Hp1 by done.
  destruct (loadError pgm).
  { wp_step. split; [by apply pristine_safe|by apply pristine_settled]. }
  wp_step. apply wp_resolve; [by apply pristine_safe|].
  intros [found|err];
    [|wp_step; split; [by apply pristine_safe|by apply pristine_settled]].
  wp_step. wp_step. wp_step.
  apply wp_resolveAllowed; [done|]. intros [err|] l2 Hp2.
  { wp_step. split; [by apply pristine_safe|by apply pristine_settled]. }
  wp_step. eapply wp_mono; [apply wp_bootstrap; by apply pristine_inv|].
  intros [] l3 Hinv3.
  wp_step. eapply wp_mono; [by apply wp_workLoop|].
  intros [] l4 (Hinv4 & Hwork4).
  wp_step. eapply wp_mono.
  { apply wp_settle; [by eapply inv_safe|].
    intros f p Hfp. destruct (i_stats _ _ Hinv4 _ _ Hfp) as [?|[Hin|Hin]]; [done| |].
    - rewrite Hwork4 in Hin. by apply elem_of_nil in Hin.
    - by apply elem_of_nil in Hin. }
  intros [] l5 (Hsafe5 & Hset5).
  wp_step. apply wp_dirtyFunctions; [done|]. intros ret. by wp_step.
Qed.

End Invariants.

Lemma benignb_benign pgm tgt Aset F S :
  benignb pgm tgt Aset F S = true → benign pgm tgt Aset F S.
Proof.
  unfold benignb, benign. intros [HS HF]%andb_true_iff.
  rewrite forallb_forall in HS. rewrite forallb_forall in HF. split.
  - intros v Hv. apply elem_of_elements, list_elem_of_In, HS in Hv.
    match type of Hv with context [match ?x with _ => _ end] =>
      destruct x as [t|] eqn:E end; [|discriminate Hv].
    exists t. split; [exact E|exact Hv].
  - intros f Hf. apply elem_of_elements, list_elem_of_In, HF in Hf.
    match type of Hf with context [match ?x with Some _ => _ | None => false end] =>
      destruct x as [fd|] eqn:E end; [|discriminate Hf].
    change (functions pgm !! f = Some fd) in E. rename Hf into HF'.
    exists fd. split; [done|].
    intros results Hres. rewrite Hres in HF'.
    rewrite forallb_forall in HF'. clear HF. rename HF' into HF.
    apply Forall_forall. intros ret Hret.
    specialize (HF ret (proj1 (list_elem_of_In _ _) Hret)).
    rewrite forallb_forall in HF. apply Forall_forall. intros idx Hidx.
    specialize (HF idx (proj1 (list_elem_of_In _ _) Hidx)).
    destruct (ret !! idx) as [v|]; [|done]. exists v. split; [done|].
    by apply bool_decide_eq_true in HF.
Qed.

Lemma Execute_safe pgm tgt Aset F S rng fuel tn an :
  benign pgm tgt Aset F S → ranges rng →
  let o := Execute pgm rng fuel (configure tn an) in
  safe tgt Aset F (final o) ∧ (∀ r l, o = Done r l → settled l).
Proof.
  intros Hb Hrng o.
  pose proof (wp_Execute pgm tgt Aset F S Hb rng Hrng fuel tn an) as Hwp.
  unfold wp in Hwp. fold o in Hwp. destruct o as [r l|x l|l]; simpl.
  - destruct Hwp. split; [done|]. by intros ? ? [= <- <-].
  - split; [done|]. by intros.
  - split; [done|]. by intros.
Qed.

(** C4. Through a run of Execute, in whatever order it ranges over its
    maps, a record that is Clean is never written to, a Dirty record is
    only ever given a strictly shorter [why] (or rewritten as it is),
    and when Execute returns every record it holds for a function is
    Clean or Dirty, none Analyzing or Unknown. *)
Theorem C4_states_never_regress (pgm : Program) (rng : ranging) (fuel : nat)
    (targetName : string) (allowedNames : list string) :
  ranges rng →
  let o := Execute pgm rng fuel (configure targetName allowedNames) in
  (∀ w, w ∈ journal (final o) → legal w)
  ∧ (∀ r l, o = Done r l →
       ∀ f s, statOf l f = Some s →
         fstate s = stateClean ∨ fstate s = stateDirty).
Proof.
  intros Hrng o.
  destruct (Execute_safe pgm "" ∅ ∅ ∅ rng fuel targetName allowedNames)
    as [Hs Hd]; [|done|].
  { split; intros x Hx; by apply not_elem_of_empty in Hx. }
  split; [by apply (s_journal _ _ _ _ Hs)|].
  intros r l Ho f s Hstat. unfold statOf in Hstat.
  destruct (stats l !! f) as [p|] eqn:Hp; [|done]. simpl in Hstat.
  destruct (Hd r l Ho f p Hp) as (s' & Hs' & Hfin).
  pose proof (eq_trans (eq_sym Hs') Hstat) as [= ->]. done.
Qed.


(** ** Where the analysis departs from what is said of it *)

Section Departures.

Variable pgm : Program.
Variable rng : ranging.

(** C3 (fails for the other unary operators): on a unary operation
    whose operator is not [*], a receive for one, [decide] records the
    value as seen and returns; the state is as it was, whatever the
    type of the value. *)
Theorem C3_other_unary_operators_are_ignored (fuel : nat) (p : StatPtr)
    (val : Val) (seen : gset Val) (l : RetLint)
    (op : Token) (x : Val) (commaOk : bool) (ty : Ty) :
  values pgm !! val = Some (UnOp op x commaOk ty) →
  op ≠ MUL →
  val ∉ seen →
  decide pgm rng (Datatypes.S fuel) p val seen l = Done ({[val]} ∪ seen) l.
Proof.
  intros Hval Hop Hseen. cbn [decide].
  rewrite bool_decide_eq_false_2 by done.
  unfold mbind, M_bind, valueAt.
  rewrite Hval. cbn.
  by rewrite bool_decide_eq_false_2 by done.
Qed.

(** C10 (fails for a lookup with two results): on the projection of a
    value of tuple type that no rule of [decide] names, a map lookup
    [v, ok := m[k]] for one, [decide] follows the projection to the
    tuple and [isAllowed] panics on its type. *)
Theorem C10_tuple_reaches_isAllowed (fuel : nat) (p : StatPtr)
    (val tuple : Val) (seen : gset Val) (l : RetLint)
    (idx : nat) (ty : Ty) (descr : string) (tys : list Ty) :
  values pgm !! val = Some (Extract tuple idx ty) →
  values pgm !! tuple = Some (Other descr (Tuple tys)) →
  val ∉ seen →
  tuple ∉ seen →
  decide pgm rng (Datatypes.S (Datatypes.S fuel)) p val seen l
    = Panicked tuplePanic l.
Proof.
  intros Hval Htuple Hseen Hseen'.
  assert (tuple ≠ val) as Hne by congruence.
  cbn [decide].
  rewrite bool_decide_eq_false_2 by done.
  unfold mbind at 1. unfold M_bind at 1. unfold valueAt at 1.
  rewrite Hval. cbn [decide mret M_ret].
  rewrite bool_decide_eq_false_2 by set_solver.
  unfold mbind, M_bind, valueAt.
  rewrite Htuple. by cbn.
Qed.

(** C8 (fails for a simple name): when the target name has no slash
    and the universe scope does not know it, [Execute] panics on the
    nil object; it does not return an error. *)
Theorem C8_unknown_simple_name_panics (fuel : nat)
    (targetName : string) (allowedNames : list string) :
  targetName ≠ "" →
  loadError pgm = None →
  path_Split targetName = ("", targetName) →
  Universe pgm !! targetName = None →
  ∃ l, Execute pgm rng fuel (configure targetName allowedNames)
       = Panicked nilDereference l.
Proof.
  intros Hname Hload Hsplit Huniverse. eexists.
  unfold Execute, mbind, M_bind, get. simpl.
  rewrite bool_decide_eq_false_2 by done. simpl.
  rewrite Hload. unfold resolve. rewrite Hsplit. simpl.
  rewrite Huniverse. by simpl.
Qed.

End Departures.

(** ** The analysis on the programs of the examples *)

Import RetlintExamples.

Lemma inOrder_ranges : ranges inOrder.
Proof. by split. Qed.

(** C1 (fails): [LongFirst] returns the result of [Helper], which is
    dirty, and further down a [*BadError] of its own. The analysis
    stops at the first return that makes the function dirty: the stored
    explanation has two hops, through [Helper], and the one-hop path
    through the second return is never looked at. *)
Theorem C1_stored_why_is_not_the_shortest :
  let o := Execute longFirst inOrder 20 linter in
  (snd <$> returned o) = Some None
  ∧ (fstate <$> statOf (final o) LongFirst) = Some stateDirty
  ∧ (length ∘ why <$> statOf (final o) LongFirst) = Some 2
  ∧ dirtyFn longFirst "error" (allowed (final o)) LongFirst 1.
Proof.
  split; [by vm_compute|]. split; [by vm_compute|]. split; [by vm_compute|].
  exists (func "LongFirst" [[OtherInstr]; [OtherInstr; Return [2]];
                            [OtherInstr; Return [4]]]),
    [tError], [4], 0, 4.
  split; [done|]. split; [done|].
  split; [by vm_compute; right; left|].
  split; [by vm_compute; left|]. split; [done|].
  eapply dp_wrap; [done|]. eapply dp_other; [done|]. by vm_compute.
Qed.



(** C3, on [Recv]: the value returned is of type [error], which is not
    allowed, and the function ends Clean. *)
Lemma C3_receive_witness :
  let o := Execute recv inOrder 20 linter in
  decide recv inOrder 1 1 1 ∅ linter = Done {[1]} linter
  ∧ isAllowed_pure (allowed (final o)) tError = Some false
  ∧ (snd <$> returned o) = Some None
  ∧ (fstate <$> statOf (final o) Recv) = Some stateClean.
Proof.
  split; [|by vm_compute].
  rewrite (C3_other_unary_operators_are_ignored recv inOrder 0 1 1 ∅ linter
             ARROW 0 false tError); [|done..].
  by vm_compute.
Defined.

(** C4, on the run of [longFirst]. *)
Lemma C4_states_witness :
  Forall legal (journal (final (Execute longFirst inOrder 20 linter))).
Proof.
  apply Forall_forall.
  apply (C4_states_never_regress longFirst inOrder 20 "error" allowedNames
           inOrder_ranges).
Defined.

(** C8, on the target name [eror]; the qualified name [testdata/Eror],
    unknown as well, is reported as an error. *)
Lemma C8_unknown_name_witness :
  (∃ l, Execute good inOrder 20 (configure "eror" allowedNames)
        = Panicked nilDereference l)
  ∧ returned (Execute good inOrder 20 (configure "testdata/Eror" allowedNames))
    = Some ([], Some ("unable to find type " +:+ quote "testdata/Eror")).
Proof.
  split; [by apply C8_unknown_simple_name_panics|by vm_compute].
Defined.

(** C10, on [Get]: the analysis of the function panics. *)
Lemma C10_lookup_witness :
  decide lookup inOrder 2 1 2 ∅ linter = Panicked tuplePanic linter
  ∧ ∃ l, Execute lookup inOrder 20 linter
         = Panicked (PanicError
             "Get: should not see a tuple type; unpack in extract()") l.
Proof.
  split.
  - by apply (C10_tuple_reaches_isAllowed lookup inOrder 0 1 2 1 ∅ linter 0
                tError "m[k],ok" [tError; OtherType "bool"]).
  - eexists. by vm_compute.
Defined.

End RetlintFacts.

(* ================================================================== *)
(** * More about the enforcement runtime *)
(* ================================================================== *)

Module RtMore.
Import Rt RtFacts.

(** ** The results of a run *)

Section Results.

Context {I : Type} `{Contract I}.

Implicit Types (r : @report I) (reports : list (@report I)).

Lemma collect_snoc reports r :
  collect (reports ++ [r])
  = <[r_pos r := default [] (collect reports !! r_pos r) ++ [resultMsg r]]>
      (collect reports).
Proof. unfold collect. by rewrite foldl_app. Qed.

Lemma collect_lookup reports p :
  collect reports !! p
  = match reportsAt p reports with
    | [] => None
    | rs => Some (resultMsg <$> rs)
    end.
Proof.
  induction reports as [|r reports IH] using rev_ind; [done|].
  rewrite collect_snoc. unfold reportsAt in *. rewrite filter_app.
  rewrite filter_cons, filter_nil.
  destruct (base.decide (r_pos r = p)) as [Heq|Hne].
  - rewrite Heq, lookup_insert_eq, IH.
    destruct (filter _ reports) as [|r0 rs]; [done|].
    simpl. by rewrite fmap_app.
  - rewrite lookup_insert_ne by done. rewrite IH. by rewrite app_nil_r.
Qed.

Lemma countReports_insert (m : gmap nat (list string)) p msgs :
  countReports (<[p := msgs]> m) + length (default [] (m !! p))
  = countReports m + length msgs.
Proof.
  unfold countReports.
  assert (∀ (m' : gmap nat (list string)) (j1 j2 : nat) (z1 z2 : list string)
            (y : nat),
            length z1 + (length z2 + y) = length z2 + (length z1 + y)) as Hcomm
    by (intros; lia).
  destruct (m !! p) as [old|] eqn:Hp; simpl.
  - rewrite <- (insert_delete_eq m p msgs).
    rewrite map_fold_insert_L; [|intros; lia|by rewrite lookup_delete_eq].
    rewrite (map_fold_delete_L _ _ p old m); [|intros; lia|done]. lia.
  - rewrite map_fold_insert_L; [|intros; lia|done]. lia.
Qed.

(** The aggregator of [Execute] loses no report and keeps them apart by
    position: under each position it holds the messages of the reports
    for that position, in the order they arrived, and no entry is
    empty; the messages number as many as the reports. *)
Theorem Results_hold_every_report reports :
  (∀ p, collect reports !! p
        = match reportsAt p reports with
          | [] => None
          | rs => Some (resultMsg <$> rs)
          end)
  ∧ countReports (collect reports) = length reports.
Proof.
  split; [apply collect_lookup|].
  induction reports as [|r reports IH] using rev_ind; [done|].
  rewrite collect_snoc, length_app. simpl.
  pose proof (countReports_insert (collect reports) (r_pos r)
    (default [] (collect reports !! r_pos r) ++ [resultMsg r])) as Hc.
  rewrite length_app in Hc. simpl in Hc. lia.
Qed.

End Results.

(** ** What expansion hands out *)

Section Expanded.

Context {I : Type} `{Contract I}.

Implicit Types (e : @Enforcer I) (x : @expansion I) (t a base : @target I)
  (ws : list (@target I)).

Lemma keys_append c0 more x c :
  is_Some (x_aliases (appendNonTerm c0 more x) !! c)
  ↔ is_Some (x_aliases x !! c).
Proof.
  unfold appendNonTerm. destruct (x_nonTerm x); [|done].
  destruct (x_aliases x !! c0) as [s|] eqn:Hs; [|done].
  case_bool_decide; [|done]. simpl.
  destruct (base.decide (c = c0)) as [->|Hne].
  - rewrite lookup_insert_eq, Hs. split; by eauto.
  - by rewrite lookup_insert_ne.
Qed.

Lemma term_stepWork_dup base a x t :
  t ∈ x_term (stepWork base a x) →
  t ∈ x_term x
  ∨ (x_aliases x !! contract a = None ∧ t = dup base a (x_nextAddr x)).
Proof.
  unfold stepWork. simpl. destruct (x_aliases x !! contract a).
  - rewrite term_append. by left.
  - simpl. intros [?|Ht%list_elem_of_singleton]%elem_of_app; [by left|].
    right. by subst.
Qed.

Lemma gathering_step base (m0 : gmap string (@slice I)) a ws x :
  gathering base m0 x (a :: ws) → addr a ∉ x_seen x →
  gathering base m0 (stepWork base a x) ws.
Proof.
  intros (Hkeys & Hw & Hterm) Hseen. split; [|split].
  - intros c. rewrite <- Hkeys. unfold stepWork.
    destruct (x_aliases x !! contract a); [|done]. by rewrite keys_append.
  - by apply within_step.
  - intros t [Ht|[Hnone ->]]%term_stepWork_dup; [by apply Hterm|].
    split; [|split; [done|]].
    + simpl. destruct (m0 !! contract a) eqn:Hm; [|done].
      assert (is_Some (x_aliases x !! contract a)) as [? ?]
        by (apply Hkeys; eauto). congruence.
    + exists a. split; [|done]. destruct Hw as (_ & _ & Hws). apply Hws. left.
Qed.

Lemma expandLoop_gathering base (m0 : gmap string (@slice I)) fuel x x' :
  gathering base m0 x [] →
  expandLoop fuel base x = Some (x', None) →
  ∀ t, t ∈ x_term x' → handedOut base m0 t.
Proof.
  revert x. induction fuel as [|fuel IH]; intros x Hx Hrun; [done|].
  rewrite expandLoop_S in Hrun.
  destruct (readNonTerm (contract base) x) as [|a ws] eqn:Hread.
  { simplify_eq. by destruct Hx as (_ & _ & ?). }
  destruct (expandWork base (a :: ws) (resetNonTerm x)) as [y [err|]] eqn:Hw;
    [done|].
  eapply (IH y); [|done].
  apply (expandWork_inv base (gathering base m0) (gathering_step base m0)
           (a :: ws) (resetNonTerm x) y None); [|done].
  destruct Hx as (Hkeys & Hwithin & Hterm). split; [|split].
  - by destruct x.
  - rewrite <- Hread. by apply within_reset.
  - by destruct x.
Qed.

(** [expand], when it succeeds, hands out targets that are the
    annotation itself but for the contract and the configuration, which
    are those of the annotation (when it names no alias) or of an entry
    of the alias table; no target handed out names an alias. *)
Theorem expand_hands_out_contracts e base ts e' :
  expand e base = Some (ts, None, e') →
  ∀ t, t ∈ ts →
    aliases e !! contract t = None
    ∧ t = dup base t (addr t)
    ∧ (t = base
       ∨ ∃ a, a ∈ tableTargets (aliases e)
              ∧ contract t = contract a ∧ config t = config a).
Proof.
  unfold expand. destruct (aliases e !! contract base) as [s|] eqn:Hs.
  - destruct (expandLoop _ _ _) as [[x [err|]]|] eqn:Hrun; simpl; [done| |done].
    intros [= <- <-] t Ht.
    unfold sortTargets in Ht. rewrite merge_sort_Permutation in Ht.
    assert (handedOut base (aliases e) t) as (Hnone & Hdup & Hfrom);
      [|by auto].
    eapply expandLoop_gathering; [|done|done].
    split; [done|]. split; [|by intros ? ?%elem_of_nil].
    split; [|split; [|by intros ? ?%elem_of_nil]].
    + intros t' Ht'. unfold readNonTerm in Ht'. simpl in Ht'. rewrite Hs in Ht'.
      eapply tableTargets_elem; [done|]. by eapply in_take.
    + intros c s' t' Hc Ht'. by eapply tableTargets_elem.
  - intros [= <- <-] t ->%list_elem_of_singleton.
    split; [done|]. split; [by destruct base|by left].
Qed.

Lemma expandWork_flat base ws x :
  (∀ a, a ∈ ws → x_aliases x !! contract a = None) →
  NoDup (addrs ws) →
  (∀ a, a ∈ ws → addr a ∉ x_seen x) →
  ∃ x', expandWork base ws x = (x', None)
        ∧ x_aliases x' = x_aliases x ∧ x_nonTerm x' = x_nonTerm x
        ∧ x_term x' = x_term x ++ imap (λ i a, dup base a (x_nextAddr x + i)) ws
        ∧ x_nextAddr x' = x_nextAddr x + length ws.
Proof.
  revert x. induction ws as [|a ws IH]; intros x Hplain Hnd Hseen.
  - exists x. simpl. by rewrite app_nil_r, Nat.add_0_r.
  - rewrite expandWork_cons. rewrite bool_decide_eq_false_2 by (apply Hseen; left).
    unfold addrs in Hnd. rewrite fmap_cons in Hnd. apply NoDup_cons in Hnd as [Ha Hnd].
    assert (stepWork base a x = addTerm base a (markSeen a x)) as Hstep.
    { unfold stepWork. by rewrite (Hplain a) by left. }
    rewrite Hstep.
    destruct (IH (addTerm base a (markSeen a x))) as (x' & Hrun & Hal & Hnt & Ht & Hn).
    + intros b Hb. simpl. apply Hplain. by right.
    + done.
    + intros b Hb. simpl. apply not_elem_of_union. split; [|apply Hseen; by right].
      apply not_elem_of_singleton. intros Heq. apply Ha. rewrite <- Heq.
      apply list_elem_of_fmap. by exists b.
    + exists x'. split; [done|]. split; [done|]. split; [done|]. split.
      * rewrite Ht. simpl. rewrite <- app_assoc. f_equal. simpl.
        rewrite Nat.add_0_r. f_equal. apply imap_ext. intros i b _. simpl.
        f_equal. lia.
      * rewrite Hn. simpl. lia.
Qed.

Lemma expand_flat e base s :
  aliases e !! contract base = Some s →
  (∀ a, a ∈ elems s → aliases e !! contract a = None) →
  NoDup (addrs (elems s)) →
  addr base ∉ addrs (elems s) →
  expand e base
  = Some (sortTargets (imap (λ i a, dup base a (nextAddr e + i)) (elems s)),
          None,
          set_nextAddr (nextAddr e + length (elems s))
                       (set_aliases (aliases e) e)).
Proof.
  intros Hs Hplain Hnd Hbase. unfold expand. rewrite Hs.
  set (x0 := {| x_aliases := aliases e; x_nonTerm := Shared (len s);
                x_seen := {[addr base]}; x_term := [];
                x_nextAddr := nextAddr e |}).
  assert (readNonTerm (contract base) x0 = elems s) as Hread.
  { unfold readNonTerm. simpl. by rewrite Hs. }
  destruct (elems s) as [|a ws] eqn:Hel.
  - rewrite expandLoop_S, Hread. simpl. by rewrite Nat.add_0_r.
  - destruct (tableTargets (aliases e)) as [|t0 tt] eqn:Htt.
    { assert (a ∈ tableTargets (aliases e)) as Hin.
      { eapply tableTargets_elem; [done|]. apply elems_array. rewrite Hel. left. }
      rewrite Htt in Hin. by apply elem_of_nil in Hin. }
    cbn [length]. rewrite expandLoop_S, Hread.
    destruct (expandWork_flat base (a :: ws) (resetNonTerm x0))
      as (x' & Hrun & Hal & Hnt & Ht & Hn).
    + done.
    + done.
    + intros b Hb. simpl. apply not_elem_of_singleton. intros Heq.
      apply Hbase. rewrite <- Heq. apply list_elem_of_fmap. by exists b.
    + rewrite Hrun. rewrite expandLoop_S. unfold readNonTerm.
      rewrite Hnt, Hal. simpl. rewrite Hs. rewrite take_0. simpl.
      rewrite Ht, Hn, Hal. by simpl.
Qed.

(** An annotation that names an alias whose entries name no alias
    themselves gets one target per entry, and no other: the annotation
    with the contract and the configuration of the entry, each a fresh
    copy; the alias table is left as it was. *)
Theorem expand_alias_of_contracts e base s :
  aliases e !! contract base = Some s →
  (∀ a, a ∈ elems s → aliases e !! contract a = None) →
  NoDup (addrs (elems s)) →
  addr base ∉ addrs (elems s) →
  ∃ ts, expand e base
        = Some (ts, None,
                set_nextAddr (nextAddr e + length (elems s))
                             (set_aliases (aliases e) e))
        ∧ ts ≡ₚ imap (λ i a, dup base a (nextAddr e + i)) (elems s).
Proof.
  intros Hs Hplain Hnd Hbase. eexists. split; [by apply expand_flat|].
  apply merge_sort_Permutation.
Qed.

End Expanded.

(** ** Binding the contracts *)

Section Binding.

Context {I : Type} `{Contract I}.

Implicit Types (e : @Enforcer I) (t u base : @target I)
  (ts : list (@target I)).

Lemma expand_Contracts e base ts err e' :
  expand e base = Some (ts, err, e') → Contracts e' = Contracts e.
Proof.
  unfold expand. destruct (aliases e !! contract base); [|by intros [= _ _ <-]].
  destruct (expandLoop _ _ _) as [[x o]|]; [|done]. simpl.
  by destruct o; intros [= _ _ <-].
Qed.

Lemma expandEach_Contracts e ts acc out err e' :
  expandEach e ts acc = Some (out, err, e') → Contracts e' = Contracts e.
Proof.
  revert e acc. induction ts as [|b ts IH]; intros e acc Hrun; simpl in Hrun.
  - by simplify_eq.
  - destruct (expand e b) as [[[exp o] e1]|] eqn:Hexp; simpl in Hrun; [|done].
    apply expand_Contracts in Hexp. destruct o; [by simplify_eq|].
    rewrite <- Hexp. by eapply IH.
Qed.

Lemma configureEach_configured providers ts ts' :
  configureEach providers ts = (ts', None) →
  ∀ t', t' ∈ ts' → ∃ inst, impl t' = Some inst ∧ configured providers t' inst.
Proof.
  revert ts'. induction ts as [|b ts IH]; intros ts' Hrun t' Ht'; simpl in Hrun.
  - simplify_eq. by apply elem_of_nil in Ht'.
  - destruct (providers !! contract b) as [provider|] eqn:Hp; [|done].
    destruct (if bool_decide (config b ≠ "") then _ else _) as [inst|msg] eqn:Hd;
      [|done].
    destruct (configureEach providers ts) as [rest err].
    simplify_eq. apply elem_of_cons in Ht' as [->|Ht']; [|by eapply IH].
    exists inst. split; [done|]. exists provider. split; [done|]. simpl.
    case_bool_decide; [done|]. by simplify_eq.
Qed.

(** After a successful [expandAll] every target of the Enforcer has its
    contract instance: the one its provider makes, with the
    configuration of the target decoded into it when there is one. *)
Theorem expandAll_binds_every_target e e' :
  expandAll e = Some (e', None) →
  ∀ t, t ∈ targets e' →
    ∃ inst, impl t = Some inst ∧ configured (Contracts e) t inst.
Proof.
  unfold expandAll. intros Hrun.
  destruct (expandEach e (targets e) []) as [[[exp [err|]] e1]|] eqn:Hexp;
    simpl in Hrun; [done| |done].
  destruct (configureEach (Contracts e1) exp) as [conf [err|]] eqn:Hconf;
    [done|].
  simplify_eq. simpl. rewrite <- (expandEach_Contracts _ _ _ _ _ _ Hexp).
  by eapply configureEach_configured.
Qed.

Lemma configureEach_app providers pre ts :
  (∀ u, u ∈ pre → ∃ inst, configured providers u inst) →
  (configureEach providers (pre ++ ts)).2 = (configureEach providers ts).2.
Proof.
  induction pre as [|b pre IH]; intros Hpre; [done|]. simpl.
  destruct (Hpre b) as (inst & provider & Hp & Hd); [left|].
  rewrite Hp.
  assert ((if bool_decide (config b ≠ "") then Decode (config b) (New provider)
           else inl (New provider)) = inl inst) as ->.
  { case_bool_decide; [done|]. by subst. }
  rewrite <- IH by (intros u Hu; apply Hpre; by right).
  by destruct (configureEach providers (pre ++ ts)).
Qed.


End Binding.

(** ** Workers *)

Section Workers.

Context {I : Type} `{Contract I}.

Implicit Types (e : @Enforcer I) (t : @target I) (ts : list (@target I)).

Lemma enforce_runs (ssaPgm : ssaProgram) e t :
  is_Some (impl t) →
  (kind t = KindInterfaceMethod → is_Some (enclosing t)) →
  ∃ rs, enforce ssaPgm e t = Some (rs, None) ∧ ∀ r, r ∈ rs → r_target r = t.
Proof.
  intros [inst Hinst] Hencl. unfold enforce.
  assert (is_Some (contextOf ssaPgm e t)) as [ctx Hctx].
  { unfold contextOf. destruct (kind t); try done.
    destruct Hencl as [encl ->]; done. }
  rewrite Hctx, Hinst. simpl.
  destruct (Enforce inst ctx) as [filed [msg|]]; eexists; (split; [done|]).
  - intros r [Hr|Hr%list_elem_of_singleton]%elem_of_app; [|by subst].
    apply list_elem_of_fmap in Hr as (? & -> & _). done.
  - intros r Hr. apply list_elem_of_fmap in Hr as (? & -> & _). done.
Qed.

(** A worker that is handed targets with their instances (and, for
    methods of interfaces, their interface) enforces every one of them,
    in order, and every report is filed for the target being enforced;
    it returns nil when the channel is closed, and the error of the
    context as soon as the context is done, without looking at what
    may still come. *)
Theorem worker_enforces_what_it_receives (ssaPgm : ssaProgram) e ts :
  (∀ t, t ∈ ts →
     is_Some (impl t)
     ∧ (kind t = KindInterfaceMethod → is_Some (enclosing t))) →
  ∃ filed,
    Forall2 (λ t rs, enforce ssaPgm e t = Some (rs, None)
                     ∧ ∀ r, r ∈ rs → r_target r = t) ts filed
    ∧ ∀ rest,
        worker ssaPgm e ((Received <$> ts) ++ Closed :: rest)
          = (concat filed, WReturned None)
        ∧ ∀ msg, worker ssaPgm e ((Received <$> ts) ++ CtxDone msg :: rest)
                 = (concat filed, WReturned (Some (ErrContext msg))).
Proof.
  induction ts as [|t ts IH]; intros Hts.
  - exists []. split; [constructor|]. done.
  - destruct (Hts t) as [Himpl Hencl]; [left|].
    destruct (enforce_runs ssaPgm e t Himpl Hencl) as (rs & Hrun & Hrs).
    destruct IH as (filed & Hall & Hw); [intros; apply Hts; by right|].
    exists (rs :: filed). split; [by constructor|].
    intros rest. destruct (Hw rest) as [Hclosed Hdone].
    rewrite fmap_cons. split.
    + rewrite <- app_comm_cons. cbn [worker]. by rewrite Hrun, Hclosed.
    + intros msg. rewrite <- app_comm_cons. cbn [worker].
      by rewrite Hrun, Hdone.
Qed.

End Workers.

(** ** What the scanner finds *)

Section Scanned.

Context {I : Type} `{Contract I}.

Implicit Types (e : @Enforcer I) (t : @target I) (s : @slice I)
  (mu : @scan I).

Lemma foldl_bind {A B C} (f : A → C → A) (g : B → list C) (l : list B) (a : A) :
  foldl f a (l ≫= g) = foldl (λ a x, foldl f a (g x)) a l.
Proof.
  revert a. induction l as [|x l IH]; intros a; [done|].
  rewrite bind_cons, foldl_app. apply IH.
Qed.

Lemma foldl_map {A B C} (f : A → C → A) (g : B → C) (l : list B) (a : A) :
  foldl f a (g <$> l) = foldl (λ a x, f a (g x)) a l.
Proof. revert a. induction l as [|x l IH]; intros a; [done|]. apply IH. Qed.

Lemma contractClosure_flat comments object_ enclosing_ kind_ mu :
  contractClosure comments object_ enclosing_ kind_ mu
  = foldl (λ mu pm, contractMatch object_ enclosing_ kind_ pm.1 pm.2 mu)
          mu (annotationsIn comments).
Proof.
  unfold contractClosure, annotationsIn. rewrite foldl_bind.
  revert mu. induction comments as [|group comments IH]; intros mu; [done|].
  simpl. rewrite <- IH. f_equal. rewrite foldl_bind.
  clear IH. revert mu. induction group as [|comment_ group IH]; intros mu; [done|].
  simpl. rewrite <- IH. f_equal. by rewrite foldl_map.
Qed.

Lemma elems_append1 s t :
  len s = length (array s) → elems (append1 s t) = elems s ++ [t].
Proof.
  intros Hs. unfold append1, elems. rewrite Hs, firstn_all.
  case_bool_decide; simpl; by rewrite take_ge by (rewrite length_app; simpl; lia).
Qed.

Lemma append1_tight s t :
  len s = length (array s) →
  len (append1 s t) = length (array (append1 s t)).
Proof.
  intros Hs. unfold append1, elems. rewrite Hs, firstn_all.
  case_bool_decide; simpl; rewrite length_app; simpl; lia.
Qed.

(** What one match adds. *)
Lemma contractMatch_adds object_ enclosing_ kind_ p m mu :
  tight (mu_aliases mu) →
  let mu' := contractMatch object_ enclosing_ kind_ p m mu in
  let f := (p, m.1, TrimSpace m.2, kind_, object_, enclosing_) in
  tight (mu_aliases mu')
  ∧ fields <$> mu_targets mu'
    = (fields <$> mu_targets mu)
      ++ (if bool_decide (Obj_alias object_ = None) then [f] else [])
  ∧ ∀ n, fields <$> lookupElems (mu_aliases mu') n
         = (fields <$> lookupElems (mu_aliases mu) n)
           ++ (if bool_decide (Obj_alias object_ = Some n) then [f] else []).
Proof.
  intros Ht. unfold contractMatch. destruct (Obj_alias object_) as [name|];
    simpl.
  - assert (len (default {| array := []; len := 0; cap := 0 |}
                         (mu_aliases mu !! name))
            = length (array (default {| array := []; len := 0; cap := 0 |}
                         (mu_aliases mu !! name)))) as Hold.
    { destruct (mu_aliases mu !! name) as [s|] eqn:Hs; [|done].
      by apply (Ht _ _ Hs). }
    split; [|split].
    + apply map_Forall_insert_2; [|done]. by apply append1_tight.
    + by rewrite app_nil_r.
    + intros n. unfold lookupElems. case_bool_decide as Hn.
      * simplify_eq. rewrite lookup_insert_eq, elems_append1 by done.
        rewrite fmap_app. f_equal.
        by destruct (mu_aliases mu !! n).
      * rewrite lookup_insert_ne by congruence. by rewrite app_nil_r.
  - split; [done|]. split; [by rewrite fmap_app|].
    intros n. by rewrite app_nil_r.
Qed.

Lemma scan_declaration d mu :
  tight (mu_aliases mu) →
  let mu' := contractClosure (a_comments d) (a_object d) (a_enclosing d)
                             (a_kind d) mu in
  tight (mu_aliases mu')
  ∧ fields <$> mu_targets mu'
    = (fields <$> mu_targets mu)
      ++ (if bool_decide (Obj_alias (a_object d) = None)
          then scannedFields d else [])
  ∧ ∀ n, fields <$> lookupElems (mu_aliases mu') n
         = (fields <$> lookupElems (mu_aliases mu) n)
           ++ (if bool_decide (Obj_alias (a_object d) = Some n)
               then scannedFields d else []).
Proof.
  intros Ht. cbv zeta. rewrite contractClosure_flat.
  unfold scannedFields, matchesOf.
  generalize (annotationsIn (a_comments d)). intros pms. revert mu Ht.
  induction pms as [|pm pms IH]; intros mu Ht.
  - simpl. split; [done|]. split.
    + by case_bool_decide; rewrite app_nil_r.
    + intros n. by case_bool_decide; rewrite app_nil_r.
  - simpl.
    destruct (contractMatch_adds (a_object d) (a_enclosing d) (a_kind d)
                pm.1 pm.2 mu Ht) as (Ht1 & HT1 & HA1).
    destruct (IH _ Ht1) as (Ht2 & HT2 & HA2).
    split; [done|]. split.
    + rewrite HT2, HT1. rewrite <- app_assoc. f_equal.
      by destruct (bool_decide _).
    + intros n. rewrite HA2, HA1. rewrite <- app_assoc. f_equal.
      by destruct (bool_decide (Obj_alias (a_object d) = Some n)).
Qed.

Lemma scan_declarations decls mu :
  tight (mu_aliases mu) →
  let mu' := foldl (λ mu d,
               contractClosure (a_comments d) (a_object d) (a_enclosing d)
                               (a_kind d) mu) mu decls in
  tight (mu_aliases mu')
  ∧ fields <$> mu_targets mu'
    = (fields <$> mu_targets mu) ++ annotationsOf None decls
  ∧ ∀ n, fields <$> lookupElems (mu_aliases mu') n
         = (fields <$> lookupElems (mu_aliases mu) n)
           ++ annotationsOf (Some n) decls.
Proof.
  revert mu. induction decls as [|d decls IH]; intros mu Ht.
  - simpl. split; [done|]. unfold annotationsOf. simpl.
    split; [by rewrite app_nil_r|]. intros n. by rewrite app_nil_r.
  - simpl. destruct (scan_declaration d mu Ht) as (Ht1 & HT1 & HA1).
    destruct (IH _ Ht1) as (Ht2 & HT2 & HA2).
    split; [done|]. unfold annotationsOf in *. split.
    + rewrite HT2, HT1, <- app_assoc. f_equal. rewrite filter_cons.
      case_decide as Hd.
      * rewrite bool_decide_eq_true_2 by done. by rewrite bind_cons.
      * by rewrite bool_decide_eq_false_2 by done.
    + intros n. rewrite HA2, HA1, <- app_assoc. f_equal. rewrite filter_cons.
      case_decide as Hd.
      * rewrite bool_decide_eq_true_2 by done. by rewrite bind_cons.
      * by rewrite bool_decide_eq_false_2 by done.
Qed.


End Scanned.

Import RtExamples.

(** ** The accounts on the linters of the examples *)

(** The annotation of [HasAlias] expands to contracts of the linter. *)
Lemma expand_hands_out_witness :
  ∃ ts e', expand twice hasAlias = Some (ts, None, e')
    ∧ ∀ t, t ∈ ts →
        aliases twice !! contract t = None ∧ t = dup hasAlias t (addr t)
        ∧ (t = hasAlias
           ∨ ∃ a, a ∈ tableTargets (aliases twice)
                  ∧ contract t = contract a ∧ config t = config a).
Proof.
  eexists _, _. split; [by vm_compute|].
  eapply (expand_hands_out_contracts twice hasAlias). by vm_compute.
Defined.

(** The alias [Twice] stands for two contracts of the linter: the
    annotation of [HasAlias] becomes the two, at fresh addresses. *)
Lemma expand_alias_witness :
  ∃ ts, (fst <$> (fst <$> expand twice hasAlias)) = Some ts
    ∧ ts ≡ₚ (λ ac, {| addr := ac.1; config := ac.2;
                       contract := "MustReturnInt"; enclosing := None;
                       kind := KindFunction; object := object hasAlias;
                       pos := 29; impl := None |})
            <$> [(3, "{ 1 }"); (4, "{ 2 }")].
Proof.
  destruct (aliases twice !! contract hasAlias) as [s|] eqn:Hs;
    [|by vm_compute in Hs].
  destruct (expand_alias_of_contracts twice hasAlias s Hs)
    as (ts & Hrun & Hts).
  - vm_compute in Hs. injection Hs as <-. intros a Ha.
    apply list_elem_of_In in Ha. vm_compute in Ha.
    by destruct Ha as [<-|[<-|[]]].
  - vm_compute in Hs. injection Hs as <-.
    apply (bool_decide_unpack _). by vm_compute.
  - vm_compute in Hs. injection Hs as <-.
    apply (bool_decide_unpack _). by vm_compute.
  - exists ts. rewrite Hrun. split; [done|].
    vm_compute in Hs. injection Hs as <-. exact Hts.
Defined.

(** Both targets of [plain] get an instance of their provider. *)
Lemma expandAll_binds_witness :
  ∃ e', expandAll plain = Some (e', None)
    ∧ ∀ t, t ∈ targets e' →
        ∃ inst, impl t = Some inst ∧ configured (Contracts plain) t inst.
Proof.
  eexists. split; [by vm_compute|].
  eapply (expandAll_binds_every_target plain). by vm_compute.
Defined.


(** A worker that receives the failing target of [plain] and then
    finds the channel closed. *)
Lemma worker_enforces_witness :
  ∃ filed,
    Forall2 (λ t rs, enforce demo plain t = Some (rs, None)
                     ∧ ∀ r, r ∈ rs → r_target r = t) [failing] filed
    ∧ worker demo plain [Received failing; Closed]
      = (concat filed, WReturned None).
Proof.
  destruct (worker_enforces_what_it_receives demo plain [failing])
    as (filed & Hfiled & Hrun).
  - intros t ->%list_elem_of_singleton. by split; [eexists|].
  - exists filed. split; [done|]. apply (Hrun []).
Defined.

End RtMore.

(* ================================================================== *)
(** * More about the analysis of returned values *)
(* ================================================================== *)

Module RetlintMore.
Import Retlint RetlintFacts.

(** ** What [Execute] returns *)

Section Returned.

Variable pgm : Program.
Variable rng : ranging.

Implicit Types (l : RetLint) (p q : StatPtr) (s : funcStat) (f : Fn).

Lemma bind_Done {A B} (m : M A) (k : A → M B) l b l2 :
  (m ≫= k) l = Done b l2 → ∃ a l1, m l = Done a l1 ∧ k a l1 = Done b l2.
Proof.
  unfold mbind, M_bind. destruct (m l) as [a l1| |]; [|done..].
  intros Hk. by exists a, l1.
Qed.

Lemma ret_Done {A} (a b : A) l l' :
  (mret a : M A) l = Done b l' → b = a ∧ l' = l.
Proof. by intros [= -> ->]. Qed.

Lemma get_Done l a l' : get l = Done a l' → a = l ∧ l' = l.
Proof. by intros [= -> ->]. Qed.

Lemma modify_Done g l u l' : modify g l = Done u l' → l' = g l.
Proof. by intros [= _ <-]. Qed.

Lemma load_Done p l s l' :
  load p l = Done s l' → l' = l ∧ store l !! p = Some s.
Proof.
  unfold load. intros (a & l1 & [-> ->]%get_Done & Hs)%bind_Done.
  destruct (store l !! p); [|done]. by apply ret_Done in Hs as [-> ->].
Qed.

Lemma resolve_pure name l r l' : resolve pgm name l = Done r l' → l' = l.
Proof.
  unfold resolve. destruct (path_Split name) as [tgtPath tgtName].
  intros (found & l1 & Hfound & Hret)%bind_Done.
  assert (l1 = l) as ->.
  { case_bool_decide.
    - destruct (Universe pgm !! tgtName); [|done].
      by apply ret_Done in Hfound as [_ ->].
    - by apply ret_Done in Hfound as [_ ->]. }
  destruct found as [[]|]; by apply ret_Done in Hret as [_ ->].
Qed.

Lemma resolveAllowed_frame names l o l' :
  resolveAllowed pgm names l = Done o l' →
  store l' = store l ∧ journal l' = journal l ∧ work l' = work l
  ∧ stats l' = stats l ∧ target l' = target l.
Proof.
  revert l. induction names as [|a names IH]; intros l Hrun; simpl in Hrun.
  - by apply ret_Done in Hrun as [_ ->].
  - apply bind_Done in Hrun as (r & l1 & Hr & Hrun).
    apply resolve_pure in Hr as ->.
    destruct r as [found|err]; [|by apply ret_Done in Hrun as [_ ->]].
    apply bind_Done in Hrun as ([] & l2 & ->%modify_Done & Hrun).
    by apply IH in Hrun as (-> & -> & -> & -> & ->).
Qed.

Lemma dirtyFunctions_loop xs acc l ret l' :
  foldM (λ ret '(_, p),
    s ← load p;
    if bool_decide (fstate s = stateDirty)
    then
      match fnOf pgm s with
      | None => panic nilDereference
      | Some fd =>
          if IsExported (Name fd) && inInput pgm (Pkg fd)
          then mret (ret ++ [p])
          else mret ret
      end
    else mret ret) xs acc l = Done ret l' →
  l' = l
  ∧ ∀ q, q ∈ ret ↔ q ∈ acc ∨ ((∃ f, (f, q) ∈ xs) ∧ dirtyExported pgm l q).
Proof.
  revert acc. induction xs as [|[f p] xs IH]; intros acc Hrun; simpl in Hrun.
  - apply ret_Done in Hrun as [-> ->].
    split; [done|]. intros q. split; [by left|].
    intros [?|[[f Hf] _]]; [done|]. by apply elem_of_nil in Hf.
  - apply bind_Done in Hrun as (acc' & l1 & Hstep & Hrun).
    apply bind_Done in Hstep as (s & l2 & [-> Hp]%load_Done & Hstep).
    assert (l1 = l ∧ ∀ q, q ∈ acc' ↔ q ∈ acc ∨ (q = p ∧ dirtyExported pgm l q))
      as [-> Hacc'].
    { case_bool_decide as Hd.
      - destruct (fnOf pgm s) as [fd|] eqn:Hfd; [|done].
        destruct (IsExported (Name fd) && inInput pgm (Pkg fd)) eqn:Hex;
          apply ret_Done in Hstep as [-> ->]; (split; [done|]); intros q.
        + rewrite elem_of_app, list_elem_of_singleton.
          split; [|by intros [?|[? ?]]; auto].
          intros [?| ->]; [by left|]. right. split; [done|].
          apply andb_true_iff in Hex as [? ?]. by exists s, fd.
        + split; [by left|].
          intros [?|[-> (s2 & fd2 & Hs2 & _ & Hfd2 & He2 & Hi2)]]; [done|].
          assert (s2 = s) as -> by congruence.
          assert (fd2 = fd) as -> by congruence.
          rewrite He2, Hi2 in Hex. done.
      - apply ret_Done in Hstep as [-> ->]. split; [done|]. intros q.
        split; [by left|].
        intros [?|[-> (s2 & fd2 & Hs2 & Hd2 & _)]]; [done|].
        assert (s2 = s) as -> by congruence. done. }
    destruct (IH _ Hrun) as [-> Hret]. split; [done|].
    intros q. rewrite Hret, Hacc'. split.
    + intros [[?|[-> ?]]|[[f' Hf'] ?]]; [by left| |].
      * right. split; [|done]. exists f. left.
      * right. split; [|done]. exists f'. by right.
    + intros [?|[[f' Hf'] Hq]]; [by left; left|].
      apply elem_of_cons in Hf' as [[= _ ->]|Hf'].
      * left. by right.
      * right. split; [by exists f'|done].
Qed.

Lemma dirtyFunctions_spec l ret l' :
  ranges rng → dirtyFunctions pgm rng l = Done ret l' →
  l' = l ∧ ∀ p, p ∈ ret ↔ reported pgm l p.
Proof.
  intros [_ Hrng] Hrun. unfold dirtyFunctions in Hrun.
  apply bind_Done in Hrun as (? & ? & [-> ->]%get_Done & Hrun).
  apply dirtyFunctions_loop in Hrun as [-> Hret]. split; [done|].
  intros p. rewrite Hret. unfold reported. split.
  - intros [?%elem_of_nil|[[f Hf] ?]]; [done|]. split; [|done].
    exists f. rewrite (Hrng _) in Hf. by apply elem_of_map_to_list in Hf.
  - intros [[f Hf] ?]. right. split; [|done]. exists f.
    rewrite (Hrng _). by apply elem_of_map_to_list.
Qed.


End Returned.

(** ** Marking a function dirty *)

Section Marking.

Variable rng : ranging.

Implicit Types (l : RetLint) (p q : StatPtr) (s : funcStat).

Lemma settles_refl l : settles l l.
Proof. intros p s Hs. by exists s. Qed.

Lemma settles_trans l1 l2 l3 : settles l1 l2 → settles l2 l3 → settles l1 l3.
Proof.
  intros H12 H23 p s Hs.
  destruct (H12 _ _ Hs) as (s2 & Hs2 & Hf2 & Hd2 & Hk2).
  destruct (H23 _ _ Hs2) as (s3 & Hs3 & Hf3 & Hd3 & Hk3).
  exists s3. split; [done|]. split; [congruence|]. split; [congruence|].
  intros Hdirty Hwhy. destruct (Hk2 Hdirty Hwhy) as (? & ? & ?).
  destruct Hk3 as (? & ? & ?); [done..|]. split; [done|]. split; [done|]. lia.
Qed.

Lemma dirtyWithin_settles l l' p n :
  settles l l' → dirtyWithin l p n → dirtyWithin l' p n.
Proof.
  intros Hl (s & Hs & Hd & Hw & Hn).
  destruct (Hl _ _ Hs) as (s' & Hs' & _ & _ & Hk).
  destruct (Hk Hd Hw) as (? & ? & ?). exists s'. split; [done|].
  split; [done|]. split; [done|]. lia.
Qed.

Lemma update_Done p g l u l' :
  update p g l = Done u l' →
  ∃ s, store l !! p = Some s ∧ l' = written p s (g s) l.
Proof.
  unfold update. intros (s & l1 & [-> Hs]%load_Done & ->%modify_Done)%bind_Done.
  by exists s.
Qed.

Lemma settles_written p s s' l :
  store l !! p = Some s → fn s' = fn s → dirties s' = dirties s →
  (fstate s = stateDirty → why s ≠ [] →
   fstate s' = stateDirty ∧ why s' ≠ [] ∧ length (why s') ≤ length (why s)) →
  settles l (written p s s' l).
Proof.
  intros Hs Hf Hd Hk q sq Hq. destruct (base.decide (q = p)) as [->|Hne].
  - exists s'. assert (sq = s) as -> by congruence. split; [|done].
    apply lookup_written; [done|]. by left.
  - exists sq. split; [|done]. apply lookup_written; [done|]. by right.
Qed.

Lemma forEach_Done {A} (body : A → M unit) (Inv : RetLint → Prop) xs l l' :
  (∀ x l1 l2, x ∈ xs → Inv l1 → body x l1 = Done tt l2 → Inv l2) →
  Inv l → forEach xs body l = Done tt l' → Inv l'.
Proof.
  revert l. induction xs as [|x xs IH]; intros l Hbody Hl Hrun; simpl in Hrun.
  - by apply ret_Done in Hrun as [_ ->].
  - apply bind_Done in Hrun as ([] & l1 & Hx & Hrun).
    eapply (IH l1); [|by eapply (Hbody x); [left|..]|done].
    intros y l2 l3 Hy. apply Hbody. by right.
Qed.

(** [markDirty], when it returns, leaves the record Dirty with an
    explanation no longer than the one it was given, and every other
    explanation no longer than it was. *)
Lemma markDirty_settles fuel p why_ l l' :
  why_ ≠ [] →
  markDirty rng fuel p why_ l = Done tt l' →
  settles l l' ∧ dirtyWithin l' p (length why_).
Proof.
  revert p why_ l l'. induction fuel as [|fuel IH]; intros p why_ l l' Hwhy Hrun;
    [done|].
  rewrite markDirty_S in Hrun.
  apply bind_Done in Hrun as (s & l0 & [-> Hs]%load_Done & Hrun).
  apply bind_Done in Hrun as (changed & l1 & Hchanged & Hrun).
  assert (∃ s1, store l1 !! p = Some s1 ∧ settles l l1
            ∧ fn s1 = fn s ∧ dirties s1 = dirties s ∧ fstate s1 = fstate s
            ∧ why s1 ≠ [] ∧ length (why s1) ≤ length why_
            ∧ (changed = false → l1 = l)) as (s1 & Hs1 & Hl1 & Hf1 & Hd1 & Hst1 & Hw1 & Hn1 & Hsame).
  { destruct (bool_decide (why s = []) || bool_decide (length why_ < length (why s)))
      eqn:Hc.
    - apply bind_Done in Hchanged as ([] & l2 & Hup & [-> ->]%ret_Done).
      apply update_Done in Hup as (s0 & Hs0 & ->).
      assert (s0 = s) as -> by congruence.
      exists (set_why why_ s). split.
      { apply lookup_written; [done|]. by left. }
      split; [|done].
      apply settles_written; [done..|]. intros Hd Hne. simpl.
      split; [done|]. split; [done|].
      apply orb_true_iff in Hc as [Hc|Hc]; apply bool_decide_eq_true in Hc;
        [done|lia].
    - apply ret_Done in Hchanged as [-> ->]. exists s.
      apply orb_false_iff in Hc as [Hc1 Hc2].
      apply bool_decide_eq_false in Hc1. apply bool_decide_eq_false in Hc2.
      split; [done|]. split; [apply settles_refl|].
      do 4 (split; [done|]). split; [lia|done]. }
  apply bind_Done in Hrun as (s1' & l1' & [-> Hs1']%load_Done & Hrun).
  assert (s1' = s1) as -> by congruence.
  destruct (bool_decide (fstate s1 = stateDirty) && negb changed) eqn:Hearly.
  { apply ret_Done in Hrun as [_ ->].
    apply andb_true_iff in Hearly as [Hd%bool_decide_eq_true Hnc].
    split; [done|]. by exists s1. }
  apply bind_Done in Hrun as ([] & l2 & Hup & Hrun).
  apply update_Done in Hup as (s2 & Hs2 & ->).
  assert (s2 = s1) as -> by congruence.
  set (l2 := written p s1 (set_fstate stateDirty s1) l1) in *.
  assert (settles l1 l2) as Hl2.
  { apply settles_written; [done..|]. intros Hd _. simpl. done. }
  assert (dirtyWithin l2 p (length why_)) as Hp2.
  { exists (set_fstate stateDirty s1). split; [|done].
    apply lookup_written; [done|]. by left. }
  apply bind_Done in Hrun as (s3 & l3 & [-> Hs3]%load_Done & Hrun).
  apply (forEach_Done _ (λ l', settles l2 l')) in Hrun.
  - split; [|by eapply dirtyWithin_settles].
    apply (settles_trans _ l1); [done|]. by apply (settles_trans _ l2).
  - intros [chained call] la lb _ Hla Hcall.
    apply IH in Hcall as [Hab _]; [|done]. by eapply settles_trans.
  - apply settles_refl.
Qed.

(** [markDirty] with a reason for a record that was not Dirty, or with
    a shorter explanation than the one stored, passes the reason on:
    when it returns, the record is Dirty, and so is every record
    registered as depending on it, with an explanation at most one
    reason longer. *)
Theorem markDirty_passes_the_reason_on fuel p why_ s l l' :
  ranges rng →
  why_ ≠ [] →
  store l !! p = Some s →
  fstate s ≠ stateDirty ∨ why s = [] ∨ length why_ < length (why s) →
  markDirty rng fuel p why_ l = Done tt l' →
  dirtyWithin l' p (length why_)
  ∧ ∀ q call, dirties s !! q = Some call →
      dirtyWithin l' q (S (length why_)).
Proof.
  intros [Hrng _] Hwhy Hs Hfresh Hrun.
  split; [by eapply markDirty_settles|].
  destruct fuel as [|fuel]; [done|]. rewrite markDirty_S in Hrun.
  apply bind_Done in Hrun as (s0 & l0 & [-> Hs0]%load_Done & Hrun).
  assert (s0 = s) as -> by congruence.
  apply bind_Done in Hrun as (changed & l1 & Hchanged & Hrun).
  assert (∃ s1, store l1 !! p = Some s1 ∧ dirties s1 = dirties s
            ∧ fstate s1 = fstate s
            ∧ (changed = false → fstate s ≠ stateDirty)) as (s1 & Hs1 & Hd1 & Hst1 & Hch).
  { destruct (bool_decide (why s = []) || bool_decide (length why_ < length (why s)))
      eqn:Hc.
    - apply bind_Done in Hchanged as ([] & l2 & Hup & [-> ->]%ret_Done).
      apply update_Done in Hup as (s0 & Hs0' & ->).
      assert (s0 = s) as -> by congruence.
      exists (set_why why_ s). split; [|done].
      apply lookup_written; [done|]. by left.
    - apply ret_Done in Hchanged as [-> ->]. exists s.
      apply orb_false_iff in Hc as [Hc1 Hc2].
      apply bool_decide_eq_false in Hc1. apply bool_decide_eq_false in Hc2.
      do 3 (split; [done|]). intros _. destruct Hfresh as [?|[?|?]]; [done..|lia]. }
  apply bind_Done in Hrun as (s1' & l1' & [-> Hs1']%load_Done & Hrun).
  assert (s1' = s1) as -> by congruence.
  destruct (bool_decide (fstate s1 = stateDirty) && negb changed) eqn:Hearly.
  { apply andb_true_iff in Hearly as [Hd%bool_decide_eq_true Hnc].
    destruct changed; [done|]. destruct Hch; [done|congruence]. }
  apply bind_Done in Hrun as ([] & l2 & Hup & Hrun).
  apply update_Done in Hup as (s2 & Hs2 & ->).
  assert (s2 = s1) as -> by congruence.
  apply bind_Done in Hrun as (s3 & l3 & [-> Hs3]%load_Done & Hrun).
  assert (dirties s3 = dirties s) as Hd3.
  { apply lookup_written in Hs3 as [[_ ->]|[? _]]; done. }
  intros q call Hq.
  assert ((q, call) ∈ rangeDirties rng (dirties s3)) as Hin.
  { rewrite (Hrng _), Hd3. by apply elem_of_map_to_list. }
  revert Hin Hrun. generalize (rangeDirties rng (dirties s3)).
  generalize (written p s1 (set_fstate stateDirty s1) l1).
  intros la xs. revert la. induction xs as [|[chained c] xs IHxs];
    intros la Hin Hrun; [by apply elem_of_nil in Hin|].
  simpl in Hrun. apply bind_Done in Hrun as ([] & lb & Hcall & Hrun).
  apply elem_of_cons in Hin as [[= <- <-]|Hin]; [|by eapply IHxs].
  apply markDirty_settles in Hcall as [_ Hq']; [|done].
  eapply dirtyWithin_settles; [|done].
  apply (forEach_Done _ (λ l', settles lb l')) in Hrun; [done| |apply settles_refl].
  intros [ch' c'] l4 l5 _ H4 Hcall'.
  apply markDirty_settles in Hcall' as [H45 _]; [|done]. by eapply settles_trans.
Qed.

End Marking.

Import RetlintExamples.

(** ** The reports on the programs of the examples *)


(** Marking [Helper] dirty in [waiting] makes [LongFirst] dirty too,
    with one reason more. *)
Lemma markDirty_passes_witness :
  ∃ l', markDirty inOrder 5 1
          [{| Reason := "result of disallowed type"; Value_ := 0 |}] waiting
        = Done tt l'
    ∧ dirtyWithin l' 1 1 ∧ dirtyWithin l' 2 2.
Proof.
  eexists. split; [by vm_compute|].
  match goal with |- dirtyWithin ?l' _ _ ∧ _ =>
    destruct (store waiting !! 1) as [s|] eqn:Hs; [|by vm_compute in Hs];
    destruct (markDirty_passes_the_reason_on inOrder 5 1
                [{| Reason := "result of disallowed type"; Value_ := 0 |}]
                s waiting l') as [Hp Hq] end.
  - apply inOrder_ranges.
  - done.
  - exact Hs.
  - left. vm_compute in Hs. by injection Hs as <-.
  - by vm_compute.
  - split; [exact Hp|]. apply (Hq 2 2).
    vm_compute in Hs. by injection Hs as <-.
Defined.

End RetlintMore.
